(** * Enum-source parsing and schema inference of the GitHub webhook function

    A shallow embedding of the pure core of the cloud function:
    [camelToSnakeCase], [parseEnumDeclaration], [guessSchema],
    [enumToBigQuerySchemaFields], [enumToBigQueryRows], [isEnumSourceFile]
    and the map/filter/map chain inside [exports.github].

    The program is driven by JavaScript regular expressions, so the first
    part of the file is a model of the ECMAScript backtracking matcher
    (continuation-passing, as in ECMA-262 "Pattern Semantics"), of
    [RegExp.prototype.exec]/[test] with the [lastIndex] cursor, and of
    [String.prototype.split] on a regular expression.  Strings are sequences
    of UTF-16 code units.

    The file has the definitions first (values, patterns and matcher,
    builtins, the program, the relation [Matches] and the predicates of the
    statements, example inputs), then the lemmas (soundness and
    completeness of the matcher for [Matches], the shapes of the matches of
    each pattern of the program, the two modes of the parser, the type
    guesser), and at the end one theorem for each property C1 to C10 of the
    specification, followed by the further properties X1 to X17 of the same
    functions. *)

From Stdlib Require Import String Ascii.
From Stdlib Require Import List NArith Arith Lia Bool.
From Stdlib Require Import DecimalString DecimalN DecimalPos DecimalFacts.
From Stdlib Require Import Permutation.
Import ListNotations.

Set Implicit Arguments.

(** ** JavaScript values that occur in the program *)

(** A string is a sequence of 16-bit code units; a code unit is kept as a
    number, so every JavaScript string is a [jsstring]. *)
Definition code_unit := N.
Definition jsstring := list code_unit.

(** Literals of the source are ASCII; [str "abc"] is the JavaScript string
    ['abc']. *)
Definition chr (a : ascii) : code_unit := N_of_ascii a.
Definition str (s : string) : jsstring := map chr (list_ascii_of_string s).

Fixpoint jsstring_eqb (a b : jsstring) : bool :=
  match a, b with
  | [], [] => true
  | x :: a', y :: b' => N.eqb x y && jsstring_eqb a' b'
  | _, _ => false
  end.

(** The values the program handles: [undefined], strings, and the
    non-negative integer numbers produced by [autoindex_code++] (a count of
    matches in a string, far below 2^53, where numbers are exact). *)
Inductive value :=
| VUndef
| VStr (s : jsstring)
| VNum (n : N).

(** [ToString] on these values; a non-negative integer below 10^21 prints
    in decimal. *)
Definition N_to_jsstring (n : N) : jsstring :=
  str (NilZero.string_of_uint (N.to_uint n)).

Definition ToString (v : value) : jsstring :=
  match v with
  | VUndef => str "undefined"
  | VStr s => s
  | VNum n => N_to_jsstring n
  end.

(** [ToBoolean]: [undefined], the empty string and [0] are falsy. *)
Definition truthy (v : value) : bool :=
  match v with
  | VUndef => false
  | VStr [] => false
  | VStr (_ :: _) => true
  | VNum n => negb (N.eqb n 0)
  end.

(** [a[i]] on an array: [undefined] out of range. *)
Definition arr_get (a : list value) (i : nat) : value := nth i a VUndef.

Definition substring (s : jsstring) (i j : nat) : jsstring :=
  firstn (j - i) (skipn i s).

(** ** Regular expressions *)

Module Regex.

(** Character sets: a literal, a range, [\s], [.], unions and [[^...]]. *)
Inductive cset :=
| CChar (c : code_unit)
| CRange (lo hi : code_unit)
| CSpace
| CDot
| CUnion (a b : cset)
| CNot (a : cset).

Definition is_line_terminator (c : code_unit) : bool :=
  (N.eqb c 10 || N.eqb c 13 || N.eqb c 8232 || N.eqb c 8233)%bool.

(** [\s]: the WhiteSpace and LineTerminator code points (tab, vertical
    tab, form feed, space, no-break space, the Unicode space separators,
    the byte order mark; line feed, carriage return, U+2028, U+2029). *)
Definition is_white_space (c : code_unit) : bool :=
  ((N.leb 9 c && N.leb c 13) || N.eqb c 32 || N.eqb c 160 || N.eqb c 5760
   || (N.leb 8192 c && N.leb c 8202) || N.eqb c 8232 || N.eqb c 8233
   || N.eqb c 8239 || N.eqb c 8287 || N.eqb c 12288 || N.eqb c 65279)%bool.

Fixpoint cset_mem (cs : cset) (c : code_unit) : bool :=
  match cs with
  | CChar d => N.eqb c d
  | CRange lo hi => N.leb lo c && N.leb c hi
  | CSpace => is_white_space c
  | CDot => negb (is_line_terminator c)
  | CUnion a b => cset_mem a c || cset_mem b c
  | CNot a => negb (cset_mem a c)
  end.

(** Pattern syntax.  Capturing groups carry their number (the position of
    their left parenthesis in the pattern, from 1). *)
Inductive regex :=
| Empty
| Char (cs : cset)
| Seq (r1 r2 : regex)
| Alt (r1 r2 : regex)
| Repeat (r : regex) (min : nat) (max : option nat) (greedy : bool)
| Group (n : nat) (r : regex)
| Bol
| Eol
| Look (r : regex).

Definition Star r := Repeat r 0 None true.
Definition StarLazy r := Repeat r 0 None false.
Definition Plus r := Repeat r 1 None true.
Definition Opt r := Repeat r 0 (Some 1) true.

Fixpoint seq_of (rs : list regex) : regex :=
  match rs with
  | [] => Empty
  | [r] => r
  | r :: rs' => Seq r (seq_of rs')
  end.

Definition ch (a : ascii) : regex := Char (CChar (chr a)).
Definition lit (s : string) : regex := seq_of (map ch (list_ascii_of_string s)).

(** The capturing groups inside a pattern, left to right. *)
Fixpoint groups (r : regex) : list nat :=
  match r with
  | Empty | Char _ | Bol | Eol => []
  | Seq r1 r2 | Alt r1 r2 => groups r1 ++ groups r2
  | Repeat r _ _ _ | Look r => groups r
  | Group n r => n :: groups r
  end.

(** Matcher state: the end index and the captures (slot [k] for group [k];
    slot 0 is not used by the matcher). *)
Record state := mkState { endIndex : nat; captures : list (option (nat * nat)) }.

Fixpoint upd {A} (n : nat) (v : A) (l : list A) : list A :=
  match l, n with
  | [], _ => []
  | _ :: t, 0 => v :: t
  | h :: t, S n' => h :: upd n' v t
  end.

Definition set_capture (n : nat) (v : nat * nat) (x : state) : state :=
  mkState (endIndex x) (upd n (Some v) (captures x)).

Definition clear_captures (ps : list nat) (x : state) : state :=
  mkState (endIndex x) (fold_right (fun n caps => upd n None caps) (captures x) ps).

Definition advance (x : state) : state := mkState (S (endIndex x)) (captures x).

Definition cont := state -> option state.
Definition matcher := state -> cont -> option state.

Definition orelse (a : option state) (b : unit -> option state) : option state :=
  match a with
  | Some z => Some z
  | None => b tt
  end.

(** RepeatMatcher of ECMA-262: [max = 0] calls the continuation; the
    continuation [d] of one more iteration rejects an empty iteration once
    [min] is 0; the captures of the atom are cleared before each iteration;
    a greedy quantifier tries the atom first, a lazy one the continuation
    first.  The recursion is on [fuel]; [repeat_fuel] below is enough for
    every state of the input (lemma [RepeatMatcher_fuel_irrelevant]). *)
Fixpoint RepeatMatcher (fuel : nat) (m : matcher) (min : nat) (max : option nat)
    (greedy : bool) (parens : list nat) (x : state) (c : cont) : option state :=
  match fuel with
  | 0 => None
  | S fuel' =>
    match max with
    | Some 0 => c x
    | _ =>
      let d := fun y =>
        if (min =? 0) && (endIndex y =? endIndex x) then None
        else RepeatMatcher fuel' m (pred min) (option_map pred max) greedy parens y c in
      let xr := clear_captures parens x in
      if negb (min =? 0) then m xr d
      else if negb greedy then orelse (c x) (fun _ => m xr d)
      else orelse (m xr d) (fun _ => c x)
    end
  end.

Section Matcher.

Variable input : jsstring.
Variable multiline : bool.

Definition repeat_fuel (min : nat) (x : state) : nat :=
  S (min + (length input - endIndex x)).

Definition at_bol (e : nat) : bool :=
  match e with
  | 0 => true
  | S p => multiline &&
           match nth_error input p with
           | Some c => is_line_terminator c
           | None => false
           end
  end.

Definition at_eol (e : nat) : bool :=
  (e =? length input) ||
  (multiline &&
   match nth_error input e with
   | Some c => is_line_terminator c
   | None => false
   end).

(** Compilation of a pattern to its matcher. *)
Fixpoint compile (r : regex) : matcher :=
  match r with
  | Empty => fun x c => c x
  | Char cs => fun x c =>
      match nth_error input (endIndex x) with
      | Some a => if cset_mem cs a then c (advance x) else None
      | None => None
      end
  | Seq r1 r2 => fun x c => compile r1 x (fun y => compile r2 y c)
  | Alt r1 r2 => fun x c => orelse (compile r1 x c) (fun _ => compile r2 x c)
  | Repeat r1 min max greedy => fun x c =>
      RepeatMatcher (repeat_fuel min x) (compile r1) min max greedy (groups r1) x c
  | Group n r1 => fun x c =>
      compile r1 x (fun y => c (set_capture n (endIndex x, endIndex y) y))
  | Bol => fun x c => if at_bol (endIndex x) then c x else None
  | Eol => fun x c => if at_eol (endIndex x) then c x else None
  | Look r1 => fun x c =>
      match compile r1 x (fun y => Some y) with
      | Some y => c (mkState (endIndex x) (captures y))
      | None => None
      end
  end.

End Matcher.

(** A RegExp object: pattern, number of capturing groups and the flags the
    program uses. *)
Record RegExp := mkRegExp {
  pattern : regex;
  nCaps : nat;
  global : bool;
  multiline_flag : bool
}.

(** One attempt of the pattern at index [i]. *)
Definition match_at (R : RegExp) (s : jsstring) (i : nat) : option state :=
  compile s (multiline_flag R) (pattern R)
    (mkState i (repeat None (S (nCaps R)))) (fun y => Some y).

(** The scan of RegExpBuiltinExec: try [i], [i+1], ... for [n] positions. *)
Fixpoint scan (R : RegExp) (s : jsstring) (n i : nat) : option (nat * state) :=
  match n with
  | 0 => None
  | S n' =>
    match match_at R s i with
    | Some y => Some (i, y)
    | None => scan R s n' (S i)
    end
  end.

(** The array returned by [exec]: element 0 is the matched text, element
    [k] the text of group [k] or [undefined]. *)
Definition capture_value (s : jsstring) (c : option (nat * nat)) : value :=
  match c with
  | Some (a, b) => VStr (substring s a b)
  | None => VUndef
  end.

Definition match_array (s : jsstring) (i : nat) (y : state) : list value :=
  VStr (substring s i (endIndex y)) ::
  map (capture_value s) (tl (captures y)).

(** [R.exec(s)] with the cursor [lastIndex] made explicit: the result and
    the new value of [R.lastIndex].  A pattern without the [g] flag starts
    at 0 and leaves the cursor alone. *)
Definition exec (R : RegExp) (s : jsstring) (lastIndex : nat)
  : option (list value) * nat :=
  let start := if global R then lastIndex else 0 in
  match scan R s (S (length s) - start) start with
  | Some (i, y) =>
      (Some (match_array s i y), if global R then endIndex y else lastIndex)
  | None => (None, if global R then 0 else lastIndex)
  end.

(** [R.test(s)] is [R.exec(s) !== null]. *)
Definition test (R : RegExp) (s : jsstring) (lastIndex : nat) : bool * nat :=
  match exec R s lastIndex with
  | (Some _, li) => (true, li)
  | (None, li) => (false, li)
  end.

End Regex.

Import Regex.

(** ** String and array builtins used by the program *)

(** [RegExp.prototype[Symbol.split]] (ES2015), without a limit: the pattern
    is tried at [q] only (sticky); an empty match at the end of the previous
    piece moves on; otherwise the piece [p..q] and the captures are pushed.
    With [mu = 2 * (size - q) + (if p < q then 1 else 0)] each turn of the
    loop lowers [mu], so the fuel [2 * size + 1] is never used up (lemma
    [split_fuel]). *)
Fixpoint split_loop (fuel : nat) (R : RegExp) (s : jsstring) (p q : nat)
    (A : list value) : list value :=
  match fuel with
  | 0 => A
  | S fuel' =>
    if q <? length s then
      match match_at R s q with
      | None => split_loop fuel' R s p (S q) A
      | Some y =>
        let e := Nat.min (endIndex y) (length s) in
        if e =? p then split_loop fuel' R s p (S q) A
        else split_loop fuel' R s e e
               (A ++ VStr (substring s p q) :: map (capture_value s) (tl (captures y)))
      end
    else A ++ [VStr (substring s p (length s))]
  end.

Definition split (R : RegExp) (s : jsstring) : list value :=
  match s with
  | [] => match match_at R s 0 with
          | Some _ => []
          | None => [VStr s]
          end
  | _ => split_loop (2 * length s + 1) R s 0 0 []
  end.

(** [Array.prototype.join]: [undefined] elements print as the empty string. *)
Definition join_elem (v : value) : jsstring :=
  match v with
  | VUndef => []
  | _ => ToString v
  end.

Fixpoint join (sep : jsstring) (a : list value) : jsstring :=
  match a with
  | [] => []
  | [v] => join_elem v
  | v :: a' => join_elem v ++ sep ++ join sep a'
  end.

(** [String.prototype.toLowerCase] on the ASCII letters; the case mapping
    of code units from 128 on is not modelled (they are left as they are). *)
Definition lower_unit (c : code_unit) : code_unit :=
  if (N.leb 65 c && N.leb c 90)%bool then (c + 32)%N else c.

Definition toLowerCase (s : jsstring) : jsstring := map lower_unit s.

Fixpoint mapi_from {A B} (i : nat) (f : A -> nat -> B) (l : list A) : list B :=
  match l with
  | [] => []
  | a :: l' => f a i :: mapi_from (S i) f l'
  end.

(** [a.map((x, i) => f(x, i))]. *)
Definition mapi {A B} (f : A -> nat -> B) (l : list A) : list B := mapi_from 0 f l.

(** A JavaScript object used as a record of columns: properties in
    insertion order; an assignment to an existing property replaces its
    value in place. *)
Definition object := list (jsstring * value).

Fixpoint obj_set (k : jsstring) (v : value) (o : object) : object :=
  match o with
  | [] => [(k, v)]
  | (k', v') :: o' =>
      if jsstring_eqb k' k then (k, v) :: o' else (k', v') :: obj_set k v o'
  end.

Fixpoint obj_get (k : jsstring) (o : object) : option value :=
  match o with
  | [] => None
  | (k', v') :: o' => if jsstring_eqb k' k then Some v' else obj_get k o'
  end.

(** [k in o]: the property exists, whatever its value. *)
Definition obj_has (k : jsstring) (o : object) : bool :=
  match obj_get k o with
  | Some _ => true
  | None => false
  end.

(** ** The program *)

(** [str.split(/(?=[A-Z])/).join('_').toLowerCase()] *)
Definition re_upper_ahead : RegExp :=
  mkRegExp (Look (Char (CRange (chr "A") (chr "Z")))) 0 false false.

Definition camelToSnakeCase (s : jsstring) : jsstring :=
  toLowerCase (join (str "_") (split re_upper_ahead s)).

(** The patterns of [parseEnumDeclaration]. *)

(** [/ enum ([^\s]+).*?((?:\n.*?)*?);/m] *)
Definition re_whole_enum : RegExp :=
  mkRegExp
    (seq_of [lit " enum ";
             Group 1 (Plus (Char (CNot CSpace)));
             StarLazy (Char CDot);
             Group 2 (StarLazy (Seq (Char (CChar 10%N)) (StarLazy (Char CDot))));
             ch ";"])
    2 false true.

(** The key pattern: one of [A-Z_], then any number of [A-Z0-9_], captured
    as group [n]. *)
Definition key_start : cset := CUnion (CRange (chr "A") (chr "Z")) (CChar (chr "_")).
Definition key_part : cset :=
  CUnion (CRange (chr "A") (chr "Z"))
         (CUnion (CRange (chr "0") (chr "9")) (CChar (chr "_"))).
Definition digit : cset := CRange (chr "0") (chr "9").

Definition re_key (n : nat) : regex :=
  Group n (Seq (Char key_start) (Star (Char key_part))).

(** [(?:(true|false|[0-9]+(?:\.[0-9])?)|(?:'(.*?)'|"(.*?)"))]; its three
    groups are [n], [n+1] and [n+2]. *)
Definition re_literal (n : nat) : regex :=
  Alt (Group n
         (Alt (lit "true")
              (Alt (lit "false")
                   (Seq (Plus (Char digit)) (Opt (Seq (ch ".") (Char digit)))))))
      (Alt (seq_of [ch "'"; Group (n + 1) (StarLazy (Char CDot)); ch "'"])
           (seq_of [Char (CChar 34%N); Group (n + 2) (StarLazy (Char CDot));
                    Char (CChar 34%N)])).

(** [\s*,\s*] *)
Definition re_comma : regex :=
  seq_of [Star (Char CSpace); ch ","; Star (Char CSpace)].

Definition re_code (n : nat) : regex := re_literal n.

(** [(?:\s*,\s*<literal>)] *)
Definition re_label (n : nat) : regex := Seq re_comma (re_literal n).

(** [new RegExp(`${re_key}\\s*\\(.*\\)`, 'g')] *)
Definition re_test_enum_with_paren : RegExp :=
  mkRegExp
    (seq_of [re_key 1; Star (Char CSpace); ch "("; Star (Char CDot); ch ")"])
    1 true false.

(** [new RegExp(`${re_key}\\s*\\(\\s*${re_code}${re_label}?${re_label}?${re_label}*\\s*\\)`, 'g')] *)
Definition re_enum_with_paren : RegExp :=
  mkRegExp
    (seq_of [re_key 1; Star (Char CSpace); ch "("; Star (Char CSpace);
             re_code 2; Opt (re_label 5); Opt (re_label 8); Star (re_label 11);
             Star (Char CSpace); ch ")"])
    13 true false.

(** [new RegExp(re_key, 'g')] *)
Definition re_enum_without_paren : RegExp := mkRegExp (re_key 1) 1 true false.

Definition ValueTuple := list value.

Record EnumDeclaration := mkEnum { name : value; values : list ValueTuple }.

(** [while ((m = re_enum.exec(enum_value_section))) { ... }], with the
    cursor of [re_enum], [autoindex_code] and [matched] as loop state.
    Every match of the two patterns is at least one character long, so the
    cursor grows at each turn and [S (length section)] turns are enough
    (lemma [exec_loop_fuel]). *)
Fixpoint exec_loop (fuel : nat) (re_enum : RegExp) (section : jsstring)
    (is_autoindex_code : bool) (lastIndex : nat) (autoindex_code : N)
    (matched : list ValueTuple) : list ValueTuple :=
  match fuel with
  | 0 => matched
  | S fuel' =>
    match exec re_enum section lastIndex with
    | (None, _) => matched
    | (Some m, lastIndex') =>
      if is_autoindex_code then
        exec_loop fuel' re_enum section is_autoindex_code lastIndex'
          (autoindex_code + 1) (matched ++ [[arr_get m 1; VNum autoindex_code]])
      else
        exec_loop fuel' re_enum section is_autoindex_code lastIndex'
          autoindex_code (matched ++ [filter truthy (tl m)])
    end
  end.

(** The second half of [parseEnumDeclaration]: the choice of [re_enum]
    (and of [is_autoindex_code]) by one [test] on the whole value section,
    then the loop. *)
Definition choose_re_enum (enum_value_section : jsstring) : RegExp * bool :=
  if fst (test re_test_enum_with_paren enum_value_section 0)
  then (re_enum_with_paren, false)
  else (re_enum_without_paren, true).

Definition parse_value_section (enum_value_section : jsstring) : list ValueTuple :=
  let '(re_enum, is_autoindex_code) := choose_re_enum enum_value_section in
  exec_loop (S (length enum_value_section)) re_enum enum_value_section
    is_autoindex_code 0 0 [].

(** [whole_matched[1]] and [whole_matched[2]] are strings: both groups take
    part in every match (lemma [exec_whole_enum_strings]). *)
Definition parseEnumDeclaration (source_code : jsstring) : option EnumDeclaration :=
  match fst (exec re_whole_enum source_code 0) with
  | None => None
  | Some whole_matched =>
    let enum_name := arr_get whole_matched 1 in
    let enum_value_section := ToString (arr_get whole_matched 2) in
    Some (mkEnum enum_name (parse_value_section enum_value_section))
  end.

(** Column types: the strings ['boolean'], ['integer'], ['string']. *)
Inductive ColumnType := TBoolean | TInteger | TString.

Definition type_name (t : ColumnType) : jsstring :=
  match t with
  | TBoolean => str "boolean"
  | TInteger => str "integer"
  | TString => str "string"
  end.

(** [/^[0-9]+$/] *)
Definition re_digits : RegExp :=
  mkRegExp (seq_of [Bol; Plus (Char digit); Eol]) 0 false false.

(** [parseInt(str, 10)] on a string of decimal digits. *)
Definition parseInt10 (s : jsstring) : N :=
  fold_left (fun acc c => (acc * 10 + (c - 48))%N) s 0%N.

Definition parseIntIfParsable (v : value) : value :=
  if fst (test re_digits (ToString v) 0) then VNum (parseInt10 (ToString v)) else v.

Definition isBoolean (x : value) : bool :=
  match x with
  | VStr s => jsstring_eqb s (str "true") || jsstring_eqb s (str "false")
  | _ => false
  end.

Definition isNumber (x : value) : bool :=
  match x with
  | VNum _ => true
  | _ => false
  end.

(** [Math.max(...a.map(x => x.length))]; the loop of [transpose] runs for
    no column when [a] is empty ([Math.max()] is [-Infinity]). *)
Definition max_length (a : list ValueTuple) : nat :=
  fold_right Nat.max 0 (map (@length value) a).

(** [for (c = 0; c < cols; c++) ret[c] = a.map(r => r[c])] *)
Definition transpose (a : list ValueTuple) : list (list value) :=
  map (fun c => map (fun r => arr_get r c) a) (seq 0 (max_length a)).

Definition guess_column (x : list value) : ColumnType :=
  if forallb isBoolean x then TBoolean
  else if forallb (fun y => isNumber (parseIntIfParsable y)) x then TInteger
  else TString.

(** Every element of the transposed array is an array, hence truthy:
    [.filter(x => x)] keeps them all. *)
Definition guessSchema (rows : list ValueTuple) : list ColumnType :=
  map guess_column (filter (fun _ => true) (transpose rows)).

Record Field := mkField { field_name : value; field_type : ColumnType }.

Definition enumToBigQuerySchemaFields (enum_values : list ValueTuple)
    (columns : list jsstring) : list Field :=
  let field_types := firstn (length columns) (guessSchema enum_values) in
  mapi (fun type i => mkField (arr_get (map VStr columns) i) type) field_types.

(** [columns.map((_, i) => { if (values[i]) row[columns[i]] = values[i]; })] *)
Definition project_row (columns : list jsstring) (values : ValueTuple) : object :=
  fold_left
    (fun row ci =>
       if truthy (arr_get values (fst ci))
       then obj_set (snd ci) (arr_get values (fst ci)) row
       else row)
    (combine (seq 0 (length columns)) columns) [].

Definition enumToBigQueryRows (enum_values : list ValueTuple)
    (columns : list jsstring) : list object :=
  map (project_row columns) enum_values.

(** The arguments handed to [insertRowsToBigQuery] for one enum. *)
Record Load := mkLoad { table_id : jsstring; schema : list Field; rows : list object }.

Definition columns : list jsstring := [str "key"; str "code"; str "label"].

(** [x => x && x.values && 0 < x.values.length] *)
Definition has_values (x : option EnumDeclaration) : bool :=
  match x with
  | Some d => 0 <? length (values d)
  | None => false
  end.

Definition load_of (parsed_enum : EnumDeclaration) : Load :=
  mkLoad (camelToSnakeCase (ToString (name parsed_enum)))
         (enumToBigQuerySchemaFields (values parsed_enum) columns)
         (enumToBigQueryRows (values parsed_enum) columns).

(** The chain [contents.map(parseEnumDeclaration).filter(...).map(...)] of
    [exports.github]: the list of loads it starts. *)
Definition github_loads (contents : list jsstring) : list Load :=
  flat_map (fun x => match x with Some d => [load_of d] | None => [] end)
           (filter has_values (map parseEnumDeclaration contents)).

(** The same step in the older handler (src/index.js), which builds the
    schema and the rows inline: every column of the schema is assigned,
    whether the tuple has a value there or not. *)
Module Legacy.

Definition project_row (field_types : list ColumnType) (values : ValueTuple) : object :=
  fold_left
    (fun row ci => obj_set (snd ci) (arr_get values (fst ci)) row)
    (combine (seq 0 (length field_types)) columns) [].

Definition load_of (x : EnumDeclaration) : Load :=
  let field_types := firstn 3 (guessSchema (values x)) in
  mkLoad (camelToSnakeCase (ToString (name x)))
         (mapi (fun type i => mkField (arr_get (map VStr columns) i) type) field_types)
         (map (project_row field_types) (values x)).

End Legacy.

(** ** Declarative semantics of patterns

    [Matches input multiline r x y]: the pattern [r] can take the matcher
    from state [x] to state [y] on [input] (some path of the backtracking
    search does).  The matcher is sound and, for patterns without
    lookahead, complete for it (lemmas [compile_sound], [compile_complete]). *)

Section Relation.

Variable input : jsstring.
Variable multiline : bool.

(** [Rep R ps min max x y]: some number of iterations of [R], each from a
    state with the captures [ps] cleared, leads from [x] to [y]; at least
    [min] and at most [max] of them, none of them empty once [min] is 0. *)
Inductive Rep (R : state -> state -> Prop) (ps : list nat)
  : nat -> option nat -> state -> state -> Prop :=
| Rep_max0 : forall min x, Rep R ps min (Some 0) x x
| Rep_stop : forall max x, Rep R ps 0 max x x
| Rep_step : forall min max x y z,
    max <> Some 0 ->
    R (clear_captures ps x) y ->
    (min = 0 -> endIndex y <> endIndex x) ->
    Rep R ps (pred min) (option_map pred max) y z ->
    Rep R ps min max x z.

Fixpoint Matches (r : regex) (x y : state) : Prop :=
  match r with
  | Empty => y = x
  | Char cs =>
      exists a, nth_error input (endIndex x) = Some a /\ cset_mem cs a = true /\
                y = advance x
  | Seq r1 r2 => exists z, Matches r1 x z /\ Matches r2 z y
  | Alt r1 r2 => Matches r1 x y \/ Matches r2 x y
  | Repeat r1 min max _ => Rep (Matches r1) (groups r1) min max x y
  | Group n r1 =>
      exists z, Matches r1 x z /\ y = set_capture n (endIndex x, endIndex z) z
  | Bol => at_bol input multiline (endIndex x) = true /\ y = x
  | Eol => at_eol input multiline (endIndex x) = true /\ y = x
  | Look r1 => exists z, Matches r1 x z /\ y = mkState (endIndex x) (captures z)
  end.

(** The matcher only moves forward and never past the end of the input. *)
Definition in_range (x y : state) : Prop :=
  endIndex x <= endIndex y /\ endIndex y <= Nat.max (endIndex x) (length input).

(** Patterns without lookahead. *)
Fixpoint no_look (r : regex) : bool :=
  match r with
  | Empty | Char _ | Bol | Eol => true
  | Seq r1 r2 | Alt r1 r2 => no_look r1 && no_look r2
  | Repeat r1 _ _ _ | Group _ r1 => no_look r1
  | Look _ => false
  end.

(** [x] and [y] have the same captures outside the groups [ps]. *)
Definition same_outside (ps : list nat) (x y : state) : Prop :=
  length (captures y) = length (captures x) /\
  forall k, ~ In k ps -> nth_error (captures y) k = nth_error (captures x) k.

End Relation.

(** ** Predicates and functions of the statements *)

(** [at_index pat s i]: the text [pat] stands in [s] at index [i]. *)
Definition at_index (pat s : jsstring) (i : nat) : Prop :=
  exists post, skipn i s = pat ++ post.

(** Every character of [run] is in the set [cs]. *)
Definition all_in (cs : cset) (run : jsstring) : Prop :=
  Forall (fun a => cset_mem cs a = true) run.

(** [contains pat s]: the text [pat] occurs in [s]. *)
Definition contains (pat s : jsstring) : Prop :=
  exists pre post, s = pre ++ pat ++ post.

(** Executable tests on texts: [starts_with] and [includes] are
    [String.prototype.startsWith] and [includes]; [semicolon_after pat s]
    says that some occurrence of [pat] in [s] has a [;] after it. *)
Fixpoint starts_with (pat s : jsstring) : bool :=
  match pat, s with
  | [], _ => true
  | a :: pat', b :: s' => N.eqb a b && starts_with pat' s'
  | _ :: _, [] => false
  end.

Fixpoint includes (pat s : jsstring) : bool :=
  starts_with pat s ||
  match s with
  | [] => false
  | _ :: s' => includes pat s'
  end.

Fixpoint semicolon_after (pat s : jsstring) : bool :=
  (starts_with pat s && existsb (N.eqb (chr ";")) (skipn (length pat) s)) ||
  match s with
  | [] => false
  | _ :: s' => semicolon_after pat s'
  end.

(** The words of the specification for a column. *)
Definition is_bool_literal (v : value) : Prop :=
  v = VStr (str "true") \/ v = VStr (str "false").

Definition is_digit_unit (c : code_unit) : Prop := (48 <= c <= 57)%N.

(** All digits, at least one: no sign, no decimal point. *)
Definition all_digits (s : jsstring) : Prop := s <> [] /\ Forall is_digit_unit s.

(** The column [c] as [guessSchema] sees it: [row[c]] for every row. *)
Definition column_entries (rows : list ValueTuple) (c : nat) : list value :=
  map (fun r => arr_get r c) rows.

(** An identifier of upper-case letters, digits and underscores that does
    not start with a digit. *)
Definition is_key (id : jsstring) : Prop :=
  exists a rest, id = a :: rest /\ cset_mem key_start a = true /\ all_in key_part rest.

(** The successive results of [exec] on a pattern with the [g] flag. *)
Fixpoint exec_all (fuel : nat) (R : RegExp) (s : jsstring) (lastIndex : nat)
  : list (list value) :=
  match fuel with
  | 0 => []
  | S fuel' =>
    match exec R s lastIndex with
    | (None, _) => []
    | (Some m, lastIndex') => m :: exec_all fuel' R s lastIndex'
    end
  end.

(** The tuples pushed with [is_autoindex_code] for the matches [ms], from
    the ordinal [n] on. *)
Fixpoint number_from (n : N) (ms : list (list value)) : list ValueTuple :=
  match ms with
  | [] => []
  | m :: ms' => [arr_get m 1; VNum n] :: number_from (n + 1) ms'
  end.

(** When every match is at least one character long, the cursor grows at
    each turn of the loop and the fuel is not used up. *)
Definition nonempty_matches (R : RegExp) (s : jsstring) : Prop :=
  forall i y, match_at R s i = Some y -> i < endIndex y.

(** Identifiers standing in a text one after the other. *)
Inductive in_order : list jsstring -> jsstring -> Prop :=
| in_order_nil : forall t, in_order [] t
| in_order_cons : forall gap id ids t,
    in_order ids t -> in_order (id :: ids) (gap ++ id ++ t).

(** The value is a string. *)
Definition is_string_value (v : value) : Prop := exists t, v = VStr t.

(** What follows the key and the opening parenthesis in
    [re_enum_with_paren]. *)
Definition paren_args : regex :=
  seq_of [Star (Char CSpace); re_code 2; Opt (re_label 5); Opt (re_label 8);
          Star (re_label 11); Star (Char CSpace); ch ")"].

(** The shape of every tuple of the paren mode, and of the bare mode. *)
Definition paren_entry (section : jsstring) (t : ValueTuple) : Prop :=
  exists id ws lits pre post,
    t = VStr id :: lits /\ Forall is_string_value lits /\
    is_key id /\ all_in CSpace ws /\
    section = pre ++ id ++ ws ++ chr "(" :: post.

Definition bare_entry (t : ValueTuple) : Prop :=
  exists id n, t = [VStr id; VNum n] /\ is_key id.

(** The value section holds a key, white space, and a parenthesized group
    that stays on one line. *)
Definition has_paren_entry (section : jsstring) : Prop :=
  exists pre id ws mid post,
    section = pre ++ id ++ ws ++ chr "(" :: mid ++ chr ")" :: post /\
    is_key id /\ all_in CSpace ws /\ all_in CDot mid.

(** The value section that the declaration pattern hands over. *)
Definition value_section_of (source_code : jsstring) : option jsstring :=
  match fst (exec re_whole_enum source_code 0) with
  | Some whole_matched => Some (ToString (arr_get whole_matched 2))
  | None => None
  end.

(** The longest prefix of [s] made of characters of [cs]. *)
Fixpoint take_while (cs : cset) (s : jsstring) : jsstring :=
  match s with
  | a :: t => if cset_mem cs a then a :: take_while cs t else []
  | [] => []
  end.

(** The identifiers of a text, left to right: at a character that can
    start a key, the key is that character and the longest run of key
    characters after it; [skip] counts the characters of the current key
    still to pass over. *)
Fixpoint key_tokens_from (s : jsstring) (skip : nat) : list jsstring :=
  match s with
  | [] => []
  | a :: t =>
    match skip with
    | S k => key_tokens_from t k
    | 0 =>
      if cset_mem key_start a
      then (a :: take_while key_part t)
             :: key_tokens_from t (length (take_while key_part t))
      else key_tokens_from t 0
    end
  end.

Definition key_tokens (s : jsstring) : list jsstring := key_tokens_from s 0.

(** ** Example inputs *)

Definition NL : jsstring := [10%N].

Definition TAB : jsstring := [9%N].

Definition DQ : jsstring := [34%N].

(** The declaration of the specification, written on one line and written
    with one entry per line. *)
Definition status_one_line : jsstring :=
  str "enum Status { OK(0, " ++ DQ ++ str "Green" ++ DQ ++ str "), NG(1, "
    ++ DQ ++ str "Red" ++ DQ ++ str "); }".

Definition status_lines : jsstring :=
  str "public enum Status {" ++ NL
    ++ str "    OK(0, " ++ DQ ++ str "Green" ++ DQ ++ str ")," ++ NL
    ++ str "    NG(1, " ++ DQ ++ str "Red" ++ DQ ++ str ");" ++ NL
    ++ str "}".

Definition status_load : Load :=
  mkLoad (str "status")
    [mkField (VStr (str "key")) TString;
     mkField (VStr (str "code")) TInteger;
     mkField (VStr (str "label")) TString]
    [[(str "key", VStr (str "OK")); (str "code", VStr (str "0"));
      (str "label", VStr (str "Green"))];
     [(str "key", VStr (str "NG")); (str "code", VStr (str "1"));
      (str "label", VStr (str "Red"))]].

Definition color_source : jsstring :=
  str "public enum Color {" ++ NL ++ str "  RED," ++ NL ++ NL
    ++ str "     GREEN ,BLUE;" ++ NL ++ str "}".

Definition color_section : jsstring :=
  NL ++ str "  RED," ++ NL ++ NL ++ str "     GREEN ,BLUE".


Definition empty_source : jsstring :=
  str "public enum Empty {" ++ NL ++ str "  ;" ++ NL ++ str "}".

Definition four_literals : jsstring := NL ++ str "  KEY(0, 'a', 'b', 'c')".

Definition five_literals : jsstring := NL ++ str "  KEY(0, 'a', 'b', 'c', 'd')".

Definition ragged : list ValueTuple :=
  [[VStr (str "1")]; [VStr (str "1"); VStr (str "2")]].

(** The entries of column [c] taken only from the rows that have one. *)
Definition contributing (rows : list ValueTuple) (c : nat) : list value :=
  flat_map (fun r => match nth_error r c with
                     | Some v => [v]
                     | None => []
                     end) rows.

(** The declaration of the specification from the blank before [enum] to
    the [;] that ends its entries: with one entry per line, and on one
    line. *)
Definition status_decl_lines : jsstring :=
  str " enum Status {" ++ NL
    ++ str "    OK(0, " ++ DQ ++ str "Green" ++ DQ ++ str ")," ++ NL
    ++ str "    NG(1, " ++ DQ ++ str "Red" ++ DQ ++ str ");".

Definition status_decl_one_line : jsstring :=
  str " enum Status { OK(0, " ++ DQ ++ str "Green" ++ DQ ++ str "), NG(1, "
    ++ DQ ++ str "Red" ++ DQ ++ str ");".

(** The entries of [status_decl_lines], as the lines after the header. *)
Definition status_section : jsstring :=
  NL ++ str "    OK(0, " ++ DQ ++ str "Green" ++ DQ ++ str "),"
    ++ NL ++ str "    NG(1, " ++ DQ ++ str "Red" ++ DQ ++ str ")".

(** Rows in which only the second one has a second position, holding a
    boolean literal. *)
Definition ragged_true : list ValueTuple :=
  [[VStr (str "a")]; [VStr (str "b"); VStr (str "true")]].



(** ** Further parts of the program *)

(** A GitHub tree object, as far as the handler reads it. *)
Record GitTreeObject := mkTreeObject { type : jsstring; path : jsstring }.

(** [new RegExp('enums/.*.java')], which [path.match] builds from its
    string argument: the dots are not escaped. *)
Definition re_enum_source : RegExp :=
  mkRegExp
    (seq_of [lit "enums/"; Star (Char CDot); Char CDot; lit "java"])
    0 false false.

(** [git_tree_obj.type === 'blob' && git_tree_obj.path.match('enums/.*.java')],
    as the test that [filter] makes of it (a match array is truthy, [null]
    is not). *)
Definition isEnumSourceFile (git_tree_obj : GitTreeObject) : bool :=
  jsstring_eqb (type git_tree_obj) (str "blob") &&
  match fst (exec re_enum_source (path git_tree_obj) 0) with
  | Some _ => true
  | None => false
  end.

(** ** Predicates and functions of the further properties *)

(** The paths that the pattern of [isEnumSourceFile] accepts. *)
Definition enum_source_path (p : jsstring) : Prop :=
  exists pre mid c post,
    p = pre ++ str "enums/" ++ mid ++ c :: str "java" ++ post /\
    all_in CDot mid /\ cset_mem CDot c = true.

(** The part of a row that one position of a tuple gives: the property
    [k] when the position holds a truthy value, nothing otherwise. *)
Definition cell (k : jsstring) (o : option value) : object :=
  match o with
  | Some v => if truthy v then [(k, v)] else []
  | None => []
  end.

(** A tuple that starts with a key. *)
Definition keyed (t : ValueTuple) : Prop :=
  exists id rest, t = VStr id :: rest /\ is_key id.

(** The number of groups that hold a capture. *)
Definition count_set (caps : list (option (nat * nat))) : nat :=
  length (filter (fun c => match c with Some _ => true | None => false end) caps).

(** A non-empty string. *)
Definition nonempty_string (v : value) : Prop := exists t, v = VStr t /\ t <> [].

(** A text made of lines, each opened by a line feed. *)
Inductive section_lines : jsstring -> Prop :=
| section_lines_nil : section_lines []
| section_lines_cons : forall line t,
    all_in CDot line -> section_lines t -> section_lines (10%N :: line ++ t).

(** Every line feed of the text comes right after a carriage return
    ([prev_cr] tells whether the character before the text is one). *)
Fixpoint no_bare_lf (prev_cr : bool) (s : jsstring) : bool :=
  match s with
  | [] => true
  | c :: t =>
    if N.eqb c 10 then prev_cr && no_bare_lf false t
    else no_bare_lf (N.eqb c 13) t
  end.

(** The state [x] moved [n] characters on. *)
Definition at_pos (x : state) (n : nat) : state :=
  mkState (endIndex x + n) (captures x).

(** One line of the value section in the declaration pattern: a line feed
    and the characters up to the next line terminator. *)
Definition line_body : regex := Seq (Char (CChar 10%N)) (StarLazy (Char CDot)).

(** The upper-case letters [A-Z]. *)
Definition is_upper (c : code_unit) : bool := (N.leb 65 c && N.leb c 90)%bool.

(** Snake case written in one pass: lower-case every letter, and put a
    [_] before each upper-case letter that is not the first character. *)
Fixpoint snake_tail (s : jsstring) : jsstring :=
  match s with
  | [] => []
  | c :: t =>
    (if is_upper c then [chr "_"; lower_unit c] else [c]) ++ snake_tail t
  end.

Definition snake_case (s : jsstring) : jsstring :=
  match s with
  | [] => []
  | c :: t => lower_unit c :: snake_tail t
  end.

(** The pieces of [cur ++ s] cut before each upper-case letter of [s]. *)
Fixpoint chunks (cur s : jsstring) : list jsstring :=
  match s with
  | [] => [cur]
  | c :: t => if is_upper c then cur :: chunks [c] t else chunks (cur ++ [c]) t
  end.

(** A text of ASCII characters. *)
Definition ascii_only (s : jsstring) : Prop := Forall (fun c => (c < 128)%N) s.

(** * Lemmas

    ** Facts about the matcher *)

Section Semantics.

Variable input : jsstring.
Variable multiline : bool.

Lemma orelse_Some a b z :
  orelse a b = Some z -> a = Some z \/ (a = None /\ b tt = Some z).
Proof. destruct a; simpl; intros H; [left | right]; auto. Qed.

Lemma RepeatMatcher_sound (m : matcher) (R : state -> state -> Prop) :
  (forall x c z, m x c = Some z -> exists y, R x y /\ c y = Some z) ->
  forall fuel min max greedy ps x c z,
    RepeatMatcher fuel m min max greedy ps x c = Some z ->
    exists y, Rep R ps min max x y /\ c y = Some z.
Proof.
  intros Hm fuel. induction fuel as [|fuel IH]; intros min max greedy ps x c z H.
  - discriminate.
  - simpl in H.
    assert (Hiter : max <> Some 0 ->
      m (clear_captures ps x)
        (fun y => if (min =? 0) && (endIndex y =? endIndex x) then None
                  else RepeatMatcher fuel m (pred min) (option_map pred max)
                         greedy ps y c) = Some z ->
      exists y, Rep R ps min max x y /\ c y = Some z).
    { intros Hmax Hz.
      apply Hm in Hz. destruct Hz as [y [Hy Hd]].
      destruct ((min =? 0) && (endIndex y =? endIndex x)) eqn:Hc; [discriminate|].
      apply IH in Hd. destruct Hd as [y' [Hrep Hc']].
      exists y'. split; [|exact Hc'].
      eapply Rep_step; eauto.
      intros Hmin Hend. subst min. rewrite Hend, !Nat.eqb_refl in Hc. discriminate. }
    assert (Hstop : min = 0 -> c x = Some z ->
                    exists y, Rep R ps min max x y /\ c y = Some z).
    { intros -> Hc. exists x. split; [apply Rep_stop | exact Hc]. }
    assert (Hrest : max <> Some 0 ->
      (if negb (min =? 0)
       then m (clear_captures ps x)
              (fun y => if (min =? 0) && (endIndex y =? endIndex x) then None
                        else RepeatMatcher fuel m (pred min) (option_map pred max)
                               greedy ps y c)
       else if negb greedy
       then orelse (c x) (fun _ => m (clear_captures ps x)
              (fun y => if (min =? 0) && (endIndex y =? endIndex x) then None
                        else RepeatMatcher fuel m (pred min) (option_map pred max)
                               greedy ps y c))
       else orelse (m (clear_captures ps x)
              (fun y => if (min =? 0) && (endIndex y =? endIndex x) then None
                        else RepeatMatcher fuel m (pred min) (option_map pred max)
                               greedy ps y c)) (fun _ => c x)) = Some z ->
      exists y, Rep R ps min max x y /\ c y = Some z).
    { intros Hmax Hz.
      destruct (min =? 0) eqn:Hmin; simpl in Hz.
      - apply Nat.eqb_eq in Hmin.
        destruct greedy; simpl in Hz; apply orelse_Some in Hz;
          destruct Hz as [Hz | [_ Hz]]; auto.
      - auto. }
    destruct max as [[|k]|].
    + exists x. split; [apply Rep_max0 | exact H].
    + apply Hrest; [discriminate | exact H].
    + apply Hrest; [discriminate | exact H].
Qed.

(** Soundness: a successful run of the matcher goes through a state that
    the pattern relates to the start state. *)
Lemma compile_sound (r : regex) :
  forall x c z, compile input multiline r x c = Some z ->
    exists y, Matches input multiline r x y /\ c y = Some z.
Proof.
  induction r; intros x c z H; cbn [compile Matches] in *.
  - eauto.
  - destruct (nth_error input (endIndex x)) as [a|] eqn:Ha; [|discriminate].
    destruct (cset_mem cs a) eqn:Hcs; [|discriminate].
    exists (advance x). split; [exists a; auto | exact H].
  - apply IHr1 in H. destruct H as [y [H1 H]].
    apply IHr2 in H. destruct H as [y' [H2 H]]. eauto.
  - apply orelse_Some in H. destruct H as [H | [_ H]].
    + apply IHr1 in H. destruct H as [y [H1 H]]. eauto.
    + apply IHr2 in H. destruct H as [y [H1 H]]. eauto.
  - eapply RepeatMatcher_sound; [exact IHr | exact H].
  - apply IHr in H. destruct H as [y [H1 H]]. eauto.
  - destruct (at_bol input multiline (endIndex x)) eqn:E; [|discriminate]. eauto.
  - destruct (at_eol input multiline (endIndex x)) eqn:E; [|discriminate]. eauto.
  - destruct (compile input multiline r x (fun y => Some y)) as [y|] eqn:E;
      [|discriminate].
    apply IHr in E. destruct E as [y' [H1 E]]. inversion E; subst. eauto.
Qed.

Lemma in_range_refl x : in_range input x x.
Proof. unfold in_range. lia. Qed.

Lemma in_range_trans x y z : in_range input x y -> in_range input y z -> in_range input x z.
Proof. unfold in_range. lia. Qed.

Lemma Rep_in_range (R : state -> state -> Prop) ps :
  (forall x y, R x y -> in_range input x y) ->
  forall min max x y, Rep R ps min max x y -> in_range input x y.
Proof.
  intros HR min max x y H. induction H.
  - apply in_range_refl.
  - apply in_range_refl.
  - apply HR in H0. eapply in_range_trans; [|exact IHRep].
    unfold in_range in *. simpl in H0. exact H0.
Qed.

Lemma Matches_in_range (r : regex) : forall x y, Matches input multiline r x y -> in_range input x y.
Proof.
  induction r; intros x y H; cbn [Matches] in H.
  - subst. apply in_range_refl.
  - destruct H as [a [Ha [_ ->]]].
    assert (endIndex x < length input) by (apply nth_error_Some; congruence).
    unfold in_range; simpl; lia.
  - destruct H as [z [H1 H2]]. eapply in_range_trans; eauto.
  - destruct H; auto.
  - eapply Rep_in_range; eauto.
  - destruct H as [z [H1 ->]]. apply IHr in H1. unfold in_range in *; simpl; lia.
  - destruct H as [_ ->]. apply in_range_refl.
  - destruct H as [_ ->]. apply in_range_refl.
  - destruct H as [z [H1 ->]]. unfold in_range; simpl; lia.
Qed.

Lemma orelse_not_None a b : (a <> None \/ b tt <> None) -> orelse a b <> None.
Proof. destruct a; simpl; intros [H|H]; congruence. Qed.

Lemma RepeatMatcher_complete (m : matcher) (R : state -> state -> Prop) :
  (forall x y, R x y -> in_range input x y) ->
  (forall x y c, R x y -> c y <> None -> m x c <> None) ->
  forall ps min max x y, Rep R ps min max x y ->
  forall fuel greedy c,
    repeat_fuel input min x <= fuel -> c y <> None ->
    RepeatMatcher fuel m min max greedy ps x c <> None.
Proof.
  intros HR Hm ps min max x y H.
  induction H as [min x | max x | min max x y z Hmax Hy Hne Hrep IH];
    intros fuel greedy c Hfuel Hc; unfold repeat_fuel in Hfuel;
    (destruct fuel as [|fuel]; [lia|]); cbn [RepeatMatcher].
  - exact Hc.
  - destruct max as [[|k]|]; [exact Hc | |];
      (change (negb (0 =? 0)) with false; cbv iota;
       destruct greedy; cbv [negb]; apply orelse_not_None; auto).
  - set (d := fun y0 : state =>
                if (min =? 0) && (endIndex y0 =? endIndex x) then None
                else RepeatMatcher fuel m (pred min) (option_map pred max)
                       greedy ps y0 c).
    assert (Hd : d y <> None).
    { unfold d. pose proof (HR _ _ Hy) as [Hle Hub]. simpl in Hle, Hub.
      destruct ((min =? 0) && (endIndex y =? endIndex x)) eqn:E.
      - apply andb_true_iff in E. destruct E as [E1 E2].
        apply Nat.eqb_eq in E1, E2. exfalso. exact (Hne E1 E2).
      - apply IH; [|exact Hc]. unfold repeat_fuel.
        destruct min as [|min]; simpl.
        + assert (endIndex y <> endIndex x) by auto. lia.
        + lia. }
    pose proof (Hm _ _ d Hy Hd) as Hiter.
    destruct max as [[|k]|]; [congruence | |];
      (destruct (min =? 0); cbv [negb];
       [destruct greedy; apply orelse_not_None; auto | exact Hiter]).
Qed.

(** Completeness: when the pattern relates [x] to a state that the
    continuation accepts, the search succeeds (possibly through an earlier
    alternative). *)
Lemma compile_complete (r : regex) :
  no_look r = true ->
  forall x y c, Matches input multiline r x y -> c y <> None ->
    compile input multiline r x c <> None.
Proof.
  induction r; intros Hnl x y c H Hc; cbn [compile Matches no_look] in *;
    try (apply andb_true_iff in Hnl; destruct Hnl as [Hnl1 Hnl2]).
  - subst. exact Hc.
  - destruct H as [a [Ha [Hcs ->]]]. rewrite Ha, Hcs. exact Hc.
  - destruct H as [z [H1 H2]]. eapply IHr1; eauto.
  - apply orelse_not_None. destruct H as [H|H].
    + left. eapply IHr1; eauto.
    + destruct (compile input multiline r1 x c) eqn:E; [left; congruence|].
      right. eapply IHr2; eauto.
  - eapply RepeatMatcher_complete with (R := Matches input multiline r) (y := y);
      [apply Matches_in_range | intros; eapply IHr; eauto | exact H
      | apply Nat.le_refl | exact Hc].
  - destruct H as [z [H1 ->]]. eapply IHr; eauto.
  - destruct H as [Hb ->]. rewrite Hb. exact Hc.
  - destruct H as [Hb ->]. rewrite Hb. exact Hc.
  - discriminate.
Qed.

(** The result of a matcher depends on its continuation only at states in
    range; hence the fuel of [RepeatMatcher] is never used up. *)
Lemma RepeatMatcher_ext (m : matcher) :
  (forall x c c', (forall y, in_range input x y -> c y = c' y) -> m x c = m x c') ->
  forall fuel min max greedy ps x c c',
    (forall y, in_range input x y -> c y = c' y) ->
    RepeatMatcher fuel m min max greedy ps x c =
    RepeatMatcher fuel m min max greedy ps x c'.
Proof.
  intros Hm fuel. induction fuel as [|fuel IH]; intros min max greedy ps x c c' Hc.
  - reflexivity.
  - cbn [RepeatMatcher].
    assert (Hx : c x = c' x) by (apply Hc, in_range_refl).
    assert (Hd : m (clear_captures ps x)
        (fun y => if (min =? 0) && (endIndex y =? endIndex x) then None
                  else RepeatMatcher fuel m (pred min) (option_map pred max)
                         greedy ps y c) =
      m (clear_captures ps x)
        (fun y => if (min =? 0) && (endIndex y =? endIndex x) then None
                  else RepeatMatcher fuel m (pred min) (option_map pred max)
                         greedy ps y c')).
    { apply Hm. intros y Hy.
      destruct ((min =? 0) && (endIndex y =? endIndex x)); [reflexivity|].
      apply IH. intros y' Hy'. apply Hc.
      eapply in_range_trans; [|exact Hy']. exact Hy. }
    rewrite Hx, Hd. reflexivity.
Qed.

Lemma compile_ext (r : regex) :
  forall x c c', (forall y, in_range input x y -> c y = c' y) ->
    compile input multiline r x c = compile input multiline r x c'.
Proof.
  induction r; intros x c c' Hc; cbn [compile].
  - apply Hc, in_range_refl.
  - destruct (nth_error input (endIndex x)) as [a|] eqn:Ha; [|reflexivity].
    destruct (cset_mem cs a); [|reflexivity].
    apply Hc.
    assert (endIndex x < length input) by (apply nth_error_Some; congruence).
    unfold in_range; simpl; lia.
  - apply IHr1. intros y Hy. apply IHr2. intros y' Hy'. apply Hc.
    eapply in_range_trans; eauto.
  - rewrite (IHr1 x c c' Hc), (IHr2 x c c' Hc). reflexivity.
  - apply RepeatMatcher_ext; auto.
  - apply IHr. intros y Hy. apply Hc. unfold in_range in *; simpl; lia.
  - rewrite (Hc x (in_range_refl x)). reflexivity.
  - rewrite (Hc x (in_range_refl x)). reflexivity.
  - destruct (compile input multiline r x (fun y => Some y)); [|reflexivity].
    apply Hc. unfold in_range; simpl; lia.
Qed.

Lemma RepeatMatcher_fuel_irrelevant (r : regex) :
  forall fuel fuel' min max greedy ps x c,
    repeat_fuel input min x <= fuel -> repeat_fuel input min x <= fuel' ->
    RepeatMatcher fuel (compile input multiline r) min max greedy ps x c =
    RepeatMatcher fuel' (compile input multiline r) min max greedy ps x c.
Proof.
  induction fuel as [|fuel IH]; intros fuel' min max greedy ps x c Hf Hf';
    unfold repeat_fuel in Hf, Hf'; [lia|].
  destruct fuel' as [|fuel']; [lia|].
  cbn [RepeatMatcher].
  assert (Hd : compile input multiline r (clear_captures ps x)
        (fun y => if (min =? 0) && (endIndex y =? endIndex x) then None
                  else RepeatMatcher fuel (compile input multiline r) (pred min)
                         (option_map pred max) greedy ps y c) =
      compile input multiline r (clear_captures ps x)
        (fun y => if (min =? 0) && (endIndex y =? endIndex x) then None
                  else RepeatMatcher fuel' (compile input multiline r) (pred min)
                         (option_map pred max) greedy ps y c)).
  { apply compile_ext. intros y [Hle Hub]. simpl in Hle, Hub.
    destruct ((min =? 0) && (endIndex y =? endIndex x)) eqn:E; [reflexivity|].
    apply IH; unfold repeat_fuel.
    - destruct min as [|min]; simpl in *.
      + apply Nat.eqb_neq in E. lia.
      + lia.
    - destruct min as [|min]; simpl in *.
      + apply Nat.eqb_neq in E. lia.
      + lia. }
  rewrite Hd. reflexivity.
Qed.

(** Captures: a pattern touches only the slots of its own groups. *)
Lemma length_upd {A} n (v : A) l : length (upd n v l) = length l.
Proof.
  revert n; induction l as [|h t IH]; intros [|n]; simpl; auto.
Qed.

Lemma nth_error_upd_eq {A} n (v : A) l :
  n < length l -> nth_error (upd n v l) n = Some v.
Proof.
  revert n; induction l as [|h t IH]; intros [|n] H; simpl in *;
    try lia; auto. apply IH. lia.
Qed.

Lemma nth_error_upd_ne {A} n k (v : A) l :
  k <> n -> nth_error (upd n v l) k = nth_error l k.
Proof.
  revert n k; induction l as [|h t IH]; intros [|n] [|k] H; simpl;
    try congruence; auto.
Qed.

Lemma same_outside_refl ps x : same_outside ps x x.
Proof. split; auto. Qed.

Lemma same_outside_trans ps x y z :
  same_outside ps x y -> same_outside ps y z -> same_outside ps x z.
Proof.
  intros [L1 H1] [L2 H2]. split; [congruence|].
  intros k Hk. rewrite H2, H1; auto.
Qed.

Lemma same_outside_weaken ps qs x y :
  (forall k, In k ps -> In k qs) -> same_outside ps x y -> same_outside qs x y.
Proof. intros Hsub [L H]. split; auto. Qed.

Lemma same_outside_clear ps x : same_outside ps x (clear_captures ps x).
Proof.
  unfold clear_captures, same_outside; simpl.
  induction ps as [|p ps IH]; simpl; [auto|].
  destruct IH as [L H]. split.
  - rewrite length_upd. exact L.
  - intros k Hk. rewrite nth_error_upd_ne by (intros ->; apply Hk; left; reflexivity).
    apply H. intros Hin. apply Hk. right. exact Hin.
Qed.

Lemma Rep_same_outside (R : state -> state -> Prop) ps :
  (forall x y, R x y -> same_outside ps x y) ->
  forall min max x y, Rep R ps min max x y -> same_outside ps x y.
Proof.
  intros HR min max x y H. induction H.
  - apply same_outside_refl.
  - apply same_outside_refl.
  - eapply same_outside_trans; [apply same_outside_clear|].
    eapply same_outside_trans; [apply HR; eassumption | exact IHRep].
Qed.

Lemma Matches_same_outside (r : regex) :
  forall x y, Matches input multiline r x y -> same_outside (groups r) x y.
Proof.
  induction r; intros x y H; cbn [Matches groups] in *.
  - subst. apply same_outside_refl.
  - destruct H as [a [_ [_ ->]]]. split; auto.
  - destruct H as [z [H1 H2]].
    eapply same_outside_trans; eapply same_outside_weaken;
      try (apply IHr1; eassumption); try (apply IHr2; eassumption);
      intros k Hk; apply in_or_app; auto.
  - destruct H as [H|H]; eapply same_outside_weaken;
      try (apply IHr1; eassumption); try (apply IHr2; eassumption);
      intros k Hk; apply in_or_app; auto.
  - eapply Rep_same_outside; eauto.
  - destruct H as [z [H1 ->]]. apply IHr in H1. destruct H1 as [L H1].
    split; simpl.
    + rewrite length_upd. exact L.
    + intros k Hk.
      rewrite nth_error_upd_ne by (intros ->; apply Hk; left; reflexivity).
      apply H1. intros Hin. apply Hk. right. exact Hin.
  - destruct H as [_ ->]. apply same_outside_refl.
  - destruct H as [_ ->]. apply same_outside_refl.
  - destruct H as [z [H1 ->]]. apply IHr in H1. exact H1.
Qed.

End Semantics.

(** The group numbers written in the patterns follow their left
    parentheses. *)
Lemma patterns_well_numbered :
  groups (pattern re_whole_enum) = seq 1 (nCaps re_whole_enum) /\
  groups (pattern re_test_enum_with_paren) = seq 1 (nCaps re_test_enum_with_paren) /\
  groups (pattern re_enum_with_paren) = seq 1 (nCaps re_enum_with_paren) /\
  groups (pattern re_enum_without_paren) = seq 1 (nCaps re_enum_without_paren) /\
  groups (pattern re_digits) = seq 1 (nCaps re_digits) /\
  groups (pattern re_upper_ahead) = seq 1 (nCaps re_upper_ahead).
Proof. repeat split; reflexivity. Qed.

(** ** Facts about [exec] *)

Lemma scan_Some R s n i j y :
  scan R s n i = Some (j, y) ->
  match_at R s j = Some y /\ i <= j < i + n /\
  forall k, i <= k < j -> match_at R s k = None.
Proof.
  revert i. induction n as [|n IH]; intros i H; simpl in H; [discriminate|].
  destruct (match_at R s i) as [y0|] eqn:E.
  - inversion H; subst. split; [exact E|]. split; [lia|]. intros k Hk. lia.
  - apply IH in H. destruct H as [Hm [Hr Hk]]. split; [exact Hm|]. split; [lia|].
    intros k Hk'. destruct (Nat.eq_dec k i); [subst; auto | apply Hk; lia].
Qed.

Lemma scan_None R s n i :
  scan R s n i = None <-> forall k, i <= k < i + n -> match_at R s k = None.
Proof.
  revert i. induction n as [|n IH]; intros i; simpl.
  - split; auto. intros _ k Hk. lia.
  - destruct (match_at R s i) as [y0|] eqn:E.
    + split; [discriminate|]. intros H. rewrite H in E by lia. discriminate.
    + rewrite IH. split; intros H k Hk.
      * destruct (Nat.eq_dec k i); [subst; auto | apply H; lia].
      * apply H. lia.
Qed.

Lemma exec_Some R s li m li' :
  exec R s li = (Some m, li') ->
  exists i y, match_at R s i = Some y /\ i <= length s /\
              (if global R then li else 0) <= i /\
              (forall k, (if global R then li else 0) <= k < i -> match_at R s k = None) /\
              m = match_array s i y /\
              li' = (if global R then endIndex y else li).
Proof.
  unfold exec. intros H.
  destruct (scan R s (S (length s) - (if global R then li else 0))
              (if global R then li else 0)) as [[i y]|] eqn:E; [|discriminate].
  inversion H; subst. apply scan_Some in E. destruct E as [Hm [Hr Hk]].
  exists i, y. split; [exact Hm|]. split; [lia|]. split; [lia|].
  split; [exact Hk|]. split; reflexivity.
Qed.

Lemma exec_None R s li li' :
  exec R s li = (None, li') ->
  forall k, (if global R then li else 0) <= k <= length s -> match_at R s k = None.
Proof.
  unfold exec. intros H.
  destruct (scan R s (S (length s) - (if global R then li else 0))
              (if global R then li else 0)) as [[i y]|] eqn:E; [discriminate|].
  intros k Hk. rewrite scan_None in E. apply E. lia.
Qed.

Lemma match_at_sound R s i y :
  match_at R s i = Some y ->
  Matches s (multiline_flag R) (pattern R) (mkState i (repeat None (S (nCaps R)))) y.
Proof.
  unfold match_at. intros H. apply compile_sound in H.
  destruct H as [y' [H E]]. inversion E; subst. exact H.
Qed.

Lemma match_at_complete R s i y :
  no_look (pattern R) = true ->
  Matches s (multiline_flag R) (pattern R) (mkState i (repeat None (S (nCaps R)))) y ->
  match_at R s i <> None.
Proof.
  unfold match_at. intros Hnl H. eapply compile_complete; eauto. discriminate.
Qed.

(** A match exists somewhere from the cursor on iff [exec] succeeds. *)
Lemma exec_complete R s li i :
  (if global R then li else 0) <= i <= length s ->
  match_at R s i <> None ->
  fst (exec R s li) <> None.
Proof.
  intros Hi Hm. destruct (exec R s li) as [[m|] li'] eqn:E; simpl; [discriminate|].
  exfalso. apply Hm. eapply exec_None; eauto.
Qed.

(** ** Pieces of a string *)

Lemma skipn_nth_cons (s : jsstring) i a :
  nth_error s i = Some a -> skipn i s = a :: skipn (S i) s.
Proof.
  revert i. induction s as [|b s IH]; intros [|i] H; simpl in *; try discriminate.
  - inversion H. reflexivity.
  - apply IH. exact H.
Qed.

Lemma at_index_nil s i : at_index [] s i.
Proof. exists (skipn i s). reflexivity. Qed.

Lemma at_index_cons a pat s i :
  nth_error s i = Some a -> at_index pat s (S i) -> at_index (a :: pat) s i.
Proof.
  intros Ha [post Hp]. exists post. rewrite (skipn_nth_cons s i Ha), Hp. reflexivity.
Qed.

Lemma at_index_cons_inv a pat s i :
  at_index (a :: pat) s i -> nth_error s i = Some a /\ at_index pat s (S i).
Proof.
  intros [post Hp]. split.
  - replace i with (i + 0) by lia. rewrite <- nth_error_skipn, Hp. reflexivity.
  - exists post. change (S i) with (1 + i). rewrite <- skipn_skipn, Hp. reflexivity.
Qed.

Lemma at_index_app p1 p2 s i :
  at_index p1 s i -> at_index p2 s (i + length p1) -> at_index (p1 ++ p2) s i.
Proof.
  intros [post1 H1] [post2 H2]. exists post2.
  rewrite Nat.add_comm, <- skipn_skipn, H1 in H2.
  rewrite skipn_app, skipn_all, Nat.sub_diag in H2. simpl in H2.
  rewrite H1, H2, app_assoc. reflexivity.
Qed.

Lemma at_index_split pat s i :
  at_index pat s i -> 
  s = firstn i s ++ pat ++ skipn (i + length pat) s.
Proof.
  intros [post Hp].
  rewrite <- (firstn_skipn i s) at 1. f_equal.
  rewrite Nat.add_comm, <- skipn_skipn, Hp.
  rewrite skipn_app, skipn_all, Nat.sub_diag. reflexivity.
Qed.

Lemma at_index_of_split pre pat post : at_index pat (pre ++ pat ++ post) (length pre).
Proof.
  exists post. rewrite skipn_app, skipn_all, Nat.sub_diag. reflexivity.
Qed.

Lemma substring_at_index pat s i :
  at_index pat s i -> substring s i (i + length pat) = pat.
Proof.
  intros [post Hp]. unfold substring.
  replace (i + length pat - i) with (length pat) by lia.
  rewrite Hp, firstn_app, firstn_all, Nat.sub_diag. simpl. apply List.app_nil_r.
Qed.

Lemma at_index_bound pat s i : at_index pat s i -> pat <> [] -> i + length pat <= length s.
Proof.
  intros H Hne. pose proof (at_index_split H) as E.
  destruct (Nat.lt_ge_cases i (length s)) as [Hi|Hi].
  - apply (f_equal (@length _)) in E. rewrite !length_app, length_firstn in E. lia.
  - destruct H as [post Hp]. rewrite skipn_all2 in Hp by exact Hi.
    destruct pat; [congruence | discriminate].
Qed.

Lemma skipn_In (s : jsstring) i j a :
  nth_error s j = Some a -> i <= j -> In a (skipn i s).
Proof.
  intros H Hij. apply nth_error_In with (n := j - i).
  rewrite nth_error_skipn. replace (i + (j - i)) with j by lia. exact H.
Qed.

(** ** Shapes of matches *)

Section Shapes.

Variable s : jsstring.
Variable ml : bool.

Lemma state_eta x : mkState (endIndex x) (captures x) = x.
Proof. destruct x; reflexivity. Qed.

Lemma state_add_0 x : mkState (endIndex x + 0) (captures x) = x.
Proof. rewrite Nat.add_0_r. apply state_eta. Qed.

Lemma Matches_ch_inv a x y :
  Matches s ml (ch a) x y ->
  nth_error s (endIndex x) = Some (chr a) /\ y = advance x.
Proof.
  intros [b [Hb [Hm ->]]]. simpl in Hm. apply N.eqb_eq in Hm. subst b. auto.
Qed.

Lemma Matches_CChar_inv c x y :
  Matches s ml (Char (CChar c)) x y ->
  nth_error s (endIndex x) = Some c /\ y = advance x.
Proof.
  intros [b [Hb [Hm ->]]]. simpl in Hm. apply N.eqb_eq in Hm. subst b. auto.
Qed.

(** A literal text. *)
Lemma Matches_lit_inv (l : list ascii) :
  forall x y, Matches s ml (seq_of (map ch l)) x y ->
    at_index (map chr l) s (endIndex x) /\
    y = mkState (endIndex x + length l) (captures x).
Proof.
  induction l as [|a l IH]; intros x y H.
  - simpl in H. subst. split; [apply at_index_nil | symmetry; apply state_add_0].
  - destruct l as [|b l].
    + simpl in H. apply Matches_ch_inv in H. destruct H as [Ha ->].
      split; [apply at_index_cons; [exact Ha | apply at_index_nil]|].
      unfold advance. f_equal. simpl. lia.
    + change (seq_of (map ch (a :: b :: l)))
        with (Seq (ch a) (seq_of (map ch (b :: l)))) in H.
      destruct H as [z [Ha H]]. apply Matches_ch_inv in Ha. destruct Ha as [Ha ->].
      apply IH in H. destruct H as [Hat ->]. simpl in Hat. split.
      * change (map chr (a :: b :: l)) with (chr a :: map chr (b :: l)).
        apply at_index_cons; assumption.
      * simpl. f_equal. lia.
Qed.

Lemma Matches_lit_intro (l : list ascii) :
  forall x, at_index (map chr l) s (endIndex x) ->
    Matches s ml (seq_of (map ch l)) x (mkState (endIndex x + length l) (captures x)).
Proof.
  induction l as [|a l IH]; intros x H.
  - simpl. apply state_add_0.
  - simpl map in H. apply at_index_cons_inv in H. destruct H as [Ha H].
    assert (Hch : Matches s ml (ch a) x (advance x)).
    { exists (chr a). split; [exact Ha|]. split; [apply N.eqb_refl | reflexivity]. }
    destruct l as [|b l].
    + simpl. replace (endIndex x + 1) with (S (endIndex x)) by lia. exact Hch.
    + change (seq_of (map ch (a :: b :: l)))
        with (Seq (ch a) (seq_of (map ch (b :: l)))).
      exists (advance x). split; [exact Hch|].
      specialize (IH (advance x) H). simpl in IH. simpl.
      replace (endIndex x + S (S (length l))) with (S (endIndex x + S (length l))) by lia.
      exact IH.
Qed.

(** A run of characters of one set under an unbounded quantifier. *)
Lemma Rep_Char_inv cs min x y :
  Rep (Matches s ml (Char cs)) [] min None x y ->
  exists run, at_index run s (endIndex x) /\ all_in cs run /\ min <= length run /\
              y = mkState (endIndex x + length run) (captures x).
Proof.
  intros H. remember (@None nat) as max eqn:Hmax.
  induction H as [min x | max x | min max x y z Hm Hy Hne Hrep IH].
  - discriminate.
  - exists []. split; [apply at_index_nil|]. split; [constructor|].
    split; [apply Nat.le_refl | symmetry; apply state_add_0].
  - subst max. specialize (IH eq_refl).
    destruct Hy as [a [Ha [Hcs ->]]]. simpl in Ha.
    destruct IH as [run [Hat [Hall [Hmin ->]]]]. simpl in Hat.
    exists (a :: run). split; [apply at_index_cons; assumption|].
    split; [constructor; assumption|]. split; [simpl; lia|].
    simpl. f_equal. lia.
Qed.

Lemma Rep_Char_intro cs run :
  forall min x, at_index run s (endIndex x) -> all_in cs run -> min <= length run ->
    Rep (Matches s ml (Char cs)) [] min None x
        (mkState (endIndex x + length run) (captures x)).
Proof.
  induction run as [|a run IH]; intros min x Hat Hall Hmin.
  - simpl in Hmin. assert (min = 0) by lia. subst min.
    simpl. rewrite state_add_0. apply Rep_stop.
  - apply at_index_cons_inv in Hat. destruct Hat as [Ha Hat].
    inversion Hall; subst.
    apply Rep_step with (y := advance x).
    + discriminate.
    + exists a. simpl. auto.
    + simpl. lia.
    + specialize (IH (pred min) (advance x) Hat H2).
      simpl in IH. simpl.
      replace (endIndex x + S (length run)) with (S (endIndex x + length run)) by lia.
      apply IH. simpl in Hmin. lia.
Qed.

End Shapes.

(** ** The declaration pattern [re_whole_enum] *)

(** A match of the declaration pattern at [i] stands on [" enum "], and
    ends with a [;] at least seven characters further. *)
Lemma whole_enum_shape s i y :
  match_at re_whole_enum s i = Some y ->
  at_index (str " enum ") s i /\
  exists j, i + 7 <= j /\ nth_error s j = Some (chr ";").
Proof.
  intros H. apply match_at_sound in H.
  cbn [pattern re_whole_enum multiline_flag nCaps seq_of Matches] in H.
  destruct H as [z1 [Hlit [z2 [HG1 [z3 [HSL [z4 [HG2 Hsemi]]]]]]]].
  apply Matches_lit_inv in Hlit. destruct Hlit as [Hat ->].
  split; [exact Hat|].
  destruct HG1 as [z [Hname ->]]. apply Rep_Char_inv in Hname.
  destruct Hname as [run [_ [_ [Hlen ->]]]].
  apply Matches_in_range in HSL. destruct HSL as [HSL _].
  destruct HG2 as [z' [HG2 ->]]. apply Matches_in_range in HG2.
  destruct HG2 as [HG2 _].
  apply Matches_ch_inv in Hsemi. destruct Hsemi as [Hsemi _].
  exists (endIndex z'). split; [|exact Hsemi].
  simpl in *. lia.
Qed.

(** Both groups of the declaration pattern take part in every match: the
    name and the value section are strings. *)
Lemma whole_enum_groups s i y :
  match_at re_whole_enum s i = Some y ->
  exists a b c d, captures y = [None; Some (a, b); Some (c, d)].
Proof.
  intros H. apply match_at_sound in H.
  cbn [pattern re_whole_enum multiline_flag nCaps seq_of Matches] in H.
  destruct H as [z1 [Hlit [z2 [HG1 [z3 [HSL [z4 [HG2 Hsemi]]]]]]]].
  apply Matches_lit_inv in Hlit. destruct Hlit as [_ ->].
  destruct HG1 as [z [Hname ->]]. apply Rep_Char_inv in Hname.
  destruct Hname as [run [_ [_ [_ ->]]]].
  apply Rep_Char_inv in HSL. destruct HSL as [run' [_ [_ [_ ->]]]].
  destruct HG2 as [z' [HG2 ->]].
  apply Matches_same_outside in HG2. destruct HG2 as [Hlen Hsame].
  apply Matches_ch_inv in Hsemi. destruct Hsemi as [_ ->].
  cbn [groups StarLazy app] in Hsame.
  assert (E : captures z' = upd 1 (Some (i + 6, i + 6 + length run)) (repeat None 3)).
  { apply nth_error_ext. intros k. apply Hsame. intros []. }
  cbn [advance set_capture captures endIndex]. rewrite E.
  simpl. eauto.
Qed.

Lemma exec_whole_enum_strings s m :
  fst (exec re_whole_enum s 0) = Some m ->
  exists whole enum_name section, m = [VStr whole; VStr enum_name; VStr section].
Proof.
  intros H. destruct (exec re_whole_enum s 0) as [[m'|] li] eqn:E; [|discriminate].
  simpl in H. inversion H; subst m'. clear H.
  apply exec_Some in E. destruct E as [i [y [Hm [_ [_ [_ [-> _]]]]]]].
  apply whole_enum_groups in Hm. destruct Hm as [a [b [c [d Hc]]]].
  unfold match_array. rewrite Hc. simpl. eauto.
Qed.

(** The name of a parsed declaration is a string. *)
Lemma parse_name_is_string s d :
  parseEnumDeclaration s = Some d -> exists enum_name, name d = VStr enum_name.
Proof.
  unfold parseEnumDeclaration.
  destruct (fst (exec re_whole_enum s 0)) as [m|] eqn:E; [|discriminate].
  intros H. inversion H; subst d. clear H.
  apply exec_whole_enum_strings in E.
  destruct E as [whole [enum_name [section ->]]].
  exists enum_name. reflexivity.
Qed.

Lemma parse_None_iff s :
  parseEnumDeclaration s = None <-> fst (exec re_whole_enum s 0) = None.
Proof.
  unfold parseEnumDeclaration.
  destruct (fst (exec re_whole_enum s 0)); split; intros H; congruence.
Qed.

(** Whenever the parser returns a declaration, the source holds
    [" enum "], with a [;] somewhere after it. *)
Lemma parse_Some_shape s :
  parseEnumDeclaration s <> None ->
  exists pre post, s = pre ++ str " enum " ++ post /\ In (chr ";") post.
Proof.
  intros H. rewrite parse_None_iff in H.
  destruct (exec re_whole_enum s 0) as [[m|] li] eqn:E; [|simpl in H; congruence].
  apply exec_Some in E. destruct E as [i [y [Hm _]]].
  apply whole_enum_shape in Hm. destruct Hm as [Hat [j [Hj Hsemi]]].
  exists (firstn i s), (skipn (i + length (str " enum ")) s).
  split; [apply at_index_split; exact Hat|].
  eapply skipn_In; [exact Hsemi|]. simpl. lia.
Qed.

Lemma starts_with_spec pat s :
  starts_with pat s = true <-> exists post, s = pat ++ post.
Proof.
  revert s. induction pat as [|a pat IH]; intros s; simpl.
  - split; eauto.
  - destruct s as [|b s].
    + split; [discriminate | intros [post H]; discriminate].
    + rewrite andb_true_iff, N.eqb_eq, IH. split.
      * intros [-> [post ->]]. eauto.
      * intros [post H]. inversion H; subst. eauto.
Qed.

Lemma includes_spec pat s : includes pat s = true <-> contains pat s.
Proof.
  unfold contains. induction s as [|b s IH]; simpl.
  - rewrite orb_false_r, starts_with_spec. split.
    + intros [post H]. exists [], post. exact H.
    + intros [pre [post H]]. destruct pre; [eauto | discriminate].
  - rewrite orb_true_iff, starts_with_spec, IH. split.
    + intros [[post H] | [pre [post H]]].
      * exists [], post. exact H.
      * exists (b :: pre), post. rewrite H. reflexivity.
    + intros [pre [post H]]. destruct pre as [|c pre].
      * left. eauto.
      * right. inversion H; subst. eauto.
Qed.

Lemma existsb_semicolon l : existsb (N.eqb (chr ";")) l = true <-> In (chr ";") l.
Proof.
  rewrite existsb_exists. split.
  - intros [x [Hx E]]. apply N.eqb_eq in E. subst. exact Hx.
  - intros H. exists (chr ";"). split; [exact H | apply N.eqb_refl].
Qed.

Lemma semicolon_after_spec pat s :
  semicolon_after pat s = true <->
  exists pre post, s = pre ++ pat ++ post /\ In (chr ";") post.
Proof.
  induction s as [|b s IH].
  - cbn [semicolon_after]. rewrite orb_false_r, andb_true_iff, starts_with_spec,
      existsb_semicolon. split.
    + intros [[post H] Hin]. exists [], post. split; [exact H|].
      rewrite H, skipn_app, skipn_all, Nat.sub_diag in Hin. exact Hin.
    + intros [pre [post [H Hin]]]. destruct pre; [|discriminate]. simpl in H.
      split; [eauto|]. rewrite H, skipn_app, skipn_all, Nat.sub_diag. exact Hin.
  - cbn [semicolon_after]. rewrite orb_true_iff, andb_true_iff, starts_with_spec,
      existsb_semicolon, IH. split.
    + intros [[[post H] Hin] | [pre [post [H Hin]]]].
      * exists [], post. split; [exact H|].
        rewrite H, skipn_app, skipn_all, Nat.sub_diag in Hin. exact Hin.
      * exists (b :: pre), post. rewrite H. auto.
    + intros [pre [post [H Hin]]]. destruct pre as [|c pre].
      * left. simpl in H. split; [eauto|].
        rewrite H, skipn_app, skipn_all, Nat.sub_diag. exact Hin.
      * right. inversion H; subst. eauto.
Qed.

(** What a successful parse says about the source, in executable form. *)
Lemma parse_Some_tests s :
  parseEnumDeclaration s <> None ->
  includes (str " enum ") s = true /\
  includes (str "enum") s = true /\
  semicolon_after (str "enum") s = true.
Proof.
  intros H. apply parse_Some_shape in H. destruct H as [pre [post [E Hin]]].
  split; [|split].
  - apply includes_spec. exists pre, post. exact E.
  - apply includes_spec. exists (pre ++ [chr " "]), (chr " " :: post).
    rewrite E, <- app_assoc. reflexivity.
  - apply semicolon_after_spec. exists (pre ++ [chr " "]), (chr " " :: post).
    split; [rewrite E, <- app_assoc; reflexivity | right; exact Hin].
Qed.

(** ** The type guesser *)

Lemma test_true_iff R s li : fst (test R s li) = true <-> fst (exec R s li) <> None.
Proof.
  unfold test. destruct (exec R s li) as [[m|] li']; simpl; split;
    congruence || discriminate.
Qed.

Lemma jsstring_eqb_eq a b : jsstring_eqb a b = true <-> a = b.
Proof.
  revert b. induction a as [|x a IH]; intros [|y b]; simpl;
    try (split; [discriminate | congruence]); [tauto|].
  rewrite andb_true_iff, N.eqb_eq, IH. split.
  - intros [-> ->]. reflexivity.
  - intros H. inversion H. auto.
Qed.

Lemma digit_mem c : cset_mem digit c = true <-> is_digit_unit c.
Proof.
  unfold digit, is_digit_unit. cbn [cset_mem].
  rewrite andb_true_iff, !N.leb_le. reflexivity.
Qed.

Lemma all_in_digit s : all_in digit s <-> Forall is_digit_unit s.
Proof.
  unfold all_in. rewrite !Forall_forall. split; intros H x Hx; apply digit_mem; auto.
Qed.

(** [/^[0-9]+$/.test(s)] holds exactly for the non-empty digit strings. *)
Lemma test_digits_spec s : fst (test re_digits s 0) = true <-> all_digits s.
Proof.
  rewrite test_true_iff. unfold all_digits. split.
  - intros H. destruct (exec re_digits s 0) as [[m|] li] eqn:E; [|simpl in H; congruence].
    apply exec_Some in E. destruct E as [i [y [Hm _]]].
    apply match_at_sound in Hm.
    cbn [pattern re_digits multiline_flag nCaps seq_of Matches] in Hm.
    destruct Hm as [z1 [[Hbol ->] [z2 [Hrun [Heol ->]]]]].
    cbn [endIndex] in *.
    assert (i = 0) by (destruct i; [reflexivity | discriminate]). subst i.
    apply Rep_Char_inv in Hrun. destruct Hrun as [run [Hat [Hall [Hlen ->]]]].
    cbn [endIndex] in *. unfold at_eol in Heol. rewrite orb_false_r in Heol.
    apply Nat.eqb_eq in Heol. destruct Hat as [post Hp]. simpl in Hp, Heol.
    assert (post = []).
    { apply (f_equal (@length _)) in Hp. rewrite length_app in Hp.
      destruct post; [reflexivity | simpl in Hp; lia]. }
    subst post. rewrite List.app_nil_r in Hp. subst s.
    split; [destruct run; [simpl in Hlen; lia | discriminate]|].
    apply all_in_digit. exact Hall.
  - intros [Hne Hall].
    apply exec_complete with (i := 0); [simpl; lia|].
    apply match_at_complete with (y := mkState (0 + length s) (repeat None 1));
      [reflexivity|].
    cbn [pattern re_digits multiline_flag nCaps seq_of Matches].
    exists (mkState 0 (repeat None 1)). split; [split; reflexivity|].
    exists (mkState (0 + length s) (repeat None 1)). split.
    + cbn [Plus groups].
      apply (@Rep_Char_intro s false digit s 1 (mkState 0 (repeat None 1))).
      * exists []. simpl. symmetry. apply List.app_nil_r.
      * apply all_in_digit. exact Hall.
      * destruct s; [congruence | simpl; lia].
    + split; [|reflexivity]. unfold at_eol. cbn [endIndex].
      simpl. rewrite Nat.eqb_refl. reflexivity.
Qed.

(** A number prints as a non-empty string of digits. *)
Lemma string_of_uint_digits u :
  Forall is_digit_unit (str (NilEmpty.string_of_uint u)).
Proof.
  induction u; simpl; constructor; auto; unfold is_digit_unit; simpl; lia.
Qed.

Lemma N_to_jsstring_digits n : all_digits (N_to_jsstring n).
Proof.
  unfold N_to_jsstring, NilZero.string_of_uint, all_digits.
  destruct (N.to_uint n) eqn:E.
  - split; [discriminate|]. constructor; [unfold is_digit_unit; simpl; lia | constructor].
  - split; [discriminate | apply (string_of_uint_digits (Decimal.D0 u))].
  - split; [discriminate | apply (string_of_uint_digits (Decimal.D1 u))].
  - split; [discriminate | apply (string_of_uint_digits (Decimal.D2 u))].
  - split; [discriminate | apply (string_of_uint_digits (Decimal.D3 u))].
  - split; [discriminate | apply (string_of_uint_digits (Decimal.D4 u))].
  - split; [discriminate | apply (string_of_uint_digits (Decimal.D5 u))].
  - split; [discriminate | apply (string_of_uint_digits (Decimal.D6 u))].
  - split; [discriminate | apply (string_of_uint_digits (Decimal.D7 u))].
  - split; [discriminate | apply (string_of_uint_digits (Decimal.D8 u))].
  - split; [discriminate | apply (string_of_uint_digits (Decimal.D9 u))].
Qed.

Lemma isBoolean_spec v : isBoolean v = true <-> is_bool_literal v.
Proof.
  unfold is_bool_literal. destruct v as [|s|n]; simpl.
  - split; [discriminate | intros [H|H]; discriminate].
  - rewrite orb_true_iff, !jsstring_eqb_eq. split; intros [H|H];
      (left; congruence) || (right; congruence).
  - split; [discriminate | intros [H|H]; discriminate].
Qed.

(** [isNumber(parseIntIfParsable(y))] is the digits test on [y] as a string. *)
Lemma isNumber_spec v :
  isNumber (parseIntIfParsable v) = true <-> all_digits (ToString v).
Proof.
  unfold parseIntIfParsable.
  destruct (fst (test re_digits (ToString v) 0)) eqn:E.
  - apply test_digits_spec in E. simpl. tauto.
  - destruct v as [|s|n]; simpl.
    + split; [discriminate|]. intros H. apply test_digits_spec in H.
      simpl in H. congruence.
    + split; [discriminate|]. intros H. apply test_digits_spec in H.
      simpl in E. congruence.
    + split; [intros _; apply N_to_jsstring_digits | reflexivity].
Qed.

Lemma filter_all {A} (l : list A) : filter (fun _ => true) l = l.
Proof. induction l; simpl; congruence. Qed.

Lemma guessSchema_length rows : length (guessSchema rows) = max_length rows.
Proof.
  unfold guessSchema, transpose. rewrite filter_all, !length_map, length_seq.
  reflexivity.
Qed.

Lemma guessSchema_nth rows c :
  c < max_length rows ->
  nth_error (guessSchema rows) c = Some (guess_column (column_entries rows c)).
Proof.
  intros H. unfold guessSchema, transpose. rewrite filter_all, map_map.
  rewrite nth_error_map, nth_error_seq.
  destruct (c <? max_length rows) eqn:E; [reflexivity|].
  apply Nat.ltb_ge in E. lia.
Qed.

Lemma forallb_Forall {A} (f : A -> bool) (P : A -> Prop) l :
  (forall a, f a = true <-> P a) -> (forallb f l = true <-> Forall P l).
Proof.
  intros H. rewrite forallb_forall, Forall_forall.
  split; intros H' x Hx; apply H; auto.
Qed.

Lemma guess_column_spec col :
  (guess_column col = TBoolean <-> Forall is_bool_literal col) /\
  (guess_column col = TInteger <->
     ~ Forall is_bool_literal col /\ Forall (fun v => all_digits (ToString v)) col) /\
  (guess_column col = TString <->
     ~ Forall is_bool_literal col /\ ~ Forall (fun v => all_digits (ToString v)) col).
Proof.
  unfold guess_column.
  pose proof (forallb_Forall isBoolean is_bool_literal col isBoolean_spec) as HB.
  pose proof (forallb_Forall (fun y => isNumber (parseIntIfParsable y))
                (fun v => all_digits (ToString v)) col isNumber_spec) as HN.
  destruct (forallb isBoolean col) eqn:EB;
    [|destruct (forallb (fun y => isNumber (parseIntIfParsable y)) col) eqn:EN].
  - assert (Forall is_bool_literal col) by (apply HB; reflexivity).
    repeat split; try tauto; try discriminate.
  - assert (~ Forall is_bool_literal col) by (rewrite <- HB; discriminate).
    assert (Forall (fun v => all_digits (ToString v)) col) by (apply HN; reflexivity).
    repeat split; try tauto; try discriminate.
  - assert (~ Forall is_bool_literal col) by (rewrite <- HB; discriminate).
    assert (~ Forall (fun v => all_digits (ToString v)) col)
      by (rewrite <- HN; discriminate).
    repeat split; try tauto; try discriminate.
Qed.

(** ** The key pattern and the two entry patterns *)

Lemma is_key_nonempty id : is_key id -> 0 < length id.
Proof. intros [a [rest [-> _]]]. simpl. lia. Qed.

Lemma Matches_key_inv s ml n x y :
  Matches s ml (re_key n) x y ->
  exists id, is_key id /\ at_index id s (endIndex x) /\
    y = mkState (endIndex x + length id)
          (upd n (Some (endIndex x, endIndex x + length id)) (captures x)).
Proof.
  unfold re_key. cbn [Matches Star groups].
  intros [z [[z1 [[a [Ha [Hcs ->]]] Hrun]] ->]].
  apply (@Rep_Char_inv s ml key_part) in Hrun.
  destruct Hrun as [run [Hat [Hall [_ ->]]]].
  cbn [advance endIndex captures] in *.
  exists (a :: run). split; [exists a, run; auto|].
  split; [apply at_index_cons; assumption|].
  unfold set_capture. cbn [endIndex captures length].
  replace (endIndex x + S (length run)) with (S (endIndex x) + length run) by lia.
  reflexivity.
Qed.

Lemma Matches_key_intro s ml n x id :
  is_key id -> at_index id s (endIndex x) ->
  Matches s ml (re_key n) x
    (mkState (endIndex x + length id)
       (upd n (Some (endIndex x, endIndex x + length id)) (captures x))).
Proof.
  intros [a [rest [-> [Hcs Hall]]]] Hat.
  apply at_index_cons_inv in Hat. destruct Hat as [Ha Hat].
  unfold re_key. cbn [Matches Star groups].
  exists (mkState (endIndex x + length (a :: rest)) (captures x)). split.
  - exists (advance x). split; [exists a; auto|].
    pose proof (@Rep_Char_intro s ml key_part rest 0 (advance x) Hat Hall
                  (Nat.le_0_l _)) as H.
    cbn [advance endIndex captures length] in *.
    replace (endIndex x + S (length rest)) with (S (endIndex x) + length rest) by lia.
    exact H.
  - reflexivity.
Qed.

Lemma exec_loop_autoindex fuel R s :
  forall li n acc,
    exec_loop fuel R s true li n acc = acc ++ number_from n (exec_all fuel R s li).
Proof.
  induction fuel as [|fuel IH]; intros li n acc; simpl.
  - symmetry. apply List.app_nil_r.
  - destruct (exec R s li) as [[m|] li']; simpl.
    + rewrite IH, <- app_assoc. reflexivity.
    + symmetry. apply List.app_nil_r.
Qed.

Lemma exec_loop_paren fuel R s :
  forall li n acc,
    exec_loop fuel R s false li n acc =
    acc ++ map (fun m => filter truthy (tl m)) (exec_all fuel R s li).
Proof.
  induction fuel as [|fuel IH]; intros li n acc; simpl.
  - symmetry. apply List.app_nil_r.
  - destruct (exec R s li) as [[m|] li']; simpl.
    + rewrite IH, <- app_assoc. reflexivity.
    + symmetry. apply List.app_nil_r.
Qed.

Lemma exec_all_fuel R s :
  global R = true -> nonempty_matches R s ->
  forall fuel fuel' li,
    S (length s) - li <= fuel -> S (length s) - li <= fuel' ->
    exec_all fuel R s li = exec_all fuel' R s li.
Proof.
  intros Hg Hne.
  assert (Hout : forall li, length s < li -> fst (exec R s li) = None).
  { intros li Hli. unfold exec. rewrite Hg.
    replace (S (length s) - li) with 0 by lia. reflexivity. }
  induction fuel as [|fuel IH]; intros fuel' li Hf Hf'.
  - destruct fuel' as [|fuel']; [reflexivity|]. simpl.
    specialize (Hout li ltac:(lia)).
    destruct (exec R s li) as [[m|] li']; [discriminate | reflexivity].
  - destruct fuel' as [|fuel'].
    + simpl. specialize (Hout li ltac:(lia)).
      destruct (exec R s li) as [[m|] li']; [discriminate | reflexivity].
    + simpl. destruct (exec R s li) as [[m|] li'] eqn:E; [|reflexivity].
      f_equal. apply exec_Some in E. rewrite Hg in E.
      destruct E as [i [y [Hm [Hi [Hli [_ [_ ->]]]]]]].
      apply Hne in Hm. apply IH; lia.
Qed.

Lemma exec_loop_fuel R s b fuel :
  global R = true -> nonempty_matches R s -> S (length s) <= fuel ->
  exec_loop fuel R s b 0 0 [] = exec_loop (S (length s)) R s b 0 0 [].
Proof.
  intros Hg Hne Hf. destruct b.
  - rewrite !exec_loop_autoindex. f_equal. f_equal. apply exec_all_fuel; auto; lia.
  - rewrite !exec_loop_paren. f_equal. f_equal. apply exec_all_fuel; auto; lia.
Qed.

(** *** Entries without parentheses *)

Lemma bare_match_shape s i y :
  match_at re_enum_without_paren s i = Some y ->
  exists id, is_key id /\ at_index id s i /\ endIndex y = i + length id /\
             match_array s i y = [VStr id; VStr id].
Proof.
  intros H. apply match_at_sound in H.
  cbn [pattern re_enum_without_paren multiline_flag nCaps] in H.
  apply Matches_key_inv in H. destruct H as [id [Hid [Hat ->]]].
  cbn [endIndex captures] in *.
  exists id. split; [exact Hid|]. split; [exact Hat|]. split; [reflexivity|].
  unfold match_array. cbn [endIndex captures repeat upd tl map capture_value].
  rewrite (substring_at_index Hat). reflexivity.
Qed.

Lemma bare_nonempty s : nonempty_matches re_enum_without_paren s.
Proof.
  intros i y H. apply bare_match_shape in H.
  destruct H as [id [Hid [_ [-> _]]]]. apply is_key_nonempty in Hid. lia.
Qed.

Lemma skipn_gap (s : jsstring) li i :
  li <= i -> skipn li s = firstn (i - li) (skipn li s) ++ skipn i s.
Proof.
  intros H. rewrite <- (firstn_skipn (i - li) (skipn li s)) at 1.
  rewrite skipn_skipn. replace (i - li + li) with i by lia. reflexivity.
Qed.

Lemma at_index_skipn pat s i :
  at_index pat s i -> skipn i s = pat ++ skipn (i + length pat) s.
Proof.
  intros [post Hp]. rewrite Nat.add_comm, <- skipn_skipn, Hp.
  rewrite skipn_app, skipn_all, Nat.sub_diag. reflexivity.
Qed.

Lemma bare_exec_all s fuel :
  forall li, exists ids,
    exec_all fuel re_enum_without_paren s li = map (fun id => [VStr id; VStr id]) ids /\
    Forall is_key ids /\ in_order ids (skipn li s).
Proof.
  induction fuel as [|fuel IH]; intros li.
  - exists []. simpl. repeat split; constructor.
  - simpl. destruct (exec re_enum_without_paren s li) as [[m|] li'] eqn:E.
    + apply exec_Some in E. cbn [global re_enum_without_paren] in E.
      destruct E as [i [y [Hm [Hi [Hli [_ [-> ->]]]]]]].
      apply bare_match_shape in Hm. destruct Hm as [id [Hid [Hat [Hend Harr]]]].
      destruct (IH (endIndex y)) as [ids [Hids [Hkeys Hord]]].
      exists (id :: ids). split; [simpl; rewrite Harr, Hids; reflexivity|].
      split; [constructor; assumption|].
      rewrite (skipn_gap s Hli), (at_index_skipn Hat), <- Hend.
      constructor. exact Hord.
    + exists []. simpl. repeat split; constructor.
Qed.

Lemma number_from_keys ids :
  forall k,
    number_from (N.of_nat k) (map (fun id => [VStr id; VStr id]) ids) =
    mapi_from k (fun id i => [VStr id; VNum (N.of_nat i)]) ids.
Proof.
  induction ids as [|id ids IH]; intros k; simpl; [reflexivity|].
  f_equal. replace (N.of_nat k + 1)%N with (N.of_nat (S k)) by lia. apply IH.
Qed.

(** *** Entries with parentheses *)

Lemma paren_pattern_eq :
  pattern re_enum_with_paren =
  Seq (re_key 1) (Seq (Star (Char CSpace)) (Seq (ch "(") paren_args)).
Proof. reflexivity. Qed.

Lemma filter_truthy_captures s caps :
  Forall is_string_value (filter truthy (map (capture_value s) caps)).
Proof.
  induction caps as [|c caps IH]; simpl; [constructor|].
  destruct c as [[a b]|]; simpl; [|exact IH].
  destruct (substring s a b) eqn:E; simpl; [exact IH|].
  constructor; [eexists; reflexivity | exact IH].
Qed.

(** A match of [re_enum_with_paren] at [i]: a key, white space, an opening
    parenthesis; the tuple pushed for it starts with the key, and the rest
    of it are strings. *)
Lemma paren_match_shape s i y :
  match_at re_enum_with_paren s i = Some y ->
  exists id ws lits,
    is_key id /\ all_in CSpace ws /\
    at_index (id ++ ws ++ [chr "("]) s i /\
    i + length id <= endIndex y /\
    filter truthy (tl (match_array s i y)) = VStr id :: lits /\
    Forall is_string_value lits.
Proof.
  intros H. apply match_at_sound in H. rewrite paren_pattern_eq in H.
  cbn [multiline_flag nCaps re_enum_with_paren] in H.
  cbn [Matches] in H. fold (Matches s false) in H.
  destruct H as [z1 [Hkey [z2 [Hws [z3 [Hopen Hargs]]]]]].
  apply Matches_key_inv in Hkey. destruct Hkey as [id [Hid [Hat ->]]].
  apply (@Rep_Char_inv s false CSpace) in Hws.
  destruct Hws as [ws [Hatws [Hws [_ ->]]]].
  apply Matches_ch_inv in Hopen. destruct Hopen as [Hopen ->].
  cbn [endIndex captures advance] in *.
  pose proof (Matches_in_range _ _ _ _ _ Hargs) as [Hle _].
  cbn [advance endIndex] in Hle.
  pose proof (Matches_same_outside _ _ _ _ _ Hargs) as [Hlen Hsame].
  specialize (Hsame 1). cbn [endIndex captures] in *.
  assert (H1 : nth_error (captures y) 1 = Some (Some (i, i + length id))).
  { rewrite Hsame; [reflexivity|]. vm_compute. intuition discriminate. }
  exists id, ws.
  destruct (captures y) as [|c0 [|c1 caps]] eqn:Ecaps; try discriminate.
  simpl in H1. inversion H1; subst c1.
  exists (filter truthy (map (capture_value s) caps)).
  split; [exact Hid|]. split; [exact Hws|].
  split.
  { apply at_index_app; [exact Hat|]. apply at_index_app; [exact Hatws|].
    apply at_index_cons; [exact Hopen | apply at_index_nil]. }
  split; [lia|].
  split; [|apply filter_truthy_captures].
  unfold match_array. rewrite Ecaps. cbn [tl map capture_value].
  rewrite (substring_at_index Hat).
  destruct Hid as [a [rest [-> _]]]. reflexivity.
Qed.

Lemma paren_nonempty s : nonempty_matches re_enum_with_paren s.
Proof.
  intros i y H. apply paren_match_shape in H.
  destruct H as [id [ws [lits [Hid [_ [_ [Hle _]]]]]]].
  apply is_key_nonempty in Hid. lia.
Qed.

Lemma paren_exec_all s fuel :
  forall li,
    Forall (paren_entry s)
      (map (fun m => filter truthy (tl m)) (exec_all fuel re_enum_with_paren s li)).
Proof.
  induction fuel as [|fuel IH]; intros li; simpl; [constructor|].
  destruct (exec re_enum_with_paren s li) as [[m|] li'] eqn:E; [|constructor].
  simpl. constructor; [|apply IH].
  apply exec_Some in E. destruct E as [i [y [Hm [_ [_ [_ [-> _]]]]]]].
  apply paren_match_shape in Hm.
  destruct Hm as [id [ws [lits [Hid [Hws [Hat [_ [Ht Hl]]]]]]]].
  exists id, ws, lits, (firstn i s),
    (skipn (i + length (id ++ ws ++ [chr "("])) s).
  split; [exact Ht|]. split; [exact Hl|]. split; [exact Hid|]. split; [exact Hws|].
  rewrite (at_index_split Hat) at 1.
  rewrite <- !app_assoc. reflexivity.
Qed.

(** *** The mode test *)

Lemma at_index_iff pat s i :
  at_index pat s i /\ i <= length s <->
  exists pre post, s = pre ++ pat ++ post /\ length pre = i.
Proof.
  split.
  - intros [H Hi]. exists (firstn i s), (skipn (i + length pat) s).
    split; [apply at_index_split; exact H|].
    rewrite length_firstn. lia.
  - intros [pre [post [-> <-]]]. split; [apply at_index_of_split|].
    rewrite length_app. lia.
Qed.

Lemma at_index_app_inv p1 p2 s i :
  at_index (p1 ++ p2) s i -> at_index p1 s i /\ at_index p2 s (i + length p1).
Proof.
  intros [post H]. split.
  - exists (p2 ++ post). rewrite H, app_assoc. reflexivity.
  - exists post. rewrite Nat.add_comm, <- skipn_skipn, H, <- app_assoc.
    rewrite skipn_app, skipn_all, Nat.sub_diag. reflexivity.
Qed.

Lemma test_paren_match s i :
  match_at re_test_enum_with_paren s i <> None <->
  exists id ws mid,
    is_key id /\ all_in CSpace ws /\ all_in CDot mid /\
    at_index (id ++ ws ++ chr "(" :: mid ++ [chr ")"]) s i.
Proof.
  split.
  - intros H. destruct (match_at re_test_enum_with_paren s i) as [y|] eqn:E;
      [clear H | congruence].
    apply match_at_sound in E.
    cbn [pattern re_test_enum_with_paren multiline_flag nCaps seq_of] in E.
    cbn [Matches] in E. fold (Matches s false) in E.
    destruct E as [z1 [Hkey [z2 [Hws [z3 [Hopen [z4 [Hmid Hclose]]]]]]]].
    apply Matches_key_inv in Hkey. destruct Hkey as [id [Hid [Hat ->]]].
    apply (@Rep_Char_inv s false CSpace) in Hws.
    destruct Hws as [ws [Hatws [Hws [_ ->]]]].
    apply Matches_ch_inv in Hopen. destruct Hopen as [Hopen ->].
    apply (@Rep_Char_inv s false CDot) in Hmid.
    destruct Hmid as [mid [Hatmid [Hmid [_ ->]]]].
    apply Matches_ch_inv in Hclose. destruct Hclose as [Hclose ->].
    cbn [endIndex captures advance] in *.
    exists id, ws, mid. split; [exact Hid|]. split; [exact Hws|]. split; [exact Hmid|].
    apply at_index_app; [exact Hat|]. apply at_index_app; [exact Hatws|].
    apply at_index_cons; [exact Hopen|].
    apply at_index_app; [exact Hatmid|].
    apply at_index_cons; [|apply at_index_nil].
    replace (S (i + length id + length ws) + length mid)
      with (S (i + length id + length ws + length mid)) in Hclose by lia.
    exact Hclose.
  - intros [id [ws [mid [Hid [Hws [Hmid Hat]]]]]].
    apply at_index_app_inv in Hat. destruct Hat as [Hat Hat1].
    apply at_index_app_inv in Hat1. destruct Hat1 as [Hatws Hat2].
    apply at_index_cons_inv in Hat2. destruct Hat2 as [Hopen Hat3].
    apply at_index_app_inv in Hat3. destruct Hat3 as [Hatmid Hat4].
    apply at_index_cons_inv in Hat4. destruct Hat4 as [Hclose _].
    set (x0 := mkState i (repeat None (S (nCaps re_test_enum_with_paren)))).
    set (x1 := mkState (i + length id)
                 (upd 1 (Some (i, i + length id)) (captures x0))).
    set (x2 := mkState (endIndex x1 + length ws) (captures x1)).
    set (x3 := advance x2).
    set (x4 := mkState (endIndex x3 + length mid) (captures x3)).
    apply match_at_complete with (y := advance x4); [reflexivity|].
    cbn [pattern re_test_enum_with_paren multiline_flag nCaps seq_of].
    cbn [Matches]. fold (Matches s false).
    exists x1. split; [apply (Matches_key_intro false 1 x0 Hid Hat)|].
    exists x2. split.
    { apply (@Rep_Char_intro s false CSpace ws 0 x1 Hatws Hws (Nat.le_0_l _)). }
    exists x3. split.
    { exists (chr "("). split; [exact Hopen|]. split; reflexivity. }
    exists x4. split.
    { apply (@Rep_Char_intro s false CDot mid 0 x3 Hatmid Hmid (Nat.le_0_l _)). }
    exists (chr ")"). split; [|split; reflexivity]. exact Hclose.
Qed.

Lemma test_paren_spec s :
  fst (test re_test_enum_with_paren s 0) = true <-> has_paren_entry s.
Proof.
  rewrite test_true_iff. unfold has_paren_entry. split.
  - intros H.
    destruct (exec re_test_enum_with_paren s 0) as [[m|] li] eqn:E;
      [|simpl in H; congruence].
    apply exec_Some in E. destruct E as [i [y [Hm _]]].
    assert (Hm' : match_at re_test_enum_with_paren s i <> None) by congruence.
    apply test_paren_match in Hm'.
    destruct Hm' as [id [ws [mid [Hid [Hws [Hmid Hat]]]]]].
    exists (firstn i s), id, ws, mid,
      (skipn (i + length (id ++ ws ++ chr "(" :: mid ++ [chr ")"])) s).
    split; [|auto].
    rewrite (at_index_split Hat) at 1.
    rewrite <- !app_assoc. simpl. rewrite <- !app_assoc. reflexivity.
  - intros [pre [id [ws [mid [post [E [Hid [Hws Hmid]]]]]]]].
    apply exec_complete with (i := length pre).
    + simpl. subst s. rewrite length_app. lia.
    + apply test_paren_match. exists id, ws, mid.
      split; [exact Hid|]. split; [exact Hws|]. split; [exact Hmid|].
      replace s with (pre ++ (id ++ ws ++ chr "(" :: mid ++ [chr ")"]) ++ post).
      * apply at_index_of_split.
      * subst s. rewrite <- !app_assoc. simpl. rewrite <- !app_assoc. reflexivity.
Qed.

Lemma choose_paren section :
  has_paren_entry section <-> choose_re_enum section = (re_enum_with_paren, false).
Proof.
  rewrite <- test_paren_spec. unfold choose_re_enum.
  destruct (fst (test re_test_enum_with_paren section 0)); split;
    congruence || discriminate.
Qed.

Lemma choose_bare section :
  ~ has_paren_entry section <->
  choose_re_enum section = (re_enum_without_paren, true).
Proof.
  rewrite <- test_paren_spec. unfold choose_re_enum.
  destruct (fst (test re_test_enum_with_paren section 0)); split;
    congruence || discriminate.
Qed.

Lemma parse_value_section_paren section :
  has_paren_entry section ->
  parse_value_section section =
  map (fun m => filter truthy (tl m))
      (exec_all (S (length section)) re_enum_with_paren section 0).
Proof.
  intros H. apply choose_paren in H. unfold parse_value_section. rewrite H.
  rewrite exec_loop_paren. reflexivity.
Qed.

(** In the bare mode the tuples are the identifiers found, in the order of
    the text, each with its rank. *)
Lemma parse_value_section_bare section :
  ~ has_paren_entry section ->
  exists ids,
    parse_value_section section =
      mapi (fun id i => [VStr id; VNum (N.of_nat i)]) ids /\
    Forall is_key ids /\ in_order ids section.
Proof.
  intros H. apply choose_bare in H. unfold parse_value_section. rewrite H.
  rewrite exec_loop_autoindex.
  destruct (bare_exec_all section (S (length section)) 0) as [ids [E [Hk Ho]]].
  exists ids. rewrite E. split; [apply (number_from_keys ids 0)|].
  split; [exact Hk | exact Ho].
Qed.

Lemma mapi_from_length {A B} (f : A -> nat -> B) l : forall k,
  length (mapi_from k f l) = length l.
Proof. induction l; intros k; simpl; auto. Qed.

Lemma mapi_from_nth {A B} (f : A -> nat -> B) l : forall k i a,
  nth_error l i = Some a -> nth_error (mapi_from k f l) i = Some (f a (k + i)).
Proof.
  induction l as [|b l IH]; intros k [|i] a H; simpl in *; try discriminate.
  - inversion H. rewrite Nat.add_0_r. reflexivity.
  - rewrite (IH (S k) i a H). f_equal. f_equal. lia.
Qed.


Lemma bare_entries ids :
  Forall is_key ids -> forall k,
  Forall bare_entry (mapi_from k (fun id i => [VStr id; VNum (N.of_nat i)]) ids).
Proof.
  induction 1 as [|id ids Hid _ IH]; intros k; simpl; constructor; [|apply IH].
  exists id, (N.of_nat k). auto.
Qed.

Lemma parse_Some_inv s d :
  parseEnumDeclaration s = Some d ->
  exists section, value_section_of s = Some section /\
                  values d = parse_value_section section.
Proof.
  unfold parseEnumDeclaration, value_section_of.
  destruct (fst (exec re_whole_enum s 0)) as [m|]; [|discriminate].
  intros H. inversion H. eauto.
Qed.

(** The caller's filter. *)
Lemma github_loads_app a b : github_loads (a ++ b) = github_loads a ++ github_loads b.
Proof.
  unfold github_loads. rewrite map_app, filter_app, flat_map_app. reflexivity.
Qed.

Lemma github_loads_empty_values s d :
  parseEnumDeclaration s = Some d -> values d = [] -> github_loads [s] = [].
Proof.
  intros H Hv. unfold github_loads. simpl. rewrite H. simpl. rewrite Hv. reflexivity.
Qed.

Lemma github_loads_null s : parseEnumDeclaration s = None -> github_loads [s] = [].
Proof. intros H. unfold github_loads. simpl. rewrite H. reflexivity. Qed.

(** ** The projector *)

(** When the first three values of a tuple are truthy the row is the zip
    of the column names with the tuple. *)
Lemma project_row_truthy (vs : ValueTuple) :
  forallb truthy (firstn 3 vs) = true ->
  project_row columns vs = combine columns vs.
Proof.
  unfold project_row, columns.
  destruct vs as [|a [|b [|c rest]]]; cbn [firstn forallb length seq combine fold_left
    fst snd arr_get nth]; intros H;
    repeat (apply andb_true_iff in H; destruct H as [?H H]);
    repeat match goal with E : truthy _ = true |- _ => rewrite E; clear E end;
    reflexivity.
Qed.

Lemma forallb_false_In {A} (f : A -> bool) a l :
  In a l -> f a = false -> forallb f l = false.
Proof.
  intros Hin Hf. destruct (forallb f l) eqn:E; [|reflexivity].
  rewrite forallb_forall in E. rewrite (E a Hin) in Hf. discriminate.
Qed.

(** [undefined] in a column makes it a string column. *)
Lemma guess_column_undef col : In VUndef col -> guess_column col = TString.
Proof.
  intros H. unfold guess_column.
  rewrite (forallb_false_In isBoolean VUndef col H eq_refl).
  rewrite (forallb_false_In (fun y => isNumber (parseIntIfParsable y)) VUndef col H);
    reflexivity.
Qed.

Lemma column_entries_short rows c r :
  In r rows -> length r <= c -> In VUndef (column_entries rows c).
Proof.
  intros Hin Hlen. unfold column_entries.
  replace VUndef with (arr_get r c) by (apply nth_overflow; exact Hlen).
  apply in_map with (f := fun r => arr_get r c). exact Hin.
Qed.

Lemma column_entries_full rows c :
  (forall r, In r rows -> c < length r) ->
  column_entries rows c = contributing rows c.
Proof.
  induction rows as [|r rows IH]; intros H; simpl; [reflexivity|].
  rewrite IH by (intros r' Hr'; apply H; right; exact Hr').
  rewrite (nth_error_nth' r VUndef (H r (or_introl eq_refl))). reflexivity.
Qed.

(** ** The bare mode as a tokenizer *)

(** A greedy star over one character set, before a continuation that
    cannot fail, takes the longest run. *)
Lemma star_greedy_longest s ml cs (c : cont) :
  (forall y, c y <> None) ->
  forall fuel x, repeat_fuel s 0 x <= fuel ->
    RepeatMatcher fuel (compile s ml (Char cs)) 0 None true [] x c =
    c (mkState (endIndex x + length (take_while cs (skipn (endIndex x) s)))
               (captures x)).
Proof.
  intros Hc. induction fuel as [|fuel IH]; intros x Hf; unfold repeat_fuel in Hf;
    [lia|].
  cbn [RepeatMatcher Nat.eqb negb andb pred option_map].
  change (compile s ml (Char cs) (clear_captures [] x)) with
    (fun c0 : cont =>
       match nth_error s (endIndex x) with
       | Some a => if cset_mem cs a
                   then c0 (mkState (S (endIndex x)) (captures x)) else None
       | None => None
       end).
  cbv beta.
  destruct (nth_error s (endIndex x)) as [a|] eqn:Ha.
  - rewrite (skipn_nth_cons s (endIndex x) Ha). cbn [take_while].
    destruct (cset_mem cs a) eqn:Hcs.
    + cbn [endIndex captures].
      assert (Hlt : endIndex x < length s) by (apply nth_error_Some; congruence).
      replace (S (endIndex x) =? endIndex x) with false
        by (symmetry; apply Nat.eqb_neq; lia).
      rewrite (IH (mkState (S (endIndex x)) (captures x)))
        by (unfold repeat_fuel; simpl; lia).
      cbn [endIndex captures length].
      replace (endIndex x + S (length (take_while cs (skipn (S (endIndex x)) s))))
        with (S (endIndex x) + length (take_while cs (skipn (S (endIndex x)) s)))
        by lia.
      destruct (c _) eqn:E; [reflexivity | exfalso; eapply Hc; exact E].
    + simpl. rewrite state_add_0. reflexivity.
  - assert (Hge : length s <= endIndex x) by (apply nth_error_None; exact Ha).
    rewrite skipn_all2 by exact Hge. simpl. rewrite state_add_0. reflexivity.
Qed.

Lemma take_while_length cs t : length (take_while cs t) <= length t.
Proof.
  induction t as [|b t IH]; cbn [take_while length]; [lia|].
  destruct (cset_mem cs b); cbn [length]; lia.
Qed.

Lemma take_while_prefix cs t : exists post, t = take_while cs t ++ post.
Proof.
  induction t as [|b t [post IH]]; cbn [take_while].
  - exists []. reflexivity.
  - destruct (cset_mem cs b).
    + exists post. simpl. f_equal. exact IH.
    + exists (b :: t). reflexivity.
Qed.

Lemma take_while_all_in cs t : all_in cs (take_while cs t).
Proof.
  induction t as [|b t IH]; cbn [take_while]; [constructor|].
  destruct (cset_mem cs b) eqn:E; constructor; assumption.
Qed.

(** The entry pattern of the bare mode at index [i]. *)
Lemma bare_match_exact s i :
  match_at re_enum_without_paren s i =
  match nth_error s i with
  | Some a =>
    if cset_mem key_start a
    then let e := S i + length (take_while key_part (skipn (S i) s)) in
         Some (mkState e [None; Some (i, e)])
    else None
  | None => None
  end.
Proof.
  unfold match_at.
  change (compile s (multiline_flag re_enum_without_paren)
            (pattern re_enum_without_paren)
            (mkState i (repeat None (S (nCaps re_enum_without_paren))))
            (fun y => Some y))
    with (match nth_error s i with
          | Some a =>
            if cset_mem key_start a
            then RepeatMatcher
                   (repeat_fuel s 0 (mkState (S i) [None; None]))
                   (compile s false (Char key_part)) 0 None true []
                   (mkState (S i) [None; None])
                   (fun y => Some (set_capture 1 (i, endIndex y) y))
            else None
          | None => None
          end).
  destruct (nth_error s i) as [a|]; [|reflexivity].
  destruct (cset_mem key_start a); [|reflexivity].
  rewrite star_greedy_longest.
  - reflexivity.
  - discriminate.
  - apply Nat.le_refl.
Qed.

Lemma key_tokens_skip s : forall k,
  key_tokens_from s k = key_tokens_from (skipn k s) 0.
Proof.
  induction s as [|a t IH]; intros [|k]; simpl; auto.
Qed.

(** The successive matches of the bare pattern are the tokens. *)
Lemma bare_exec_all_tokens s :
  forall n li fuel,
    length s - li <= n -> li <= length s -> S (length s) - li <= fuel ->
    exec_all fuel re_enum_without_paren s li =
    map (fun id => [VStr id; VStr id]) (key_tokens (skipn li s)).
Proof.
  induction n as [|n IH]; intros li fuel Hn Hli Hf.
  - assert (li = length s) by lia. subst li.
    rewrite skipn_all. simpl. destruct fuel as [|fuel]; [reflexivity|].
    cbn [exec_all]. unfold exec. cbn [global re_enum_without_paren].
    replace (S (length s) - length s) with 1 by lia. cbn [scan].
    rewrite bare_match_exact.
    replace (nth_error s (length s)) with (@None code_unit)
      by (symmetry; apply nth_error_None; lia).
    reflexivity.
  - destruct (Nat.eq_dec li (length s)) as [->|Hne];
      [apply (IH (length s) fuel); lia|].
    assert (Hlt : li < length s) by lia.
    destruct (nth_error s li) as [a|] eqn:Ha;
      [|apply nth_error_None in Ha; lia].
    rewrite (skipn_nth_cons s li Ha). unfold key_tokens. cbn [key_tokens_from].
    destruct fuel as [|fuel]; [lia|].
    cbn [exec_all]. unfold exec. cbn [global re_enum_without_paren].
    replace (S (length s) - li) with (S (length s - li)) by lia. cbn [scan].
    rewrite bare_match_exact, Ha.
    destruct (cset_mem key_start a) eqn:Hks.
    + cbv zeta. cbn [endIndex map].
      set (run := take_while key_part (skipn (S li) s)).
      assert (Hrun : S li + length run <= length s).
      { pose proof (take_while_length key_part (skipn (S li) s)) as H.
        rewrite length_skipn in H. unfold run. lia. }
      rewrite (IH (S li + length run) fuel) by lia.
      rewrite key_tokens_skip, skipn_skipn.
      replace (length run + S li) with (S li + length run) by lia.
      f_equal. unfold match_array. cbn [endIndex captures tl map capture_value].
      assert (Hat : at_index (a :: run) s li).
      { apply at_index_cons; [exact Ha|]. unfold run, at_index.
        apply take_while_prefix. }
      pose proof (substring_at_index Hat) as Hsub. cbn [length] in Hsub.
      replace (li + S (length run)) with (S li + length run) in Hsub by lia.
      rewrite Hsub. reflexivity.
    + change (key_tokens_from (skipn (S li) s) 0) with (key_tokens (skipn (S li) s)).
      rewrite <- (IH (S li) (S fuel)) by lia.
      cbn [exec_all]. unfold exec. cbn [global re_enum_without_paren].
      replace (S (length s) - S li) with (length s - li) by lia.
      reflexivity.
Qed.

Lemma map_key_pair_inj (a b : list jsstring) :
  map (fun id => [VStr id; VStr id]) a = map (fun id => [VStr id; VStr id]) b ->
  a = b.
Proof.
  revert b. induction a as [|x a IH]; intros [|y b] H; simpl in H;
    try discriminate; [reflexivity|].
  inversion H; subst. f_equal. apply IH. assumption.
Qed.

Lemma key_tokens_are_keys s : Forall is_key (key_tokens s) /\ in_order (key_tokens s) s.
Proof.
  destruct (bare_exec_all s (S (length s)) 0) as [ids [E [Hk Ho]]].
  rewrite (bare_exec_all_tokens s (n := length s) (li := 0)) in E by lia.
  simpl in E. apply map_key_pair_inj in E. subst ids. simpl in Ho. auto.
Qed.

(** In the bare mode the values are the tokens, each with its rank. *)
Lemma parse_value_section_bare_tokens section :
  ~ has_paren_entry section ->
  parse_value_section section =
  mapi (fun id i => [VStr id; VNum (N.of_nat i)]) (key_tokens section).
Proof.
  intros H. apply choose_bare in H. unfold parse_value_section. rewrite H.
  rewrite exec_loop_autoindex.
  rewrite (bare_exec_all_tokens section (n := length section) (li := 0)) by lia.
  simpl. apply (number_from_keys (key_tokens section) 0).
Qed.

(** ** The fuel of [split] *)

Lemma match_at_forward R s q y : match_at R s q = Some y -> q <= endIndex y.
Proof.
  intros H. apply match_at_sound in H. apply Matches_in_range in H.
  destruct H as [H _]. exact H.
Qed.

Lemma split_loop_fuel R s :
  forall fuel fuel' p q A,
    p <= q ->
    2 * (length s - q) + (if p <? q then 1 else 0) < fuel ->
    2 * (length s - q) + (if p <? q then 1 else 0) < fuel' ->
    split_loop fuel R s p q A = split_loop fuel' R s p q A.
Proof.
  induction fuel as [|fuel IH]; intros fuel' p q A Hpq Hf Hf'; [lia|].
  destruct fuel' as [|fuel']; [lia|].
  cbn [split_loop].
  destruct (q <? length s) eqn:Hq; [|reflexivity].
  apply Nat.ltb_lt in Hq.
  assert (Hnext : split_loop fuel R s p (S q) A = split_loop fuel' R s p (S q) A).
  { assert (Hlt : (p <? S q) = true) by (apply Nat.ltb_lt; lia).
    apply IH; [lia | rewrite Hlt | rewrite Hlt];
      destruct (p <? q); lia. }
  destruct (match_at R s q) as [y|] eqn:Hm; [|exact Hnext].
  apply match_at_forward in Hm.
  destruct (Nat.min (endIndex y) (length s) =? p) eqn:He; [exact Hnext|].
  apply Nat.eqb_neq in He.
  assert (Hirr : (Nat.min (endIndex y) (length s) <? Nat.min (endIndex y) (length s))
                 = false) by apply Nat.ltb_irrefl.
  apply IH; [lia | rewrite Hirr | rewrite Hirr];
    destruct (p <? q) eqn:Hp; try (apply Nat.ltb_ge in Hp); lia.
Qed.

(** [split] gives the same pieces with any larger fuel. *)
Lemma split_fuel R s fuel :
  2 * length s < fuel ->
  split_loop fuel R s 0 0 [] = split_loop (2 * length s + 1) R s 0 0 [].
Proof.
  intros H. apply split_loop_fuel; simpl; lia.
Qed.

(** [parse_value_section] gives the same tuples with any larger fuel of
    the loop. *)
Lemma parse_value_section_fuel section fuel :
  S (length section) <= fuel ->
  exec_loop fuel (fst (choose_re_enum section)) section
    (snd (choose_re_enum section)) 0 0 [] = parse_value_section section.
Proof.
  intros H. unfold parse_value_section, choose_re_enum.
  destruct (fst (test re_test_enum_with_paren section 0)); cbn [fst snd];
    apply exec_loop_fuel; auto using paren_nonempty, bare_nonempty.
Qed.

(** * Lemmas for the further properties *)
(** ** The type guesser and the order of the rows *)

Lemma guessSchema_columns rows :
  guessSchema rows =
  map (fun c => guess_column (column_entries rows c)) (seq 0 (max_length rows)).
Proof.
  unfold guessSchema, transpose, column_entries. rewrite filter_all, map_map.
  reflexivity.
Qed.

Lemma max_length_perm rows rows' :
  Permutation rows rows' -> max_length rows = max_length rows'.
Proof.
  unfold max_length. induction 1; simpl; lia.
Qed.

Lemma forallb_perm {A} (f : A -> bool) l l' :
  Permutation l l' -> forallb f l = forallb f l'.
Proof.
  induction 1; simpl; try congruence.
  destruct (f x), (f y); reflexivity.
Qed.

Lemma guess_column_perm col col' :
  Permutation col col' -> guess_column col = guess_column col'.
Proof.
  intros H. unfold guess_column.
  rewrite (forallb_perm isBoolean H).
  rewrite (forallb_perm (fun y => isNumber (parseIntIfParsable y)) H).
  reflexivity.
Qed.

Lemma guessSchema_perm rows rows' :
  Permutation rows rows' -> guessSchema rows = guessSchema rows'.
Proof.
  intros H. rewrite !guessSchema_columns, (max_length_perm H).
  apply map_ext. intros c. apply guess_column_perm.
  unfold column_entries. apply Permutation_map. exact H.
Qed.

(** A value that passes the boolean test fails the integer test. *)
Lemma isBoolean_not_number v :
  isBoolean v = true -> isNumber (parseIntIfParsable v) = false.
Proof.
  intros H. apply isBoolean_spec in H. destruct H as [-> | ->]; vm_compute; reflexivity.
Qed.

Lemma guess_column_cons v col :
  col <> [] ->
  guess_column (v :: col) = guess_column col \/ guess_column (v :: col) = TString.
Proof.
  intros Hne. unfold guess_column. cbn [forallb].
  destruct (forallb isBoolean col) eqn:EB.
  - destruct (isBoolean v) eqn:Ev; cbn [andb]; [left; reflexivity|].
    right. destruct col as [|w col]; [congruence|].
    cbn [forallb] in *. apply andb_true_iff in EB. destruct EB as [Hw _].
    rewrite (isBoolean_not_number w Hw). rewrite andb_false_r. reflexivity.
  - rewrite andb_false_r.
    destruct (forallb (fun y => isNumber (parseIntIfParsable y)) col) eqn:EN.
    + destruct (isNumber (parseIntIfParsable v)); cbn [andb]; auto.
    + rewrite andb_false_r. left. reflexivity.
Qed.

Lemma max_length_cons r rows : max_length (r :: rows) = Nat.max (length r) (max_length rows).
Proof. reflexivity. Qed.

Lemma guessSchema_add_row rows r c ty :
  nth_error (guessSchema rows) c = Some ty ->
  nth_error (guessSchema (r :: rows)) c = Some ty \/
  nth_error (guessSchema (r :: rows)) c = Some TString.
Proof.
  intros H.
  assert (Hc : c < max_length rows).
  { rewrite <- guessSchema_length. apply nth_error_Some. congruence. }
  rewrite (guessSchema_nth rows Hc) in H. inversion H; subst ty. clear H.
  assert (Hc' : c < max_length (r :: rows)) by (rewrite max_length_cons; lia).
  rewrite (guessSchema_nth (r :: rows) Hc').
  assert (Hne : column_entries rows c <> []).
  { destruct rows; [unfold max_length in Hc; simpl in Hc; lia | discriminate]. }
  change (column_entries (r :: rows) c) with (arr_get r c :: column_entries rows c).
  destruct (guess_column_cons (arr_get r c) Hne) as [E|E]; rewrite E; auto.
Qed.

(** ** The schema fields *)

Lemma skipn_nth_error_cons {A} (l : list A) i a :
  nth_error l i = Some a -> skipn i l = a :: skipn (S i) l.
Proof.
  revert i. induction l as [|b l IH]; intros [|i] H; simpl in *; try discriminate.
  - inversion H. reflexivity.
  - apply IH. exact H.
Qed.

Lemma mapi_from_fields (cols : list jsstring) : forall types k,
  k + length types <= length cols ->
  mapi_from k (fun type i => mkField (arr_get (map VStr cols) i) type) types =
  map (fun p => mkField (VStr (fst p)) (snd p)) (combine (skipn k cols) types).
Proof.
  induction types as [|ty types IH]; intros k Hk.
  - simpl. rewrite combine_nil. reflexivity.
  - cbn [mapi_from length] in *.
    destruct (nth_error cols k) as [col|] eqn:Ecol;
      [|apply nth_error_None in Ecol; lia].
    rewrite (skipn_nth_error_cons cols k Ecol). cbn [combine map fst snd].
    rewrite IH by lia. f_equal. f_equal.
    unfold arr_get. apply nth_error_nth. rewrite nth_error_map, Ecol. reflexivity.
Qed.

Lemma combine_firstn {A B} (l : list A) : forall l' : list B,
  combine l (firstn (length l) l') = combine l l'.
Proof.
  induction l as [|a l IH]; intros [|b l']; simpl; try reflexivity.
  f_equal. apply IH.
Qed.

(** The schema is the zip of the column names with the guessed types. *)
Lemma schema_fields_zip enum_values cols :
  enumToBigQuerySchemaFields enum_values cols =
  map (fun p => mkField (VStr (fst p)) (snd p)) (combine cols (guessSchema enum_values)).
Proof.
  unfold enumToBigQuerySchemaFields, mapi.
  rewrite mapi_from_fields by (rewrite length_firstn; simpl; lia).
  cbn [skipn]. rewrite combine_firstn. reflexivity.
Qed.

(** ** Rows and schema of a load *)

Lemma max_length_ge rows r : In r rows -> length r <= max_length rows.
Proof.
  induction rows as [|r' rows IH]; intros H; [contradiction|].
  rewrite max_length_cons. destruct H as [->|H]; [lia|]. apply IH in H. lia.
Qed.

Lemma jsstring_eqb_refl a : jsstring_eqb a a = true.
Proof. apply jsstring_eqb_eq. reflexivity. Qed.

Lemma jsstring_eqb_neq a b : a <> b -> jsstring_eqb a b = false.
Proof.
  intros H. destruct (jsstring_eqb a b) eqn:E; [|reflexivity].
  apply jsstring_eqb_eq in E. contradiction.
Qed.

Lemma obj_get_app k o1 o2 :
  obj_get k (o1 ++ o2) =
  match obj_get k o1 with
  | Some v => Some v
  | None => obj_get k o2
  end.
Proof.
  induction o1 as [|[k' v'] o1 IH]; simpl; [reflexivity|].
  destruct (jsstring_eqb k' k); [reflexivity | exact IH].
Qed.

Lemma obj_get_cell k k' o v :
  obj_get k (cell k' o) = Some v <-> k' = k /\ o = Some v /\ truthy v = true.
Proof.
  unfold cell. destruct o as [w|]; [destruct (truthy w) eqn:Hw|]; simpl.
  - destruct (jsstring_eqb k' k) eqn:E.
    + apply jsstring_eqb_eq in E. split.
      * intros H. inversion H; subst. auto.
      * intros [_ [H _]]. exact H.
    + split; [discriminate|]. intros [H _]. apply jsstring_eqb_eq in H. congruence.
  - split; [discriminate|]. intros [_ [H Ht]]. inversion H; subst. congruence.
  - split; [discriminate|]. intros [_ [H _]]. discriminate.
Qed.

Lemma obj_get_cell_ne k k' o : k' <> k -> obj_get k (cell k' o) = None.
Proof.
  intros H. destruct (obj_get k (cell k' o)) as [v|] eqn:E; [|reflexivity].
  apply obj_get_cell in E. destruct E as [E _]. contradiction.
Qed.

(** The row of a tuple, position by position. *)
Lemma project_row_cells vs :
  project_row columns vs =
  cell (str "key") (nth_error vs 0) ++ cell (str "code") (nth_error vs 1)
    ++ cell (str "label") (nth_error vs 2).
Proof.
  unfold project_row, columns, cell, arr_get.
  cbn [length seq combine fold_left fst snd].
  destruct vs as [|a [|b [|c rest]]]; cbn [nth nth_error truthy];
    try destruct (truthy a); try destruct (truthy b); try destruct (truthy c);
    reflexivity.
Qed.

(** The row has the property [k] with value [v] exactly when [k] is the
    name of a position at which the tuple holds the truthy value [v]. *)
Lemma project_row_get k v vs :
  obj_get k (project_row columns vs) = Some v <->
  exists i, nth_error columns i = Some k /\ nth_error vs i = Some v /\ truthy v = true.
Proof.
  rewrite project_row_cells, !obj_get_app. split.
  - destruct (obj_get k (cell (str "key") (nth_error vs 0))) as [v0|] eqn:E0.
    + intros H. inversion H; subst v0. apply obj_get_cell in E0.
      destruct E0 as [<- [Hv Ht]]. exists 0. auto.
    + destruct (obj_get k (cell (str "code") (nth_error vs 1))) as [v1|] eqn:E1.
      * intros H. inversion H; subst v1. apply obj_get_cell in E1.
        destruct E1 as [<- [Hv Ht]]. exists 1. auto.
      * intros H. apply obj_get_cell in H. destruct H as [<- [Hv Ht]].
        exists 2. auto.
  - intros [i [Hk [Hv Ht]]].
    destruct i as [|[|[|i]]]; simpl in Hk; try (destruct i; discriminate);
      inversion Hk; subst k; clear Hk.
    + rewrite (proj2 (obj_get_cell (str "key") (str "key") (nth_error vs 0) v));
        auto.
    + rewrite obj_get_cell_ne by discriminate.
      rewrite (proj2 (obj_get_cell (str "code") (str "code") (nth_error vs 1) v));
        auto.
    + rewrite !obj_get_cell_ne by discriminate.
      apply obj_get_cell. auto.
Qed.

Lemma obj_has_get k o : obj_has k o = true <-> exists v, obj_get k o = Some v.
Proof.
  unfold obj_has. destruct (obj_get k o) as [v|]; split; eauto; try discriminate.
  intros [v H]. discriminate.
Qed.

(** Every property of every row is a field of the schema. *)
Lemma row_properties_in_schema enum_values row k :
  In row (enumToBigQueryRows enum_values columns) ->
  obj_has k row = true ->
  In (VStr k) (map field_name (enumToBigQuerySchemaFields enum_values columns)).
Proof.
  unfold enumToBigQueryRows. intros Hrow Hk.
  apply in_map_iff in Hrow. destruct Hrow as [vs [<- Hvs]].
  apply obj_has_get in Hk. destruct Hk as [v Hv].
  apply project_row_get in Hv. destruct Hv as [i [Hcol [Hval _]]].
  assert (Hi : i < max_length enum_values).
  { pose proof (max_length_ge enum_values vs Hvs).
    assert (i < length vs) by (apply nth_error_Some; congruence). lia. }
  rewrite schema_fields_zip, map_map. cbn [field_name].
  rewrite <- guessSchema_length in Hi.
  destruct (nth_error (guessSchema enum_values) i) as [ty|] eqn:Ety;
    [|apply nth_error_None in Ety; lia].
  apply in_map_iff. exists (k, ty). split; [reflexivity|].
  apply nth_error_In with (n := i).
  clear - Hcol Ety. revert Hcol Ety. generalize (guessSchema enum_values) columns.
  induction i as [|i IH]; intros types cols Hcol Ety;
    destruct cols, types; simpl in *; try discriminate.
  - inversion Hcol; inversion Ety; reflexivity.
  - apply IH; assumption.
Qed.

(** ** Keys *)

Lemma key_start_range a :
  cset_mem key_start a = true -> (65 <= a <= 90)%N \/ a = 95%N.
Proof.
  unfold key_start. cbn [cset_mem]. rewrite orb_true_iff, andb_true_iff.
  rewrite !N.leb_le, N.eqb_eq. intros [[H1 H2]|H]; [left | right]; auto.
Qed.

Lemma key_not_boolean id : is_key id -> isBoolean (VStr id) = false.
Proof.
  intros [a [rest [-> [Ha _]]]]. apply key_start_range in Ha.
  cbn [isBoolean]. apply orb_false_iff.
  split; (destruct (jsstring_eqb (a :: rest) _) eqn:E; [|reflexivity]);
    apply jsstring_eqb_eq in E; inversion E; subst a;
    destruct Ha as [Ha|Ha]; lia.
Qed.

Lemma key_not_digits id : is_key id -> ~ all_digits id.
Proof.
  intros [a [rest [-> [Ha _]]]] [_ H]. apply key_start_range in Ha.
  inversion H as [|x l Hd _]; subst. unfold is_digit_unit in Hd. lia.
Qed.

Lemma key_not_number id : is_key id -> isNumber (parseIntIfParsable (VStr id)) = false.
Proof.
  intros H. destruct (isNumber (parseIntIfParsable (VStr id))) eqn:E; [|reflexivity].
  apply isNumber_spec in E. simpl in E. exfalso. exact (key_not_digits H E).
Qed.

Lemma key_truthy id : is_key id -> truthy (VStr id) = true.
Proof. intros [a [rest [-> _]]]. reflexivity. Qed.

Lemma tuples_keyed section : Forall keyed (parse_value_section section).
Proof.
  destruct (fst (test re_test_enum_with_paren section 0)) eqn:E.
  - apply test_paren_spec in E. rewrite (parse_value_section_paren E).
    eapply Forall_impl; [|apply paren_exec_all].
    intros t [id [ws [lits [pre [post [-> [_ [Hid _]]]]]]]]. exists id, lits. auto.
  - assert (H : ~ has_paren_entry section).
    { intros H. apply test_paren_spec in H. congruence. }
    destruct (parse_value_section_bare H) as [ids [-> [Hk _]]].
    eapply Forall_impl; [|apply bare_entries; exact Hk].
    intros t [id [n [-> Hid]]]. exists id, [VNum n]. auto.
Qed.

Lemma parse_values_keyed s d : parseEnumDeclaration s = Some d -> Forall keyed (values d).
Proof.
  intros H. apply parse_Some_inv in H. destruct H as [section [_ ->]].
  apply tuples_keyed.
Qed.

Lemma guess_column_key id col : is_key id -> guess_column (VStr id :: col) = TString.
Proof.
  intros H. unfold guess_column. cbn [forallb].
  rewrite (key_not_boolean H), (key_not_number H). reflexivity.
Qed.

(** The first field of the schema of keyed tuples is the string column
    [key]. *)
Lemma keyed_schema_head vals :
  vals <> [] -> Forall keyed vals ->
  exists rest,
    enumToBigQuerySchemaFields vals columns =
    mkField (VStr (str "key")) TString :: rest.
Proof.
  intros Hne Hk. rewrite schema_fields_zip, guessSchema_columns.
  destruct vals as [|t vals]; [congruence|].
  inversion Hk as [|t' l [id [rest [-> Hid]]] _]; subst.
  rewrite max_length_cons. cbn [length].
  destruct (Nat.max (S (length rest)) (max_length vals)) as [|m] eqn:Em; [lia|].
  cbn [seq map]. unfold columns at 1. cbn [combine map fst snd].
  change (column_entries ((VStr id :: rest) :: vals) 0)
    with (VStr id :: column_entries vals 0).
  rewrite (guess_column_key _ Hid). eexists. reflexivity.
Qed.

Lemma keyed_row_has_key t :
  keyed t -> exists id, is_key id /\ hd_error t = Some (VStr id) /\
                        obj_get (str "key") (project_row columns t) = Some (VStr id).
Proof.
  intros [id [rest [-> Hid]]]. exists id. split; [exact Hid|]. split; [reflexivity|].
  apply project_row_get. exists 0. split; [reflexivity|]. split; [reflexivity|].
  apply key_truthy. exact Hid.
Qed.

(** ** The schema of the bare mode *)

Lemma bare_columns ids : forall k,
  column_entries (mapi_from k (fun id i => [VStr id; VNum (N.of_nat i)]) ids) 0 =
    map VStr ids /\
  Forall (fun v => exists n, v = VNum n)
    (column_entries (mapi_from k (fun id i => [VStr id; VNum (N.of_nat i)]) ids) 1) /\
  max_length (mapi_from k (fun id i => [VStr id; VNum (N.of_nat i)]) ids)
    = match ids with [] => 0 | _ => 2 end.
Proof.
  induction ids as [|id ids IH]; intros k.
  - repeat split; constructor.
  - destruct (IH (S k)) as [H0 [H1 H2]].
    cbn [mapi_from]. unfold column_entries in *. cbn [map]. split; [|split].
    + rewrite H0. reflexivity.
    + constructor; [eexists; reflexivity | exact H1].
    + rewrite max_length_cons, H2. destruct ids; reflexivity.
Qed.

Lemma guess_column_numbers col :
  col <> [] -> Forall (fun v => exists n, v = VNum n) col -> guess_column col = TInteger.
Proof.
  intros Hne H. unfold guess_column.
  assert (Hnum : forallb (fun y => isNumber (parseIntIfParsable y)) col = true).
  { apply forallb_forall. intros x Hx.
    rewrite Forall_forall in H. destruct (H x Hx) as [m ->].
    apply isNumber_spec. apply N_to_jsstring_digits. }
  rewrite Hnum.
  destruct col as [|v col]; [congruence|].
  inversion H as [|v' l [n ->] Hl]; subst. reflexivity.
Qed.

Lemma bare_schema section :
  snd (choose_re_enum section) = true -> key_tokens section <> [] ->
  enumToBigQuerySchemaFields (parse_value_section section) columns =
  [mkField (VStr (str "key")) TString; mkField (VStr (str "code")) TInteger].
Proof.
  intros Hmode Hne.
  assert (Hbare : ~ has_paren_entry section).
  { intros H. apply choose_paren in H. rewrite H in Hmode. discriminate. }
  rewrite (parse_value_section_bare_tokens Hbare).
  destruct (key_tokens_are_keys section) as [Hk _].
  destruct (key_tokens section) as [|id ids] eqn:E; [congruence|].
  unfold mapi.
  destruct (bare_columns (id :: ids) 0) as [H0 [H1 H2]].
  rewrite schema_fields_zip, guessSchema_columns, H2.
  cbn [seq map]. rewrite H0. cbn [map].
  inversion Hk as [|id' ids' Hid Hids]; subst. rewrite (guess_column_key _ Hid).
  rewrite guess_column_numbers; [reflexivity | | exact H1].
  cbn [mapi_from]. discriminate.
Qed.

(** ** The tuples of the paren mode *)

Lemma filter_truthy_nonempty s caps :
  Forall nonempty_string (filter truthy (map (capture_value s) caps)).
Proof.
  induction caps as [|c caps IH]; simpl; [constructor|].
  destruct c as [[a b]|]; simpl; [|exact IH].
  destruct (substring s a b) eqn:E; simpl; [exact IH|].
  constructor; [eexists; split; [reflexivity | discriminate] | exact IH].
Qed.

Lemma filter_truthy_count s caps :
  length (filter truthy (map (capture_value s) caps)) <= count_set caps.
Proof.
  unfold count_set. induction caps as [|c caps IH]; simpl; [lia|].
  destruct c as [[a b]|]; simpl; [|exact IH].
  destruct (substring s a b); simpl; lia.
Qed.

Lemma Matches_no_groups s ml r x y :
  groups r = [] -> Matches s ml r x y -> captures y = captures x.
Proof.
  intros Hg H. apply Matches_same_outside in H. rewrite Hg in H.
  destruct H as [_ H]. apply nth_error_ext. intros k. apply H. intros [].
Qed.

(** A literal sets one of its three groups. *)
Lemma literal_captures s ml n x y :
  Matches s ml (re_literal n) x y ->
  exists j v, (j = n \/ j = n + 1 \/ j = n + 2) /\
              captures y = upd j (Some v) (captures x).
Proof.
  unfold re_literal. cbn [Matches seq_of].
  intros [[z [Hz ->]] | [[z1 [Hq [z2 [[z [Hz ->]] Hq']]]] | [z1 [Hq [z2 [[z [Hz ->]] Hq']]]]]].
  - exists n. eexists. split; [auto|]. cbn [set_capture captures].
    fold (Matches s ml) in Hz.
    rewrite (@Matches_no_groups s ml
               (Alt (lit "true")
                  (Alt (lit "false")
                     (Seq (Plus (Char digit)) (Opt (Seq (ch ".") (Char digit))))))
               x z eq_refl Hz).
    reflexivity.
  - exists (n + 1). eexists. split; [auto|].
    destruct Hq as [a [_ [_ ->]]]. destruct Hq' as [a' [_ [_ ->]]].
    cbn [set_capture captures advance].
    rewrite (@Matches_no_groups s ml (StarLazy (Char CDot)) _ z eq_refl Hz).
    reflexivity.
  - exists (n + 2). eexists. split; [auto|].
    destruct Hq as [a [_ [_ ->]]]. destruct Hq' as [a' [_ [_ ->]]].
    cbn [set_capture captures advance].
    rewrite (@Matches_no_groups s ml (StarLazy (Char CDot)) _ z eq_refl Hz).
    reflexivity.
Qed.

Lemma label_captures s ml n x y :
  Matches s ml (re_label n) x y ->
  exists j v, (j = n \/ j = n + 1 \/ j = n + 2) /\
              captures y = upd j (Some v) (captures x).
Proof.
  unfold re_label. intros [z [Hc Hl]].
  apply literal_captures in Hl. destruct Hl as [j [v [Hj E]]].
  exists j, v. split; [exact Hj|].
  rewrite E, (@Matches_no_groups s ml re_comma x z eq_refl Hc). reflexivity.
Qed.

(** The last iteration of a quantifier. *)
Lemma Rep_last (R : state -> state -> Prop) ps min max x y :
  Rep R ps min max x y -> y = x \/ exists x', R (clear_captures ps x') y.
Proof.
  induction 1 as [| |min max x y z Hmax Hy Hne Hrep IH]; auto.
  destruct IH as [->|IH]; [right; eauto | right; exact IH].
Qed.

Lemma count_set_upd n v l : count_set (upd n (Some v) l) <= S (count_set l).
Proof.
  unfold count_set. revert n. induction l as [|c l IH]; intros [|n]; simpl; try lia.
  - destruct c; simpl; lia.
  - specialize (IH n). destruct c; simpl; lia.
Qed.

Lemma count_set_clear n l : count_set (upd n None l) <= count_set l.
Proof.
  unfold count_set. revert n. induction l as [|c l IH]; intros [|n]; simpl; try lia.
  - destruct c; simpl; lia.
  - specialize (IH n). destruct c; simpl; lia.
Qed.

Lemma nth_error_upd {A} n k (v : A) l :
  nth_error (upd n v l) k =
  if k =? n then option_map (fun _ => v) (nth_error l k) else nth_error l k.
Proof.
  revert n k; induction l as [|h t IH]; intros [|n] [|k]; simpl; try reflexivity.
  - destruct (k =? n); reflexivity.
  - apply IH.
Qed.

Lemma nth_error_clear ps (l : list (option (nat * nat))) k :
  nth_error (fold_right (fun n caps => upd n None caps) l ps) k =
  if existsb (Nat.eqb k) ps
  then option_map (fun _ => None) (nth_error l k)
  else nth_error l k.
Proof.
  induction ps as [|p ps IH]; simpl; [reflexivity|].
  rewrite nth_error_upd, IH.
  destruct (k =? p); simpl; [|reflexivity].
  destruct (existsb (Nat.eqb k) ps); simpl; [|reflexivity].
  destruct (nth_error l k); reflexivity.
Qed.

Lemma clear_upd_in ps j v (l : list (option (nat * nat))) :
  In j ps ->
  fold_right (fun n caps => upd n None caps) (upd j v l) ps =
  fold_right (fun n caps => upd n None caps) l ps.
Proof.
  intros Hj. apply nth_error_ext. intros k. rewrite !nth_error_clear, nth_error_upd.
  destruct (existsb (Nat.eqb k) ps) eqn:E.
  - destruct (k =? j); [|reflexivity]. destruct (nth_error l k); reflexivity.
  - destruct (k =? j) eqn:Ekj; [|reflexivity].
    apply Nat.eqb_eq in Ekj. subst k.
    assert (existsb (Nat.eqb j) ps = true)
      by (apply existsb_exists; exists j; split; [exact Hj | apply Nat.eqb_refl]).
    congruence.
Qed.

Lemma clear_clear ps (l : list (option (nat * nat))) :
  fold_right (fun n caps => upd n None caps)
    (fold_right (fun n caps => upd n None caps) l ps) ps =
  fold_right (fun n caps => upd n None caps) l ps.
Proof.
  apply nth_error_ext. intros k. rewrite !nth_error_clear.
  destruct (existsb (Nat.eqb k) ps); [|reflexivity].
  destruct (nth_error l k); reflexivity.
Qed.

Lemma count_set_clear_list ps l :
  count_set (fold_right (fun n caps => upd n None caps) l ps) <= count_set l.
Proof.
  induction ps as [|p ps IH]; simpl; [lia|].
  etransitivity; [apply count_set_clear | exact IH].
Qed.

(** A quantified label adds at most one capture. *)
Lemma Rep_label_last s ml n c min max x y :
  Rep (Matches s ml (re_label n)) [n; n + 1; n + 2] min max x y ->
  count_set (captures (clear_captures [n; n + 1; n + 2] x)) <= c ->
  y = x \/
  exists x', count_set (captures (clear_captures [n; n + 1; n + 2] x')) <= c /\
             Matches s ml (re_label n) (clear_captures [n; n + 1; n + 2] x') y.
Proof.
  induction 1 as [| |min max x y z Hmax Hy Hne Hrep IH]; intros Hc; auto.
  right.
  assert (Hy' := Hy). apply label_captures in Hy'. destruct Hy' as [j [v [Hj E]]].
  assert (Hin : In j [n; n + 1; n + 2]) by (simpl; intuition).
  assert (Ecl : captures (clear_captures [n; n + 1; n + 2] y) =
                captures (clear_captures [n; n + 1; n + 2] x)).
  { unfold clear_captures. cbn [captures]. rewrite E. unfold clear_captures.
    cbn [captures]. rewrite clear_upd_in by exact Hin. apply clear_clear. }
  destruct IH as [->|[x' [Hc' Hm]]].
  - rewrite Ecl. exact Hc.
  - exists x. split; [exact Hc | exact Hy].
  - exists x'. split; [exact Hc' | exact Hm].
Qed.

Lemma Rep_label_count s ml n min max x y :
  Rep (Matches s ml (re_label n)) [n; n + 1; n + 2] min max x y ->
  count_set (captures y) <= S (count_set (captures x)).
Proof.
  intros H.
  apply Rep_label_last with (c := count_set (captures x)) in H;
    [|apply count_set_clear_list].
  destruct H as [->|[x' [Hc Hm]]]; [lia|].
  apply label_captures in Hm. destruct Hm as [j [v [_ E]]].
  rewrite E. etransitivity; [apply count_set_upd|]. lia.
Qed.

(** A match of [re_enum_with_paren] holds at most five captures. *)
Lemma paren_match_count s i y :
  match_at re_enum_with_paren s i = Some y -> count_set (captures y) <= 5.
Proof.
  intros H. apply match_at_sound in H.
  cbn [pattern re_enum_with_paren multiline_flag nCaps seq_of] in H.
  cbn [Matches] in H. fold (Matches s false) in H.
  destruct H as [z1 [Hkey [z2 [Hws [z3 [Hopen [z4 [Hws' [z5 [Hcode [z6 [Ho1
    [z7 [Ho2 [z8 [Hstar [z9 [Hws'' Hclose]]]]]]]]]]]]]]]]]].
  apply Matches_key_inv in Hkey. destruct Hkey as [id [_ [_ ->]]].
  apply (@Rep_Char_inv s false CSpace) in Hws. destruct Hws as [ws [_ [_ [_ ->]]]].
  apply Matches_ch_inv in Hopen. destruct Hopen as [_ ->].
  apply (@Rep_Char_inv s false CSpace) in Hws'. destruct Hws' as [ws' [_ [_ [_ ->]]]].
  apply literal_captures in Hcode. destruct Hcode as [j [v [_ Ecode]]].
  apply (@Rep_label_count s false 5) in Ho1.
  apply (@Rep_label_count s false 8) in Ho2.
  apply (@Rep_label_count s false 11) in Hstar.
  apply (@Rep_Char_inv s false CSpace) in Hws''. destruct Hws'' as [ws'' [_ [_ [_ ->]]]].
  apply Matches_ch_inv in Hclose. destruct Hclose as [_ ->].
  cbn [advance captures endIndex] in *.
  assert (H5 : count_set (captures z5) <= 2).
  { rewrite Ecode. etransitivity; [apply count_set_upd|].
    apply le_n_S. etransitivity; [apply count_set_upd|]. reflexivity. }
  lia.
Qed.

(** Every tuple of the paren mode has between one and five elements, all
    of them non-empty strings. *)
Lemma paren_exec_all_sizes s fuel :
  forall li,
    Forall (fun t => 1 <= length t <= 5 /\ Forall nonempty_string t)
      (map (fun m => filter truthy (tl m)) (exec_all fuel re_enum_with_paren s li)).
Proof.
  induction fuel as [|fuel IH]; intros li; simpl; [constructor|].
  destruct (exec re_enum_with_paren s li) as [[m|] li'] eqn:E; [|constructor].
  simpl. constructor; [|apply IH].
  apply exec_Some in E. destruct E as [i [y [Hm [_ [_ [_ [-> _]]]]]]].
  pose proof (paren_match_count s i Hm) as Hcount.
  pose proof (paren_match_shape s i Hm) as [id [ws [lits [_ [_ [_ [_ [Ht _]]]]]]]].
  split; [split|].
  - rewrite Ht. simpl. lia.
  - unfold match_array. cbn [tl].
    etransitivity; [apply filter_truthy_count|].
    etransitivity; [|exact Hcount].
    unfold count_set. destruct (captures y) as [|c caps]; simpl; [lia|].
    destruct c; simpl; lia.
  - unfold match_array. cbn [tl]. apply filter_truthy_nonempty.
Qed.

Lemma paren_tuple_sizes section :
  snd (choose_re_enum section) = false ->
  Forall (fun t => 1 <= length t <= 5 /\ Forall nonempty_string t)
    (parse_value_section section).
Proof.
  intros Hmode.
  assert (H : has_paren_entry section).
  { apply test_paren_spec. unfold choose_re_enum in Hmode.
    destruct (fst (test re_test_enum_with_paren section 0)); [reflexivity|discriminate]. }
  rewrite (parse_value_section_paren H). apply paren_exec_all_sizes.
Qed.

(** ** The older handler *)

(** In the older handler every row has every column of the schema, in the
    order of the schema, with [values[i]] (or [undefined]) as value. *)
Lemma legacy_rows x row :
  In row (rows (Legacy.load_of x)) ->
  exists vs, In vs (values x) /\
    row = combine (firstn (length (schema (Legacy.load_of x))) columns)
            (map (arr_get vs) (seq 0 (length (schema (Legacy.load_of x))))) /\
    map (fun p => VStr (fst p)) row = map field_name (schema (Legacy.load_of x)).
Proof.
  unfold Legacy.load_of. cbn [rows schema]. intros H.
  apply in_map_iff in H. destruct H as [vs [<- Hvs]].
  exists vs. split; [exact Hvs|].
  pose proof (firstn_le_length 3 (guessSchema (values x))) as Hlen.
  destruct (firstn 3 (guessSchema (values x))) as [|t1 [|t2 [|t3 [|t4 l]]]];
    simpl in Hlen; try lia; split; reflexivity.
Qed.

(** ** The chain of the handler *)

Lemma github_loads_flat contents :
  github_loads contents = flat_map (fun s => github_loads [s]) contents.
Proof.
  induction contents as [|s contents IH]; [reflexivity|].
  change (s :: contents) with ([s] ++ contents).
  rewrite github_loads_app, IH. reflexivity.
Qed.

Lemma github_loads_one s :
  github_loads [s] =
  match parseEnumDeclaration s with
  | Some d => if 0 <? length (values d) then [load_of d] else []
  | None => []
  end.
Proof.
  unfold github_loads. cbn [map filter].
  destruct (parseEnumDeclaration s) as [d|]; [|reflexivity].
  cbn [has_values]. destruct (0 <? length (values d)); reflexivity.
Qed.

(** Every load has a row for each value of its declaration, the first
    field of its schema is the string column [key], and every row has the
    property [key]. *)
Lemma github_loads_shape contents l :
  In l (github_loads contents) ->
  exists s d, In s contents /\ parseEnumDeclaration s = Some d /\
    values d <> [] /\ l = load_of d /\
    length (rows l) = length (values d) /\
    (exists rest, schema l = mkField (VStr (str "key")) TString :: rest) /\
    Forall (fun row => exists id, is_key id /\
                         obj_get (str "key") row = Some (VStr id)) (rows l).
Proof.
  rewrite github_loads_flat. intros H. apply in_flat_map in H.
  destruct H as [s [Hs H]]. rewrite github_loads_one in H.
  destruct (parseEnumDeclaration s) as [d|] eqn:Hp; [|contradiction].
  destruct (0 <? length (values d)) eqn:Hv; [|contradiction].
  destruct H as [<-|[]]. apply Nat.ltb_lt in Hv.
  exists s, d. split; [exact Hs|]. split; [exact Hp|].
  assert (Hne : values d <> []) by (destruct (values d); [simpl in Hv; lia | discriminate]).
  pose proof (parse_values_keyed s Hp) as Hk.
  split; [exact Hne|]. split; [reflexivity|].
  unfold load_of. cbn [rows schema]. split; [|split].
  - unfold enumToBigQueryRows. apply length_map.
  - apply keyed_schema_head; assumption.
  - unfold enumToBigQueryRows. apply Forall_map.
    eapply Forall_impl; [|exact Hk]. intros t Ht.
    destruct (keyed_row_has_key Ht) as [id [Hid [_ Hget]]]. eauto.
Qed.

(** ** Lazy quantifiers: what the search has tried before its result *)

Lemma compile_Seq s ml a b x c :
  compile s ml (Seq a b) x c = compile s ml a x (fun y => compile s ml b y c).
Proof. reflexivity. Qed.

Lemma compile_Group s ml n r x c :
  compile s ml (Group n r) x c =
  compile s ml r x (fun y => c (set_capture n (endIndex x, endIndex y) y)).
Proof. reflexivity. Qed.

Lemma compile_Repeat s ml r min max greedy x c :
  compile s ml (Repeat r min max greedy) x c =
  RepeatMatcher (repeat_fuel s min x) (compile s ml r) min max greedy (groups r) x c.
Proof. reflexivity. Qed.

Lemma compile_Char s ml cs x c :
  compile s ml (Char cs) x c =
  match nth_error s (endIndex x) with
  | Some a => if cset_mem cs a then c (advance x) else None
  | None => None
  end.
Proof. reflexivity. Qed.

(** One turn of a lazy unbounded quantifier. *)
Lemma RepeatMatcher_lazy fuel m ps x c :
  RepeatMatcher (S fuel) m 0 None false ps x c =
  orelse (c x)
    (fun _ => m (clear_captures ps x)
       (fun y => if endIndex y =? endIndex x then None
                 else RepeatMatcher fuel m 0 None false ps y c)).
Proof. reflexivity. Qed.

(** A lazy star over one character set stops at the first position at
    which its continuation succeeds. *)
Lemma star_lazy_char s ml cs (c : cont) z :
  forall fuel x,
    RepeatMatcher fuel (compile s ml (Char cs)) 0 None false [] x c = Some z ->
    exists run, at_index run s (endIndex x) /\ all_in cs run /\
      c (at_pos x (length run)) = Some z /\
      forall j, j < length run -> c (at_pos x j) = None.
Proof.
  induction fuel as [|fuel IH]; intros x H; [discriminate|].
  rewrite RepeatMatcher_lazy in H. apply orelse_Some in H.
  destruct H as [H | [Hnone H]].
  - exists []. split; [apply at_index_nil|]. split; [constructor|].
    unfold at_pos. cbn [length]. rewrite state_add_0. split; [exact H|].
    intros j Hj. lia.
  - rewrite compile_Char in H.
    unfold clear_captures in H. cbn [fold_right endIndex captures] in H.
    destruct (nth_error s (endIndex x)) as [a|] eqn:Ha; [|discriminate].
    destruct (cset_mem cs a) eqn:Hcs; [|discriminate].
    cbn [advance endIndex captures] in H.
    replace (S (endIndex x) =? endIndex x) with false in H
      by (symmetry; apply Nat.eqb_neq; lia).
    apply IH in H. destruct H as [run [Hat [Hall [Hc Hj]]]].
    cbn [endIndex] in Hat.
    exists (a :: run). split; [apply at_index_cons; assumption|].
    split; [constructor; assumption|].
    unfold at_pos in *. cbn [endIndex captures length] in *.
    split.
    + replace (endIndex x + S (length run)) with (S (endIndex x) + length run) by lia.
      exact Hc.
    + intros [|j] Hlt.
      * rewrite state_add_0. exact Hnone.
      * replace (endIndex x + S j) with (S (endIndex x) + j) by lia.
        apply Hj. lia.
Qed.

Lemma at_pos_at_pos x n m : at_pos (at_pos x n) m = at_pos x (n + m).
Proof. unfold at_pos. cbn [endIndex captures]. f_equal. lia. Qed.

Lemma at_pos_advance x n : at_pos (advance x) n = at_pos x (S n).
Proof. unfold at_pos, advance. cbn [endIndex captures]. f_equal. lia. Qed.

Lemma at_pos_0 x : at_pos x 0 = x.
Proof. apply state_add_0. Qed.

(** A lazy star over lines stops at the first position at which its
    continuation succeeds. *)
Lemma star_lazy_lines s ml (c : cont) z :
  forall fuel x,
    RepeatMatcher fuel (compile s ml line_body) 0 None false [] x c = Some z ->
    exists sec, at_index sec s (endIndex x) /\ section_lines sec /\
      c (at_pos x (length sec)) = Some z /\
      forall j, j < length sec -> c (at_pos x j) = None.
Proof.
  induction fuel as [|fuel IH]; intros x H; [discriminate|].
  rewrite RepeatMatcher_lazy in H. apply orelse_Some in H.
  destruct H as [H | [Hnone H]].
  - exists []. split; [apply at_index_nil|]. split; [constructor|].
    cbn [length]. rewrite at_pos_0. split; [exact H|].
    intros j Hj. lia.
  - unfold line_body in H at 1. rewrite compile_Seq, compile_Char in H.
    unfold clear_captures in H. cbn [fold_right endIndex captures] in H.
    destruct (nth_error s (endIndex x)) as [a|] eqn:Ha; [|discriminate].
    destruct (cset_mem (CChar 10%N) a) eqn:Hcs; [|discriminate].
    cbn [cset_mem] in Hcs. apply N.eqb_eq in Hcs. subst a.
    unfold StarLazy in H. rewrite compile_Repeat in H.
    cbn [groups] in H.
    apply star_lazy_char in H. destruct H as [run [Hat [Hall [Hc Hj]]]].
    rewrite at_pos_advance in Hc.
    assert (Hfuel : fuel <> 0).
    { intros ->. 
      destruct (endIndex (at_pos {| endIndex := endIndex x; captures := captures x |} (S (length run))) =? endIndex x);
        discriminate. }
    unfold at_pos in Hc at 1. cbn [endIndex captures] in Hc.
    replace (endIndex x + S (length run) =? endIndex x) with false in Hc
      by (symmetry; apply Nat.eqb_neq; lia).
    apply IH in Hc. destruct Hc as [sec [Hat' [Hlines [Hc Hj']]]].
    cbn [endIndex advance] in Hat, Hat'.
    exists (10%N :: run ++ sec). split.
    { apply at_index_cons; [exact Ha|]. apply at_index_app; [exact Hat|].
      replace (S (endIndex x) + length run) with (endIndex x + S (length run)) by lia.
      exact Hat'. }
    split; [constructor; assumption|].
    rewrite at_pos_at_pos in Hc.
    assert (Ex : forall n, at_pos {| endIndex := endIndex x; captures := captures x |} n = at_pos x n)
      by reflexivity.
    rewrite Ex in Hc. cbn [length]. rewrite length_app.
    split; [replace (S (length run + length sec)) with (S (length run) + length sec) by lia;
            exact Hc|].
    intros j Hlt.
    destruct j as [|j]; [rewrite at_pos_0; exact Hnone|].
    destruct (Nat.lt_ge_cases j (length run)) as [Hjr|Hjr].
    + specialize (Hj j Hjr). rewrite at_pos_advance, Ex in Hj.
      unfold at_pos in Hj at 1. cbn [endIndex] in Hj.
      replace (endIndex x + S j =? endIndex x) with false in Hj
        by (symmetry; apply Nat.eqb_neq; lia).
      destruct fuel as [|fuel']; [congruence|].
      rewrite RepeatMatcher_lazy in Hj.
      destruct (c (at_pos x (S j))) eqn:Ec; [discriminate | reflexivity].
    + specialize (Hj' (j - length run)).
      rewrite at_pos_at_pos, Ex in Hj'.
      replace (S (length run) + (j - length run)) with (S j) in Hj' by lia.
      apply Hj'. lia.
Qed.

Lemma repeat_fuel_pos s min x : repeat_fuel s min x <> 0.
Proof. unfold repeat_fuel. lia. Qed.

Lemma at_index_nth pat s i j a :
  at_index pat s i -> nth_error pat j = Some a -> nth_error s (i + j) = Some a.
Proof.
  intros [post Hp] Hj. rewrite <- nth_error_skipn, Hp.
  rewrite nth_error_app1; [exact Hj|]. apply nth_error_Some. congruence.
Qed.

Lemma not_In_nth (l : jsstring) a :
  (forall j, j < length l -> nth_error l j <> Some a) -> ~ In a l.
Proof.
  intros H Hin. apply In_nth_error in Hin. destruct Hin as [j Hj].
  apply (H j); [|exact Hj]. apply nth_error_Some. congruence.
Qed.

(** The anatomy of a match of the declaration pattern: [" enum "], the
    name, the rest of its line, the lines of the value section, and the
    first [;] after the name. *)
Lemma whole_enum_structure s i y :
  match_at re_whole_enum s i = Some y ->
  exists enum_name rest section,
    at_index (str " enum " ++ enum_name ++ rest ++ section ++ [chr ";"]) s i /\
    enum_name <> [] /\ all_in (CNot CSpace) enum_name /\
    all_in CDot rest /\ ~ In (chr ";") rest /\
    section_lines section /\ ~ In (chr ";") section /\
    match_array s i y =
      [VStr (str " enum " ++ enum_name ++ rest ++ section ++ [chr ";"]);
       VStr enum_name; VStr section].
Proof.
  unfold match_at.
  change (pattern re_whole_enum) with
    (Seq (lit " enum ")
      (Seq (Group 1 (Plus (Char (CNot CSpace))))
        (Seq (StarLazy (Char CDot))
          (Seq (Group 2 (StarLazy line_body)) (ch ";"))))).
  change (multiline_flag re_whole_enum) with true.
  change (nCaps re_whole_enum) with 2.
  intros H.
  rewrite compile_Seq in H. apply compile_sound in H.
  destruct H as [z1 [Hlit H]].
  apply Matches_lit_inv in Hlit. destruct Hlit as [Hat ->].
  cbn [endIndex captures length list_ascii_of_string] in *.
  rewrite compile_Seq in H. apply compile_sound in H.
  destruct H as [z2 [HG1 H]].
  cbn [Matches] in HG1. destruct HG1 as [z [Hname ->]].
  apply (@Rep_Char_inv s true (CNot CSpace)) in Hname.
  destruct Hname as [enum_name [Hat1 [Hall1 [Hlen1 ->]]]].
  cbn [endIndex captures set_capture] in *.
  rewrite compile_Seq in H. unfold StarLazy in H at 1.
  rewrite compile_Repeat in H. cbn [groups] in H.
  apply star_lazy_char in H.
  destruct H as [rest [Hat2 [Hall2 [H Hrest]]]].
  cbn [endIndex captures] in Hat2.
  unfold at_pos in H, Hrest. cbn [endIndex captures set_capture] in H, Hrest, Hat2.
  (* the continuation of the header: the value section and the terminator *)
  set (caps := upd 1 (Some (i + 6, i + 6 + length enum_name)) (repeat None 3)) in *.
  assert (Hk : forall n z,
    compile s true (Seq (Group 2 (StarLazy line_body)) (ch ";"))
      (mkState n caps) (fun y => Some y) = z ->
    z = RepeatMatcher (repeat_fuel s 0 (mkState n caps)) (compile s true line_body)
          0 None false [] (mkState n caps)
          (fun y' => compile s true (ch ";")
             (set_capture 2 (n, endIndex y') y') (fun y => Some y))).
  { intros n z0 <-. reflexivity. }
  assert (Hsemi : forall n m,
    compile s true (ch ";") (set_capture 2 (n, m) (mkState m caps)) (fun y => Some y) = None ->
    nth_error s m <> Some (chr ";")).
  { intros n m E Hn. unfold ch in E. rewrite compile_Char in E.
    cbn [set_capture endIndex] in E. rewrite Hn in E.
    cbn [cset_mem] in E. rewrite N.eqb_refl in E. discriminate. }
  assert (Hno_rest : ~ In (chr ";") rest).
  { apply not_In_nth. intros j Hj Hn.
    specialize (Hrest j Hj). apply Hk in Hrest. symmetry in Hrest.
    destruct (repeat_fuel s 0 {| endIndex := i + 6 + length enum_name + j; captures := caps |})
      as [|f] eqn:Ef; [exact (repeat_fuel_pos Ef)|].
    rewrite RepeatMatcher_lazy in Hrest.
    match type of Hrest with orelse ?a _ = None => destruct a eqn:Ea; [discriminate|] end.
    cbn [endIndex] in Ea. apply Hsemi in Ea. apply Ea.
    exact (at_index_nth _ Hat2 Hn). }
  apply Hk in H. symmetry in H.
  apply star_lazy_lines in H.
  destruct H as [section [Hat3 [Hlines [H Hsec]]]].
  cbn [endIndex captures] in Hat3.
  unfold at_pos in H, Hsec. cbn [endIndex captures] in H, Hsec.
  assert (Hno_sec : ~ In (chr ";") section).
  { apply not_In_nth. intros j Hj Hn.
    specialize (Hsec j Hj). apply Hsemi in Hsec. apply Hsec.
    exact (at_index_nth _ Hat3 Hn). }
  unfold ch in H. rewrite compile_Char in H. cbn [set_capture endIndex captures] in H.
  destruct (nth_error s (i + 6 + length enum_name + length rest + length section))
    as [a|] eqn:Ha; [|discriminate].
  destruct (cset_mem (CChar (chr ";")) a) eqn:Hcs; [|discriminate].
  cbn [cset_mem] in Hcs. apply N.eqb_eq in Hcs. subst a.
  inversion H; subst y. clear H.
  assert (Hwhole : at_index (str " enum " ++ enum_name ++ rest ++ section ++ [chr ";"]) s i).
  { apply at_index_app; [exact Hat|]. 
    change (length (str " enum ")) with 6.
    apply at_index_app; [exact Hat1|].
    apply at_index_app; [exact Hat2|].
    apply at_index_app; [exact Hat3|].
    apply at_index_cons; [exact Ha | apply at_index_nil]. }
  exists enum_name, rest, section.
  split; [exact Hwhole|].
  split; [destruct enum_name; [simpl in Hlen1; lia | discriminate]|].
  repeat (split; [assumption|]).
  unfold match_array, advance. cbn [endIndex captures set_capture].
  f_equal.
  - f_equal. rewrite <- (substring_at_index Hwhole). f_equal.
    rewrite !length_app. change (length (str " enum ")) with 6. cbn [length]. lia.
  - subst caps. cbn [upd repeat tl map capture_value Nat.eqb].
    rewrite (substring_at_index Hat1), (substring_at_index Hat3).
    reflexivity.
Qed.

(** ** Snake case *)

Lemma match_at_upper s q :
  match_at re_upper_ahead s q =
  match nth_error s q with
  | Some c => if is_upper c then Some (mkState q (repeat None 1)) else None
  | None => None
  end.
Proof.
  unfold match_at. cbn [pattern re_upper_ahead multiline_flag nCaps compile endIndex captures].
  destruct (nth_error s q) as [c|]; [|reflexivity].
  cbn [cset_mem]. unfold is_upper. change (chr "A") with 65%N. change (chr "Z") with 90%N.
  destruct (N.leb 65 c && N.leb c 90)%bool; reflexivity.
Qed.

Lemma substring_snoc (s : jsstring) p q c :
  p <= q -> nth_error s q = Some c ->
  substring s p (S q) = substring s p q ++ [c].
Proof.
  intros Hpq Hc. unfold substring.
  replace (S q - p) with (S (q - p)) by lia.
  assert (Hn : nth_error (skipn p s) (q - p) = Some c).
  { rewrite nth_error_skipn. replace (p + (q - p)) with q by lia. exact Hc. }
  revert Hn. generalize (skipn p s) (q - p). clear.
  intros l n. revert l. induction n as [|n IH]; intros [|a l] H; simpl in *; try discriminate.
  - inversion H. reflexivity.
  - f_equal. apply IH. exact H.
Qed.

Lemma substring_one (s : jsstring) q c :
  nth_error s q = Some c -> substring s q (S q) = [c].
Proof.
  intros Hc. rewrite (@substring_snoc s q q c) by (auto; lia).
  unfold substring. rewrite Nat.sub_diag. reflexivity.
Qed.

Lemma split_loop_chunks s :
  forall fuel p q A,
    p <= q -> q <= length s -> (p = q -> q < length s) ->
    2 * (length s - q) + (if p <? q then 1 else 0) < fuel ->
    split_loop fuel re_upper_ahead s p q A =
    A ++ map VStr
      (if p <? q then chunks (substring s p q) (skipn q s)
       else match skipn q s with
            | c :: t => chunks [c] t
            | [] => []
            end).
Proof.
  induction fuel as [|fuel IH]; intros p q A Hpq Hq Hp Hf; [lia|].
  cbn [split_loop].
  destruct (q <? length s) eqn:Hlt.
  - apply Nat.ltb_lt in Hlt.
    destruct (nth_error s q) as [c|] eqn:Hc;
      [|apply nth_error_None in Hc; lia].
    rewrite (skipn_nth_cons s q Hc).
    assert (Hnext : split_loop fuel re_upper_ahead s p (S q) A =
                    A ++ map VStr (chunks (substring s p (S q)) (skipn (S q) s))).
    { rewrite IH; try lia.
      - replace (p <? S q) with true by (symmetry; apply Nat.ltb_lt; lia). reflexivity.
      - replace (p <? S q) with true by (symmetry; apply Nat.ltb_lt; lia).
        destruct (p <? q); lia. }
    rewrite match_at_upper, Hc.
    destruct (is_upper c) eqn:Hu.
    + cbn [endIndex captures tl map repeat].
      rewrite Nat.min_l by lia.
      destruct (q =? p) eqn:Hqp.
      * apply Nat.eqb_eq in Hqp. subst q. rewrite Nat.ltb_irrefl.
        rewrite Hnext, (@substring_one s _ _ Hc). reflexivity.
      * apply Nat.eqb_neq in Hqp.
        replace (p <? q) with true by (symmetry; apply Nat.ltb_lt; lia).
        rewrite IH; try lia.
        -- rewrite Nat.ltb_irrefl, (skipn_nth_cons s q Hc).
           cbn [chunks]. rewrite Hu. cbn [map]. rewrite <- app_assoc. reflexivity.
        -- rewrite Nat.ltb_irrefl.
           replace (p <? q) with true in Hf by (symmetry; apply Nat.ltb_lt; lia). lia.
    + rewrite Hnext. f_equal. f_equal.
      destruct (p <? q) eqn:Hpq'.
      * apply Nat.ltb_lt in Hpq'. cbn [chunks]. rewrite Hu.
        rewrite (@substring_snoc s p q c) by (auto; lia). reflexivity.
      * apply Nat.ltb_ge in Hpq'. assert (p = q) by lia. subst q.
        rewrite (@substring_one s _ _ Hc). reflexivity.
  - apply Nat.ltb_ge in Hlt. assert (q = length s) by lia. subst q.
    assert (Hpl : p < length s) by (destruct (Nat.eq_dec p (length s)); [apply Hp in e|]; lia).
    replace (p <? length s) with true by (symmetry; apply Nat.ltb_lt; lia).
    rewrite skipn_all. reflexivity.
Qed.

Lemma split_upper_chunks c t :
  split re_upper_ahead (c :: t) = map VStr (chunks [c] t).
Proof.
  unfold split.
  rewrite split_loop_chunks; cbn [length Nat.ltb Nat.leb]; try lia.
  reflexivity.
Qed.

Lemma chunks_nonempty cur s : chunks cur s <> [].
Proof.
  revert cur. induction s as [|c t IH]; intros cur; cbn [chunks]; [discriminate|].
  destruct (is_upper c); [discriminate | apply IH].
Qed.

Lemma join_cons sep v a :
  a <> [] -> join sep (v :: a) = join_elem v ++ sep ++ join sep a.
Proof. destruct a; [congruence | reflexivity]. Qed.

Lemma lower_not_upper c : is_upper c = false -> lower_unit c = c.
Proof. unfold lower_unit, is_upper. intros ->. reflexivity. Qed.

Lemma join_chunks cur s :
  toLowerCase (join (str "_") (map VStr (chunks cur s))) =
  map lower_unit cur ++ snake_tail s.
Proof.
  revert cur. induction s as [|c t IH]; intros cur; cbn [chunks snake_tail].
  - cbn [map join join_elem ToString]. unfold toLowerCase. symmetry. apply List.app_nil_r.
  - destruct (is_upper c) eqn:Hu.
    + cbn [map]. rewrite join_cons.
      2:{ intros E. apply map_eq_nil in E. exact (chunks_nonempty _ _ E). }
      cbn [join_elem ToString]. unfold toLowerCase in *.
      rewrite !map_app, IH. reflexivity.
    + rewrite IH, map_app. cbn [map]. rewrite (lower_not_upper _ Hu), <- app_assoc.
      reflexivity.
Qed.

(** [camelToSnakeCase] computes the one-pass snake case. *)
Lemma camelToSnakeCase_snake s : camelToSnakeCase s = snake_case s.
Proof.
  unfold camelToSnakeCase. destruct s as [|c t]; [reflexivity|].
  rewrite split_upper_chunks, join_chunks. reflexivity.
Qed.

Lemma lower_unit_not_upper c : is_upper (lower_unit c) = false.
Proof.
  unfold lower_unit, is_upper.
  destruct (N.leb 65 c && N.leb c 90)%bool eqn:E.
  - apply andb_true_iff in E. destruct E as [E1 E2].
    apply N.leb_le in E1, E2. apply andb_false_iff. right. apply N.leb_gt. lia.
  - exact E.
Qed.

Lemma snake_tail_no_upper s : Forall (fun c => is_upper c = false) (snake_tail s).
Proof.
  induction s as [|c t IH]; cbn [snake_tail]; [constructor|].
  destruct (is_upper c) eqn:Hu; cbn [app].
  - constructor; [reflexivity|]. constructor; [apply lower_unit_not_upper | exact IH].
  - constructor; assumption.
Qed.

Lemma snake_case_no_upper s : Forall (fun c => is_upper c = false) (snake_case s).
Proof.
  destruct s as [|c t]; [constructor|]. cbn [snake_case].
  constructor; [apply lower_unit_not_upper | apply snake_tail_no_upper].
Qed.

Lemma snake_tail_fixed s : Forall (fun c => is_upper c = false) s -> snake_tail s = s.
Proof.
  induction 1 as [|c t Hc _ IH]; cbn [snake_tail]; [reflexivity|].
  rewrite Hc, IH. reflexivity.
Qed.

Lemma snake_case_fixed s : Forall (fun c => is_upper c = false) s -> snake_case s = s.
Proof.
  intros H. destruct H as [|c t Hc Ht]; [reflexivity|]. cbn [snake_case].
  rewrite (lower_not_upper _ Hc), (snake_tail_fixed Ht). reflexivity.
Qed.

Lemma snake_tail_length s :
  length (snake_tail s) = length s + length (filter is_upper s).
Proof.
  induction s as [|c t IH]; [reflexivity|]. cbn [snake_tail filter].
  rewrite length_app, IH. destruct (is_upper c); cbn [length]; lia.
Qed.

(** ** The file filter *)

Lemma enum_source_match s i :
  match_at re_enum_source s i <> None <->
  exists mid c,
    all_in CDot mid /\ cset_mem CDot c = true /\
    at_index (str "enums/" ++ mid ++ c :: str "java") s i.
Proof.
  split.
  - intros H. destruct (match_at re_enum_source s i) as [y|] eqn:E;
      [clear H | congruence].
    apply match_at_sound in E.
    cbn [pattern re_enum_source multiline_flag nCaps seq_of] in E.
    cbn [Matches] in E. fold (Matches s false) in E.
    destruct E as [z1 [Hlit [z2 [Hmid [z3 [Hc Hjava]]]]]].
    apply Matches_lit_inv in Hlit. destruct Hlit as [Hat ->].
    apply (@Rep_Char_inv s false CDot) in Hmid.
    destruct Hmid as [mid [Hatmid [Hmid [_ ->]]]].
    destruct Hc as [c [Hc [Hcs ->]]].
    apply Matches_lit_inv in Hjava. destruct Hjava as [Hatj _].
    cbn [endIndex captures advance length list_ascii_of_string] in *.
    exists mid, c. split; [exact Hmid|]. split; [exact Hcs|].
    apply at_index_app; [exact Hat|].
    change (length (str "enums/")) with 6.
    apply at_index_app; [exact Hatmid|].
    apply at_index_cons; [exact Hc|].
    replace (S (i + 6 + length mid)) with (S (i + 6 + length mid)) by lia.
    exact Hatj.
  - intros [mid [c [Hmid [Hcs Hat]]]].
    apply at_index_app_inv in Hat. destruct Hat as [Hat Hat1].
    change (length (str "enums/")) with 6 in Hat1.
    apply at_index_app_inv in Hat1. destruct Hat1 as [Hatmid Hat2].
    apply at_index_cons_inv in Hat2. destruct Hat2 as [Hc Hatj].
    set (x0 := mkState i (repeat None (S (nCaps re_enum_source)))).
    set (x1 := mkState (endIndex x0 + 6) (captures x0)).
    set (x2 := mkState (endIndex x1 + length mid) (captures x1)).
    set (x3 := advance x2).
    set (x4 := mkState (endIndex x3 + 4) (captures x3)).
    apply match_at_complete with (y := x4); [reflexivity|].
    cbn [pattern re_enum_source multiline_flag nCaps seq_of].
    cbn [Matches]. fold (Matches s false).
    exists x1. split.
    { apply (@Matches_lit_intro s false (list_ascii_of_string "enums/") x0). exact Hat. }
    exists x2. split.
    { apply (@Rep_Char_intro s false CDot mid 0 x1 Hatmid Hmid (Nat.le_0_l _)). }
    exists x3. split.
    { exists c. split; [exact Hc|]. split; [exact Hcs | reflexivity]. }
    apply (@Matches_lit_intro s false (list_ascii_of_string "java") x3). exact Hatj.
Qed.

Lemma enum_source_spec p :
  fst (exec re_enum_source p 0) <> None <-> enum_source_path p.
Proof.
  unfold enum_source_path. split.
  - intros H.
    destruct (exec re_enum_source p 0) as [[m|] li] eqn:E; [|simpl in H; congruence].
    apply exec_Some in E. destruct E as [i [y [Hm _]]].
    assert (Hm' : match_at re_enum_source p i <> None) by congruence.
    apply enum_source_match in Hm'. destruct Hm' as [mid [c [Hmid [Hcs Hat]]]].
    exists (firstn i p), mid, c,
      (skipn (i + length (str "enums/" ++ mid ++ c :: str "java")) p).
    split; [|auto].
    rewrite (at_index_split Hat) at 1.
    simpl. rewrite <- ?app_assoc. reflexivity.
  - intros [pre [mid [c [post [E [Hmid Hcs]]]]]].
    apply exec_complete with (i := length pre).
    + simpl. subst p. rewrite length_app. lia.
    + apply enum_source_match. exists mid, c.
      split; [exact Hmid|]. split; [exact Hcs|].
      replace p with (pre ++ (str "enums/" ++ mid ++ c :: str "java") ++ post).
      * apply at_index_of_split.
      * subst p. simpl. rewrite <- ?app_assoc. reflexivity.
Qed.

Lemma isEnumSourceFile_spec o :
  isEnumSourceFile o = true <-> type o = str "blob" /\ enum_source_path (path o).
Proof.
  unfold isEnumSourceFile. rewrite andb_true_iff, jsstring_eqb_eq, <- enum_source_spec.
  destruct (fst (exec re_enum_source (path o) 0)); split; intros [H1 H2];
    split; congruence || discriminate.
Qed.

(** The anatomy of a parsed source: the name is the run of non-blank
    characters after the first usable [" enum "], the value section is
    made of whole lines, and the [;] that ends it is the first one after
    the name. *)
Lemma parse_anatomy s d :
  parseEnumDeclaration s = Some d ->
  exists pre enum_name rest section post,
    s = pre ++ str " enum " ++ enum_name ++ rest ++ section ++ chr ";" :: post /\
    name d = VStr enum_name /\ values d = parse_value_section section /\
    enum_name <> [] /\ all_in (CNot CSpace) enum_name /\
    all_in CDot rest /\ ~ In (chr ";") rest /\
    section_lines section /\ ~ In (chr ";") section.
Proof.
  unfold parseEnumDeclaration.
  destruct (exec re_whole_enum s 0) as [[m|] li] eqn:E; cbn [fst]; [|discriminate].
  intros H. inversion H; subst d; clear H. cbn [name values].
  apply exec_Some in E. destruct E as [i [y [Hm [_ [_ [_ [-> _]]]]]]].
  apply whole_enum_structure in Hm.
  destruct Hm as [enum_name [rest [section [Hat [Hne [Hn [Hr [Hnr [Hl [Hns ->]]]]]]]]]].
  exists (firstn i s), enum_name, rest, section,
    (skipn (i + length (str " enum " ++ enum_name ++ rest ++ section ++ [chr ";"])) s).
  split.
  { rewrite (at_index_split Hat) at 1. simpl. rewrite <- ?app_assoc. reflexivity. }
  split; [reflexivity|]. split; [reflexivity|].
  repeat (split; [assumption|]). assumption.
Qed.

Lemma no_bare_lf_before b pre x post :
  no_bare_lf b (pre ++ x :: 10%N :: post) = true -> x = 13%N.
Proof.
  revert b. induction pre as [|a pre IH]; intros b H.
  - cbn [app no_bare_lf] in H.
    destruct (N.eqb x 10) eqn:Ex.
    + rewrite N.eqb_refl in H. cbn [andb] in H.
      rewrite andb_false_r in H. discriminate.
    + rewrite N.eqb_refl in H. apply andb_true_iff in H. destruct H as [H _].
      apply N.eqb_eq in H. exact H.
  - cbn [app no_bare_lf] in H. destruct (N.eqb a 10).
    + apply andb_true_iff in H. destruct H as [_ H]. exact (IH _ H).
    + exact (IH _ H).
Qed.

Lemma last_split (l : jsstring) : l <> [] -> exists l' x, l = l' ++ [x].
Proof.
  intros H. destruct (exists_last H) as [l' [x E]]. eauto.
Qed.

Lemma parse_value_section_nil : parse_value_section [] = [].
Proof. reflexivity. Qed.

(** A source in which every line feed follows a carriage return has no
    value section. *)
Lemma parse_crlf s d :
  no_bare_lf false s = true -> parseEnumDeclaration s = Some d -> values d = [].
Proof.
  intros Hs Hp. apply parse_anatomy in Hp.
  destruct Hp as [pre [enum_name [rest [section [post
    [E [_ [-> [Hne [Hn [Hr [_ [Hl _]]]]]]]]]]]]].
  destruct Hl as [|line t Hline Ht]; [apply parse_value_section_nil|].
  exfalso.
  assert (Hnr : enum_name ++ rest <> []) by (destruct enum_name; [congruence | discriminate]).
  destruct (@last_split _ Hnr) as [l' [x El]].
  assert (Hx : x <> 13%N).
  { assert (Hin : In x (enum_name ++ rest)) by (rewrite El; apply in_or_app; right; left; reflexivity).
    apply in_app_or in Hin. destruct Hin as [Hin|Hin].
    - unfold all_in in Hn. rewrite Forall_forall in Hn. specialize (Hn x Hin).
      intros ->. discriminate.
    - unfold all_in in Hr. rewrite Forall_forall in Hr. specialize (Hr x Hin).
      intros ->. discriminate. }
  assert (E2 : s = (pre ++ str " enum " ++ l') ++
                   x :: 10%N :: line ++ t ++ chr ";" :: post).
  { rewrite E, (app_assoc enum_name rest), El.
    rewrite <- ?app_assoc. cbn [app]. rewrite <- ?app_assoc. reflexivity. }
  rewrite E2 in Hs. apply Hx. exact (@no_bare_lf_before _ _ _ _ Hs).
Qed.

Lemma github_loads_crlf contents :
  Forall (fun s => no_bare_lf false s = true) contents -> github_loads contents = [].
Proof.
  induction 1 as [|s contents Hs _ IH]; [reflexivity|].
  change (s :: contents) with ([s] ++ contents).
  rewrite github_loads_app, IH, github_loads_one, List.app_nil_r.
  destruct (parseEnumDeclaration s) as [d|] eqn:Hp; [|reflexivity].
  rewrite (@parse_crlf _ _ Hs Hp). reflexivity.
Qed.

(** A text without line feed is one of them. *)
Lemma no_lf_no_bare_lf s b : ~ In 10%N s -> no_bare_lf b s = true.
Proof.
  revert b. induction s as [|c t IH]; intros b H; [reflexivity|].
  cbn [no_bare_lf]. destruct (N.eqb_spec c 10) as [->|_].
  - exfalso. apply H. left. reflexivity.
  - apply IH. intros Hin. apply H. right. exact Hin.
Qed.

(** ** Table names *)

Ltac blank_cases :=
  repeat match goal with
         | |- context [N.eqb ?a ?b] => destruct (N.eqb_spec a b); [lia|]
         end;
  repeat match goal with
         | |- context [N.leb ?a ?b] => destruct (N.leb_spec a b)
         end;
  cbn [andb orb negb]; try lia; try reflexivity.

Lemma upper_not_blank c :
  is_upper c = true -> is_white_space c = false /\ is_white_space (c + 32)%N = false.
Proof.
  unfold is_upper. intros H. apply andb_true_iff in H. destruct H as [H1 H2].
  apply N.leb_le in H1, H2. unfold is_white_space. split; blank_cases.
Qed.

Lemma lower_unit_blank c : is_white_space (lower_unit c) = is_white_space c.
Proof.
  unfold lower_unit. fold (is_upper c). destruct (is_upper c) eqn:Hu; [|reflexivity].
  destruct (@upper_not_blank _ Hu) as [-> ->]. reflexivity.
Qed.

Lemma snake_tail_not_blank s :
  all_in (CNot CSpace) s -> all_in (CNot CSpace) (snake_tail s).
Proof.
  unfold all_in. induction 1 as [|c t Hc _ IH]; cbn [snake_tail]; [constructor|].
  destruct (is_upper c) eqn:Hu; cbn [app].
  - constructor; [reflexivity|]. constructor; [|exact IH].
    cbn [cset_mem] in *. rewrite lower_unit_blank. exact Hc.
  - constructor; assumption.
Qed.

Lemma snake_case_not_blank s :
  all_in (CNot CSpace) s -> all_in (CNot CSpace) (snake_case s).
Proof.
  intros H. destruct H as [|c t Hc Ht]; [constructor|]. cbn [snake_case].
  constructor; [|apply snake_tail_not_blank; exact Ht].
  cbn [cset_mem] in *. rewrite lower_unit_blank. exact Hc.
Qed.

(** The table of a load is named by the snake case of the declared name:
    the name is not empty and has neither blanks nor upper-case letters. *)
Lemma github_loads_table_id contents l :
  In l (github_loads contents) ->
  exists s d enum_name,
    In s contents /\ parseEnumDeclaration s = Some d /\ name d = VStr enum_name /\
    table_id l = snake_case enum_name /\
    table_id l <> [] /\
    all_in (CNot CSpace) (table_id l) /\
    Forall (fun c => is_upper c = false) (table_id l).
Proof.
  rewrite github_loads_flat. intros H. apply in_flat_map in H.
  destruct H as [s [Hs H]]. rewrite github_loads_one in H.
  destruct (parseEnumDeclaration s) as [d|] eqn:Hp; [|contradiction].
  destruct (0 <? length (values d)) eqn:Hv; [|contradiction].
  destruct H as [<-|[]].
  destruct (@parse_anatomy _ _ Hp) as [pre [enum_name [rest [section [post
    [_ [Hname [_ [Hne [Hn _]]]]]]]]]].
  exists s, d, enum_name. split; [exact Hs|]. split; [exact Hp|].
  split; [exact Hname|].
  unfold load_of. cbn [table_id]. rewrite Hname. cbn [ToString].
  rewrite camelToSnakeCase_snake.
  split; [reflexivity|]. split.
  { destruct enum_name; [congruence | discriminate]. }
  split; [apply snake_case_not_blank; exact Hn | apply snake_case_no_upper].
Qed.

Lemma Rep_lines_intro s ml sec :
  section_lines sec ->
  forall x, at_index sec s (endIndex x) ->
    Rep (Matches s ml line_body) [] 0 None x
        (mkState (endIndex x + length sec) (captures x)).
Proof.
  induction 1 as [|line t Hline Ht IH]; intros x Hat.
  - cbn [length]. rewrite state_add_0. apply Rep_stop.
  - apply at_index_cons_inv in Hat. destruct Hat as [Ha Hat].
    apply at_index_app_inv in Hat. destruct Hat as [Hatl Hatt].
    apply Rep_step with (y := mkState (S (endIndex x) + length line) (captures x)).
    + discriminate.
    + unfold line_body. cbn [Matches]. fold (Matches s ml).
      exists (advance x). split.
      * exists 10%N. split; [exact Ha|]. split; reflexivity.
      * apply (@Rep_Char_intro s ml CDot line 0 (advance x) Hatl Hline (Nat.le_0_l _)).
    + intros _. cbn [endIndex]. lia.
    + cbn [pred option_map].
      specialize (IH (mkState (S (endIndex x) + length line) (captures x)) Hatt).
      cbn [endIndex captures] in IH. cbn [length]. rewrite length_app.
      replace (endIndex x + S (length line + length t))
        with (S (endIndex x) + length line + length t) by lia.
      exact IH.
Qed.

(** Every source of the shape of [whole_enum_structure] is parsed. *)
Lemma parse_complete pre enum_name rest section post :
  enum_name <> [] -> all_in (CNot CSpace) enum_name ->
  all_in CDot rest -> section_lines section ->
  parseEnumDeclaration
    (pre ++ str " enum " ++ enum_name ++ rest ++ section ++ chr ";" :: post) <> None.
Proof.
  intros Hne Hn Hr Hl.
  set (s := pre ++ str " enum " ++ enum_name ++ rest ++ section ++ chr ";" :: post).
  rewrite parse_None_iff.
  assert (Hat : at_index (str " enum " ++ enum_name ++ rest ++ section ++ [chr ";"]) s
                  (length pre)).
  { replace s with (pre ++ (str " enum " ++ enum_name ++ rest ++ section ++ [chr ";"]) ++ post).
    - apply at_index_of_split.
    - subst s. rewrite <- ?app_assoc. cbn [app]. rewrite <- ?app_assoc. reflexivity. }
  apply exec_complete with (i := length pre).
  { cbn [global re_whole_enum]. subst s. rewrite length_app. lia. }
  apply at_index_app_inv in Hat. destruct Hat as [Hat0 Hat].
  change (length (str " enum ")) with 6 in Hat.
  apply at_index_app_inv in Hat. destruct Hat as [Hat1 Hat].
  apply at_index_app_inv in Hat. destruct Hat as [Hat2 Hat].
  apply at_index_app_inv in Hat. destruct Hat as [Hat3 Hat].
  apply at_index_cons_inv in Hat. destruct Hat as [Hsemi _].
  set (i := length pre) in *.
  set (x0 := mkState i (repeat None (S (nCaps re_whole_enum)))).
  set (x1 := mkState (endIndex x0 + 6) (captures x0)).
  set (z1 := mkState (endIndex x1 + length enum_name) (captures x1)).
  set (x2 := set_capture 1 (endIndex x1, endIndex z1) z1).
  set (x3 := mkState (endIndex x2 + length rest) (captures x2)).
  set (z3 := mkState (endIndex x3 + length section) (captures x3)).
  set (x4 := set_capture 2 (endIndex x3, endIndex z3) z3).
  apply match_at_complete with (y := advance x4); [reflexivity|].
  change (pattern re_whole_enum) with
    (Seq (lit " enum ")
      (Seq (Group 1 (Plus (Char (CNot CSpace))))
        (Seq (StarLazy (Char CDot))
          (Seq (Group 2 (StarLazy line_body)) (ch ";"))))).
  change (multiline_flag re_whole_enum) with true.
  cbn [Matches]. fold (Matches s true).
  exists x1. split.
  { apply (@Matches_lit_intro s true (list_ascii_of_string " enum ") x0). exact Hat0. }
  exists x2. split.
  { exists z1. split; [|reflexivity].
    apply (@Rep_Char_intro s true (CNot CSpace) enum_name 1 x1 Hat1 Hn).
    destruct enum_name; [congruence | cbn [length]; lia]. }
  exists x3. split.
  { apply (@Rep_Char_intro s true CDot rest 0 x2 Hat2 Hr (Nat.le_0_l _)). }
  exists x4. split.
  { exists z3. split; [|reflexivity].
    change (groups line_body) with (@nil nat).
    apply (@Rep_lines_intro s true section Hl x3). exact Hat3. }
  exists (chr ";"). split; [exact Hsemi|]. split; [apply N.eqb_refl | reflexivity].
Qed.

Lemma parse_iff s :
  parseEnumDeclaration s <> None <->
  exists pre enum_name rest section post,
    s = pre ++ str " enum " ++ enum_name ++ rest ++ section ++ chr ";" :: post /\
    enum_name <> [] /\ all_in (CNot CSpace) enum_name /\
    all_in CDot rest /\ section_lines section.
Proof.
  split.
  - intros H. destruct (parseEnumDeclaration s) as [d|] eqn:Hp; [|congruence].
    apply parse_anatomy in Hp.
    destruct Hp as [pre [enum_name [rest [section [post
      [E [_ [_ [Hne [Hn [Hr [_ [Hl _]]]]]]]]]]]]].
    exists pre, enum_name, rest, section, post. auto.
  - intros [pre [enum_name [rest [section [post [-> [Hne [Hn [Hr Hl]]]]]]]]].
    apply parse_complete; assumption.
Qed.

(** ** The declaration that a source is parsed as *)

Lemma compile_lit s ml (l : list ascii) (c : cont) :
  forall x, at_index (map chr l) s (endIndex x) ->
    compile s ml (seq_of (map ch l)) x c =
    c (mkState (endIndex x + length l) (captures x)).
Proof.
  induction l as [|a l IH]; intros x H.
  - cbn [map seq_of compile length]. rewrite state_add_0. reflexivity.
  - cbn [map] in H. apply at_index_cons_inv in H. destruct H as [Ha H].
    assert (Hch : forall k : cont, compile s ml (ch a) x k = k (advance x)).
    { intros k. unfold ch. rewrite compile_Char, Ha. cbn [cset_mem].
      rewrite N.eqb_refl. reflexivity. }
    specialize (IH (advance x) H).
    cbn [length]. cbn [advance endIndex captures] in IH.
    replace (endIndex x + S (length l)) with (S (endIndex x) + length l) by lia.
    destruct l as [|b l].
    + cbn [map seq_of]. rewrite Hch. cbn [length]. unfold advance.
      f_equal. f_equal. lia.
    + change (seq_of (map ch (a :: b :: l)))
        with (Seq (ch a) (seq_of (map ch (b :: l)))).
      rewrite compile_Seq, Hch. exact IH.
Qed.

(** A greedy star over one character set gives what its continuation
    gives after the longest run, when that is a result. *)
Lemma star_greedy_first s ml cs (c : cont) z :
  forall fuel x, repeat_fuel s 0 x <= fuel ->
    c (mkState (endIndex x + length (take_while cs (skipn (endIndex x) s)))
               (captures x)) = Some z ->
    RepeatMatcher fuel (compile s ml (Char cs)) 0 None true [] x c = Some z.
Proof.
  induction fuel as [|fuel IH]; intros x Hf Hc; unfold repeat_fuel in Hf; [lia|].
  cbn [RepeatMatcher Nat.eqb negb andb pred option_map].
  rewrite compile_Char. unfold clear_captures. cbn [fold_right endIndex captures].
  destruct (nth_error s (endIndex x)) as [a|] eqn:Ha.
  - rewrite (skipn_nth_cons s (endIndex x) Ha) in Hc. cbn [take_while] in Hc.
    destruct (cset_mem cs a) eqn:Hcs.
    + cbn [advance endIndex captures length] in *.
      assert (Hlt : endIndex x < length s) by (apply nth_error_Some; congruence).
      replace (S (endIndex x) =? endIndex x) with false
        by (symmetry; apply Nat.eqb_neq; lia).
      change (advance {| endIndex := endIndex x; captures := captures x |})
        with (mkState (S (endIndex x)) (captures x)).
      rewrite (IH (mkState (S (endIndex x)) (captures x))); [reflexivity | |].
      * unfold repeat_fuel. cbn [endIndex]. lia.
      * cbn [endIndex captures].
        replace (S (endIndex x) + length (take_while cs (skipn (S (endIndex x)) s)))
          with (endIndex x + S (length (take_while cs (skipn (S (endIndex x)) s))))
          by lia.
        exact Hc.
    + cbn [length] in Hc. rewrite state_add_0 in Hc. cbn [orelse]. exact Hc.
  - assert (Hge : length s <= endIndex x) by (apply nth_error_None; exact Ha).
    rewrite skipn_all2 in Hc by exact Hge. cbn [take_while length] in Hc.
    rewrite state_add_0 in Hc. cbn [orelse]. exact Hc.
Qed.

Lemma take_while_stop cs (run : jsstring) c t :
  all_in cs run -> cset_mem cs c = false -> take_while cs (run ++ c :: t) = run.
Proof.
  induction 1 as [|a run Ha _ IH]; intros Hc; cbn [app take_while].
  - rewrite Hc. reflexivity.
  - rewrite Ha, (IH Hc). reflexivity.
Qed.

(** When white space follows the name, the match of the declaration
    pattern at [i] takes the whole name. *)
Lemma whole_enum_takes_name s i enum_name rest section c t :
  at_index (str " enum " ++ enum_name ++ rest ++ section ++ [chr ";"]) s i ->
  enum_name <> [] -> all_in (CNot CSpace) enum_name ->
  all_in CDot rest -> section_lines section ->
  rest ++ section ++ [chr ";"] = c :: t -> cset_mem CSpace c = true ->
  exists y, match_at re_whole_enum s i = Some y /\
            nth_error (captures y) 1 = Some (Some (i + 6, i + 6 + length enum_name)).
Proof.
  intros Hat Hne Hn Hr Hl Hnext Hc.
  apply at_index_app_inv in Hat. destruct Hat as [Hat0 Hat].
  change (length (str " enum ")) with 6 in Hat.
  pose proof Hat as Hafter.
  apply at_index_app_inv in Hat. destruct Hat as [Hat1 Hat].
  apply at_index_app_inv in Hat. destruct Hat as [Hat2 Hat].
  apply at_index_app_inv in Hat. destruct Hat as [Hat3 Hat].
  apply at_index_cons_inv in Hat. destruct Hat as [Hsemi _].
  destruct enum_name as [|a name']; [congruence|]. clear Hne.
  inversion Hn as [|a' l' Ha Hn']; subst a' l'.
  (* the state after the name, and what follows it *)
  set (x1 := mkState (i + 6) (repeat None 3)).
  set (x2 := set_capture 1 (i + 6, i + 6 + length (a :: name'))
               (mkState (i + 6 + length (a :: name')) (repeat None 3))).
  set (tail := Seq (StarLazy (Char CDot)) (Seq (Group 2 (StarLazy line_body)) (ch ";"))).
  assert (Htail : compile s true tail x2 (fun y => Some y) <> None).
  { set (x3 := mkState (endIndex x2 + length rest) (captures x2)).
    set (z3 := mkState (endIndex x3 + length section) (captures x3)).
    set (x4 := set_capture 2 (endIndex x3, endIndex z3) z3).
    apply compile_complete with (y := advance x4); [reflexivity| |discriminate].
    unfold tail. cbn [Matches]. fold (Matches s true).
    exists x3. split.
    { apply (@Rep_Char_intro s true CDot rest 0 x2 Hat2 Hr (Nat.le_0_l _)). }
    exists x4. split.
    { exists z3. split; [|reflexivity].
      change (groups line_body) with (@nil nat).
      apply (@Rep_lines_intro s true section Hl x3). exact Hat3. }
    exists (chr ";"). split; [exact Hsemi|]. split; [apply N.eqb_refl | reflexivity]. }
  destruct (compile s true tail x2 (fun y => Some y)) as [y|] eqn:Ey; [clear Htail | congruence].
  exists y. split.
  - unfold match_at.
    change (pattern re_whole_enum) with
      (Seq (lit " enum ") (Seq (Group 1 (Plus (Char (CNot CSpace)))) tail)).
    change (multiline_flag re_whole_enum) with true.
    change (nCaps re_whole_enum) with 2.
    rewrite compile_Seq. unfold lit. rewrite compile_lit by exact Hat0.
    cbn [endIndex captures length list_ascii_of_string repeat].
    rewrite compile_Seq, compile_Group. unfold Plus. rewrite compile_Repeat.
    unfold repeat_fuel. cbn [groups endIndex].
    cbn [RepeatMatcher Nat.eqb negb andb pred option_map].
    rewrite compile_Char. unfold clear_captures. cbn [fold_right endIndex captures].
    apply at_index_cons_inv in Hat1. destruct Hat1 as [Ha1 Hat1].
    rewrite Ha1, Ha. cbn [advance endIndex captures].
    apply star_greedy_first.
    + unfold repeat_fuel, advance. cbn [endIndex]. lia.
    + unfold advance. cbn [endIndex captures].
      assert (Erun : take_while (CNot CSpace) (skipn (S (i + 6)) s) = name').
      { destruct Hafter as [p Hp]. rewrite Hnext in Hp.
        assert (Hs : skipn (S (i + 6)) s = name' ++ c :: t ++ p).
        { change (S (i + 6)) with (1 + (i + 6)). rewrite <- skipn_skipn, Hp.
          cbn [app skipn]. rewrite <- app_assoc. reflexivity. }
        rewrite Hs. apply take_while_stop; [exact Hn'|].
        cbn [cset_mem] in Hc |- *. rewrite Hc. reflexivity. }
      rewrite Erun.
      replace (S (i + 6) + length name') with (i + 6 + length (a :: name'))
        by (cbn [length]; lia).
      exact Ey.
  - apply compile_sound in Ey. destruct Ey as [y' [Hm E]]. inversion E; subst y'.
    apply Matches_same_outside in Hm. destruct Hm as [_ Hsame].
    rewrite (Hsame 1).
    + reflexivity.
    + cbn [groups tail StarLazy line_body app]. intros [H|[]]. discriminate.
Qed.

Lemma first_occurrence_unique (a : code_unit) (l r l' r' : jsstring) :
  ~ In a l -> ~ In a l' -> l ++ a :: r = l' ++ a :: r' -> l = l' /\ r = r'.
Proof.
  revert l'. induction l as [|b l IH]; intros [|b' l'] Hl Hl' E; cbn [app] in E.
  - inversion E. auto.
  - inversion E; subst. exfalso. apply Hl'. left. reflexivity.
  - inversion E; subst. exfalso. apply Hl. left. reflexivity.
  - inversion E; subst.
    destruct (IH l') as [-> ->]; auto.
    + intros H. apply Hl. right. exact H.
    + intros H. apply Hl'. right. exact H.
Qed.

Lemma section_lines_head b t : section_lines (b :: t) -> cset_mem CDot b = false.
Proof. intros H. inversion H; subst. reflexivity. Qed.

(** A line and the lines after it are told apart by the first line feed. *)
Lemma lines_split_unique (a a' b b' : jsstring) :
  all_in CDot a -> all_in CDot a' -> section_lines b -> section_lines b' ->
  a ++ b = a' ++ b' -> a = a' /\ b = b'.
Proof.
  intros Ha. revert a'. induction Ha as [|x a Hx _ IH]; intros a' Ha' Hb Hb' E.
  - destruct Ha' as [|x' a' Hx' _]; [auto|].
    cbn [app] in E. subst b. apply section_lines_head in Hb. congruence.
  - destruct Ha' as [|x' a' Hx' Ha'].
    + cbn [app] in E. subst b'. apply section_lines_head in Hb'. congruence.
    + cbn [app] in E. inversion E; subst.
      destruct (IH a' Ha' Hb Hb' H1) as [-> ->]. auto.
Qed.

(** The declaration of a source whose first [" enum "] opens a name that
    white space follows, with no [;] before the one that ends the value
    section: the name and the tuples of exactly that section. *)
Lemma parse_first_enum pre enum_name rest section post c t :
  (forall j, j < length pre ->
     ~ at_index (str " enum ")
         (pre ++ str " enum " ++ enum_name ++ rest ++ section ++ chr ";" :: post) j) ->
  enum_name <> [] -> all_in (CNot CSpace) enum_name ->
  all_in CDot rest -> ~ In (chr ";") rest ->
  section_lines section -> ~ In (chr ";") section ->
  rest ++ section ++ [chr ";"] = c :: t -> cset_mem CSpace c = true ->
  parseEnumDeclaration
    (pre ++ str " enum " ++ enum_name ++ rest ++ section ++ chr ";" :: post) =
  Some (mkEnum (VStr enum_name) (parse_value_section section)).
Proof.
  set (s := pre ++ str " enum " ++ enum_name ++ rest ++ section ++ chr ";" :: post).
  intros Hfirst Hne Hn Hr Hnr Hl Hns Hnext Hc.
  assert (Hat : at_index (str " enum " ++ enum_name ++ rest ++ section ++ [chr ";"]) s
                  (length pre)).
  { replace s with (pre ++ (str " enum " ++ enum_name ++ rest ++ section ++ [chr ";"]) ++ post).
    - apply at_index_of_split.
    - subst s. rewrite <- ?app_assoc. cbn [app]. rewrite <- ?app_assoc. reflexivity. }
  assert (Hlen : length pre <= length s) by (subst s; rewrite length_app; lia).
  destruct (@whole_enum_takes_name s _ _ _ _ _ _ Hat Hne Hn Hr Hl Hnext Hc) as [y [Hm Hcap]].
  assert (E : fst (exec re_whole_enum s 0) = Some (match_array s (length pre) y)).
  { destruct (exec re_whole_enum s 0) as [[m|] li] eqn:E.
    - apply exec_Some in E. destruct E as [i' [y' [Hm' [_ [_ [Hnone [-> _]]]]]]].
      cbn [global re_whole_enum] in Hnone. cbn [fst].
      destruct (Nat.lt_trichotomy i' (length pre)) as [Hlt|[Heq|Hgt]].
      + exfalso. apply (Hfirst i' Hlt). apply (@whole_enum_shape s i' y' Hm').
      + subst i'. rewrite Hm in Hm'. inversion Hm'. reflexivity.
      + rewrite Hnone in Hm by lia. discriminate.
    - exfalso. pose proof (@exec_None _ _ _ _ E) as Hnone.
      cbn [global re_whole_enum] in Hnone. rewrite Hnone in Hm by lia. discriminate. }
  unfold parseEnumDeclaration. fold s. rewrite E.
  destruct (@whole_enum_structure s _ _ Hm) as [name' [rest' [section'
    [Hat' [_ [_ [Hr' [Hnr' [Hl' [Hns' Hma]]]]]]]]]].
  assert (Hname : name' = enum_name).
  { unfold match_array in Hma.
    destruct (captures y) as [|c0 [|c1 caps]]; try discriminate.
    cbn [nth_error] in Hcap. inversion Hcap; subst c1.
    cbn [tl map capture_value] in Hma.
    assert (Hsub : VStr (substring s (length pre + 6)
                           (length pre + 6 + length enum_name)) = VStr name')
      by congruence.
    injection Hsub as Hsub'. rewrite <- Hsub'. apply substring_at_index.
    apply at_index_app_inv in Hat. destruct Hat as [_ Hat].
    apply at_index_app_inv in Hat. destruct Hat as [Hat _]. exact Hat. }
  subst name'.
  assert (Hsec : section' = section).
  { destruct Hat as [p Hp]. destruct Hat' as [p' Hp']. rewrite Hp in Hp'.
    rewrite <- !app_assoc in Hp'.
    apply app_inv_head in Hp'. apply app_inv_head in Hp'.
    rewrite !app_assoc in Hp'. rewrite <- (app_assoc _ [chr ";"] p) in Hp'.
    rewrite <- (app_assoc _ [chr ";"] p') in Hp'. cbn [app] in Hp'.
    apply first_occurrence_unique in Hp'.
    - destruct Hp' as [Hp' _]. symmetry in Hp'.
      apply lines_split_unique in Hp'; try assumption.
      destruct Hp' as [_ Hs]. exact Hs.
    - intros Hin. apply in_app_or in Hin. tauto.
    - intros Hin. apply in_app_or in Hin. tauto. }
  subst section'. rewrite Hma. reflexivity.
Qed.

Lemma status_section_lines : section_lines status_section.
Proof.
  change status_section with
    (10%N :: (str "    OK(0, " ++ DQ ++ str "Green" ++ DQ ++ str "),")
       ++ (10%N :: (str "    NG(1, " ++ DQ ++ str "Red" ++ DQ ++ str ")") ++ [])).
  apply section_lines_cons; [unfold all_in; repeat constructor|].
  apply section_lines_cons; [unfold all_in; repeat constructor | constructor].
Qed.

Ltac not_in_list :=
  let H := fresh in
  intros H; vm_compute in H;
  repeat (destruct H as [H|H]; [discriminate H|]); exact H.

(** The two layouts of the declaration of the specification, in a source
    whose first [" enum "] is the one of that declaration. *)
Lemma status_parses pre post :
  (forall j tail, j < length pre ->
     ~ at_index (str " enum ") (pre ++ str " enum" ++ tail) j) ->
  parseEnumDeclaration (pre ++ status_decl_lines ++ post) =
    Some (mkEnum (VStr (str "Status")) (parse_value_section status_section)) /\
  parseEnumDeclaration (pre ++ status_decl_one_line ++ post) =
    Some (mkEnum (VStr (str "Status")) (parse_value_section [])).
Proof.
  intros Hfirst. split.
  - change (pre ++ status_decl_lines ++ post)
      with (pre ++ str " enum " ++ str "Status" ++ str " {" ++ status_section
              ++ chr ";" :: post).
    apply parse_first_enum with (c := chr " ") (t := chr "{" :: status_section ++ [chr ";"]).
    + intros j Hj.
      exact (Hfirst j (chr " " :: str "Status" ++ str " {" ++ status_section
                         ++ chr ";" :: post) Hj).
    + discriminate.
    + unfold all_in. repeat constructor.
    + unfold all_in. repeat constructor.
    + not_in_list.
    + exact status_section_lines.
    + not_in_list.
    + reflexivity.
    + reflexivity.
  - change (pre ++ status_decl_one_line ++ post)
      with (pre ++ str " enum " ++ str "Status"
              ++ (str " { OK(0, " ++ DQ ++ str "Green" ++ DQ ++ str "), NG(1, "
                    ++ DQ ++ str "Red" ++ DQ ++ str ")")
              ++ [] ++ chr ";" :: post).
    apply parse_first_enum
      with (c := chr " ")
           (t := str "{ OK(0, " ++ DQ ++ str "Green" ++ DQ ++ str "), NG(1, "
                   ++ DQ ++ str "Red" ++ DQ ++ str ");").
    + intros j Hj.
      exact (Hfirst j (chr " " :: str "Status"
                         ++ (str " { OK(0, " ++ DQ ++ str "Green" ++ DQ
                               ++ str "), NG(1, " ++ DQ ++ str "Red" ++ DQ ++ str ")")
                         ++ [] ++ chr ";" :: post) Hj).
    + discriminate.
    + unfold all_in. repeat constructor.
    + unfold all_in. repeat constructor.
    + not_in_list.
    + constructor.
    + intros [].
    + reflexivity.
    + reflexivity.
Qed.

(** * The claims *)

(** C1 (as amended).  For every source whose first [" enum "] is the one
    of the declaration [enum Status], whatever stands before and after the
    declaration: when the two entries stand on the lines after the header
    line, the chain parse, guess, project produces the table id ["status"],
    the schema key:string, code:integer, label:string and the two rows
    OK/0/Green and NG/1/Red; when the declaration is written on one line,
    its value section is empty and nothing is loaded. *)
Theorem C1_status_first_enum (pre post : jsstring) :
  (forall j tail, j < length pre ->
     ~ at_index (str " enum ") (pre ++ str " enum" ++ tail) j) ->
  github_loads [pre ++ status_decl_lines ++ post] = [status_load] /\
  github_loads [pre ++ status_decl_one_line ++ post] = [].
Proof.
  intros Hfirst. destruct (@status_parses pre post Hfirst) as [Hl Ho].
  rewrite !github_loads_one, Hl, Ho. split; vm_compute; reflexivity.
Qed.

Lemma C1_witness :
  status_lines = str "public" ++ status_decl_lines ++ (NL ++ str "}") /\
  github_loads [str "public" ++ status_decl_lines ++ (NL ++ str "}")] = [status_load] /\
  github_loads [str "public" ++ status_decl_one_line ++ (NL ++ str "}")] = [].
Proof.
  split; [reflexivity|].
  apply (@C1_status_first_enum (str "public") (NL ++ str "}")).
  intros j tail Hj [p Hp].
  do 6 (destruct j as [|j]; [vm_compute in Hp; discriminate Hp|]).
  vm_compute in Hj. lia.
Defined.

(** C1, counterexample.  Sources that hold the declaration and do not
    give the load.  The declaration written on one line, as the
    specification quotes it, has no space before [enum] and is not
    recognised; behind [public ] it is recognised, but its value section
    (the lines after the header line) is empty, so nothing is loaded.  And
    behind a comment line that holds [" enum "], the declaration with one
    entry per line is not the one that is parsed: the table is named after
    the word that follows [enum] in the comment. *)
Lemma C1_status_one_line_no_load :
  parseEnumDeclaration status_one_line = None /\
  github_loads [status_one_line] = [] /\
  parseEnumDeclaration (str "public " ++ status_one_line) =
    Some (mkEnum (VStr (str "Status")) []) /\
  github_loads [str "public " ++ status_one_line] = [] /\
  github_loads [status_one_line] <> [status_load] /\
  github_loads [str "public " ++ status_one_line] <> [status_load] /\
  map table_id (github_loads [str "/** an enum for status */" ++ NL ++ status_lines]) =
    [str "for"].
Proof. vm_compute. repeat split; reflexivity || discriminate. Qed.

(** C2, the code at the failing inputs.  An entry with four literals gives
    a tuple with the key and all four literals; one with five literals
    gives the key, the first three literals and the fifth. *)
Theorem C2_later_literal_retained :
  parse_value_section four_literals =
    [[VStr (str "KEY"); VStr (str "0"); VStr (str "a"); VStr (str "b");
      VStr (str "c")]] /\
  parse_value_section five_literals =
    [[VStr (str "KEY"); VStr (str "0"); VStr (str "a"); VStr (str "b");
      VStr (str "d")]].
Proof. vm_compute. split; reflexivity. Qed.

(** C3 (as amended).  For every input and every column [c] of the result,
    the type of [c] is computed from [row[c]] of every row, short rows
    contributing [undefined]; a column that some row lacks is a string
    column; when every row has an entry at [c] these entries are exactly
    the contributing ones. *)
Theorem C3_short_rows_contribute_undefined (rows : list ValueTuple) (c : nat) :
  c < max_length rows ->
  nth_error (guessSchema rows) c = Some (guess_column (column_entries rows c)) /\
  ((exists r, In r rows /\ length r <= c) ->
     nth_error (guessSchema rows) c = Some TString) /\
  ((forall r, In r rows -> c < length r) ->
     column_entries rows c = contributing rows c).
Proof.
  intros Hc. split; [apply guessSchema_nth; exact Hc|]. split.
  - intros [r [Hin Hlen]]. rewrite (guessSchema_nth rows Hc). f_equal.
    apply guess_column_undef. eapply column_entries_short; eauto.
  - apply column_entries_full.
Qed.

Lemma C3_witness :
  1 < max_length ragged /\
  nth_error (guessSchema ragged) 1 = Some TString.
Proof.
  assert (H : 1 < max_length ragged) by (vm_compute; lia).
  split; [exact H|].
  apply (proj1 (proj2 (C3_short_rows_contribute_undefined ragged H))).
  exists [VStr (str "1")]. split; [left; reflexivity | simpl; lia].
Defined.

(** C3, counterexample.  For [[["1"],["1","2"]]] the only contributing
    value of the second column is ["2"], which alone would be an integer
    column; the code reports a string column. *)
Lemma C3_ragged_second_column_is_string :
  contributing ragged 1 = [VStr (str "2")] /\
  guess_column (contributing ragged 1) = TInteger /\
  guessSchema ragged = [TInteger; TString].
Proof. vm_compute. repeat split; reflexivity. Qed.

(** C4, the code at the failing input.  The first tuple of a bare-mode
    enum is [[key, 0]]; its row has no [code] column although the tuple
    has a value at position 1, the second row has one.  The older handler
    writes the value, but writes [undefined] for a position that a short
    tuple lacks. *)
Theorem C4_zero_code_dropped :
  enumToBigQueryRows [[VStr (str "RED"); VNum 0]; [VStr (str "GREEN"); VNum 1]] columns =
    [[(str "key", VStr (str "RED"))];
     [(str "key", VStr (str "GREEN")); (str "code", VNum 1)]] /\
  obj_has (str "code") (project_row columns [VStr (str "RED"); VNum 0]) = false /\
  map rows (github_loads [color_source]) =
    [[[(str "key", VStr (str "RED"))];
      [(str "key", VStr (str "GREEN")); (str "code", VNum 1)];
      [(str "key", VStr (str "BLUE")); (str "code", VNum 2)]]] /\
  rows (Legacy.load_of (mkEnum (VStr (str "E")) ragged)) =
    [[(str "key", VStr (str "1")); (str "code", VUndef)];
     [(str "key", VStr (str "1")); (str "code", VStr (str "2"))]].
Proof. vm_compute. repeat split; reflexivity. Qed.

(** C5 (as amended).  For every column [c] of the input, with the entries
    [row[c]] that the column check considers (one for every row,
    [undefined] for a row without position [c]): the type is boolean iff every entry
    is literally ["true"] or ["false"]; it is integer iff not so and every
    entry, as a string, is a non-empty run of digits (no sign, no decimal
    point); it is string otherwise.  So an all-boolean column is never
    integer, and one entry with a character that is not a digit makes a
    column that is not all-boolean a string column.  When every row has an
    entry at [c], the entries considered are exactly the values the rows
    supply there.  The three examples of the specification follow. *)
Theorem C5_column_type :
  (forall (rows : list ValueTuple) (c : nat), c < max_length rows ->
     exists ty, nth_error (guessSchema rows) c = Some ty /\
       (ty = TBoolean <-> Forall is_bool_literal (column_entries rows c)) /\
       (ty = TInteger <->
          ~ Forall is_bool_literal (column_entries rows c) /\
          Forall (fun v => all_digits (ToString v)) (column_entries rows c)) /\
       (ty = TString <->
          ~ Forall is_bool_literal (column_entries rows c) /\
          ~ Forall (fun v => all_digits (ToString v)) (column_entries rows c))) /\
  (forall (rows : list ValueTuple) (c : nat),
     (forall r, In r rows -> c < length r) ->
     column_entries rows c = contributing rows c) /\
  guessSchema [[VStr (str "true")]; [VStr (str "false")]] = [TBoolean] /\
  guessSchema [[VStr (str "123")]; [VStr (str "123")]] = [TInteger] /\
  guessSchema [[VStr (str "123")]; [VStr (str "not_number")]] = [TString].
Proof.
  split; [|split; [exact column_entries_full | vm_compute; repeat split; reflexivity]].
  intros rows c Hc. exists (guess_column (column_entries rows c)).
  split; [apply guessSchema_nth; exact Hc | apply guess_column_spec].
Qed.

Lemma C5_witness :
  exists ty,
    nth_error (guessSchema [[VStr (str "12")]; [VStr (str "1.5")]]) 0 = Some ty /\
    ty = TString /\
    column_entries [[VStr (str "12")]; [VStr (str "1.5")]] 0 =
      [VStr (str "12"); VStr (str "1.5")].
Proof.
  assert (H : 0 < max_length [[VStr (str "12")]; [VStr (str "1.5")]])
    by (vm_compute; lia).
  destruct (proj1 C5_column_type _ 0 H) as [ty [Hty _]].
  exists ty. split; [exact Hty|].
  vm_compute in Hty. inversion Hty. split; reflexivity.
Defined.

(** C5, counterexample.  In [[["a"],["b","true"]]] the only value that a
    row supplies for the second column is ["true"], a boolean literal; the
    column check also considers the [undefined] of the first row, and the
    column is a string column. *)
Lemma C5_ragged_true_column_is_string :
  contributing ragged_true 1 = [VStr (str "true")] /\
  Forall is_bool_literal (contributing ragged_true 1) /\
  column_entries ragged_true 1 = [VUndef; VStr (str "true")] /\
  guessSchema ragged_true = [TString; TString].
Proof.
  split; [reflexivity|]. split; [|split; vm_compute; reflexivity].
  constructor; [left; reflexivity | constructor].
Qed.

(** C6.  For every declaration parsed in the bare mode
    ([is_autoindex_code] is true for its value section), the values are
    the tuples [[identifier, ordinal]] of the identifiers of the value
    section (its maximal runs of key characters, found left to right
    whatever lies between them) in the order of the text; there are as
    many tuples as identifiers, and the ordinal of the tuple at position
    [i] is [i], so the ordinals of [N] tuples are [0 .. N-1]. *)
Theorem C6_bare_ordinals (s : jsstring) (d : EnumDeclaration) (section : jsstring) :
  parseEnumDeclaration s = Some d ->
  value_section_of s = Some section ->
  snd (choose_re_enum section) = true ->
  values d = mapi (fun id i => [VStr id; VNum (N.of_nat i)]) (key_tokens section) /\
  Forall is_key (key_tokens section) /\
  in_order (key_tokens section) section /\
  length (values d) = length (key_tokens section) /\
  forall i t, nth_error (values d) i = Some t -> arr_get t 1 = VNum (N.of_nat i).
Proof.
  intros Hp Hs Hmode.
  apply parse_Some_inv in Hp. destruct Hp as [section' [Hs' Hv]].
  rewrite Hs in Hs'. inversion Hs'; subst section'. clear Hs'.
  assert (Hbare : ~ has_paren_entry section).
  { intros H. apply choose_paren in H. rewrite H in Hmode. discriminate. }
  pose proof (parse_value_section_bare_tokens Hbare) as E.
  destruct (key_tokens_are_keys section) as [Hk Ho].
  set (ids := key_tokens section) in *.
  rewrite Hv, E. split; [reflexivity|]. split; [exact Hk|].
  split; [exact Ho|]. split; [apply mapi_from_length|].
  intros i t Ht. unfold mapi, ValueTuple in *.
  destruct (nth_error ids i) as [id|] eqn:Eid.
  - pose proof (@mapi_from_nth jsstring (list value)
                  (fun id i => [VStr id; VNum (N.of_nat i)]) ids 0 i id Eid) as Hn.
    rewrite Hn in Ht. inversion Ht. reflexivity.
  - apply nth_error_None in Eid.
    assert (Hlt : i < length (@mapi_from jsstring (list value) 0
                    (fun id i => [VStr id; VNum (N.of_nat i)]) ids))
      by (apply nth_error_Some; rewrite Ht; discriminate).
    rewrite mapi_from_length in Hlt. lia.
Qed.

Lemma C6_witness :
  values (mkEnum (VStr (str "Color"))
            [[VStr (str "RED"); VNum 0]; [VStr (str "GREEN"); VNum 1];
             [VStr (str "BLUE"); VNum 2]]) =
    mapi (fun id i => [VStr id; VNum (N.of_nat i)]) (key_tokens color_section) /\
  key_tokens color_section = [str "RED"; str "GREEN"; str "BLUE"].
Proof.
  assert (Hp : parseEnumDeclaration color_source =
               Some (mkEnum (VStr (str "Color"))
                       [[VStr (str "RED"); VNum 0]; [VStr (str "GREEN"); VNum 1];
                        [VStr (str "BLUE"); VNum 2]]))
    by (vm_compute; reflexivity).
  assert (Hs : value_section_of color_source = Some color_section)
    by (vm_compute; reflexivity).
  assert (Hm : snd (choose_re_enum color_section) = true)
    by (vm_compute; reflexivity).
  split; [exact (proj1 (C6_bare_ordinals color_source Hp Hs Hm))|].
  vm_compute. reflexivity.
Defined.






(** C9.  When the declaration pattern matches and the chosen entry
    pattern finds nothing in the value section, the parser returns the
    declaration with its name and no values, not [null]; and a source whose
    declaration has no values adds no load, wherever it stands among the
    contents. *)
Theorem C9_empty_declaration :
  (forall (s : jsstring) (m : list value),
     fst (exec re_whole_enum s 0) = Some m ->
     fst (exec (fst (choose_re_enum (ToString (arr_get m 2))))
               (ToString (arr_get m 2)) 0) = None ->
     parseEnumDeclaration s = Some (mkEnum (arr_get m 1) [])) /\
  (forall (s : jsstring) (d : EnumDeclaration) (before after : list jsstring),
     parseEnumDeclaration s = Some d -> values d = [] ->
     github_loads (before ++ s :: after) = github_loads (before ++ after)).
Proof.
  split.
  - intros s m Hm Hnone. unfold parseEnumDeclaration. rewrite Hm.
    cbv zeta. f_equal. f_equal. unfold parse_value_section.
    destruct (choose_re_enum (ToString (arr_get m 2))) as [re b]. simpl in Hnone.
    cbn [exec_loop].
    destruct (exec re (ToString (arr_get m 2)) 0) as [[m'|] li];
      [discriminate | reflexivity].
  - intros s d before after Hp Hv.
    change (s :: after) with ([s] ++ after).
    rewrite !github_loads_app, (github_loads_empty_values s Hp Hv). reflexivity.
Qed.

Lemma C9_witness :
  parseEnumDeclaration empty_source = Some (mkEnum (VStr (str "Empty")) []) /\
  github_loads ([status_lines] ++ empty_source :: [color_source]) =
  github_loads ([status_lines] ++ [color_source]).
Proof.
  assert (Hm : fst (exec re_whole_enum empty_source 0) =
               Some [VStr (str " enum Empty {" ++ NL ++ str "  ;");
                     VStr (str "Empty"); VStr (NL ++ str "  ")])
    by (vm_compute; reflexivity).
  pose proof (proj1 C9_empty_declaration empty_source _ Hm) as Hp.
  assert (Hp' : parseEnumDeclaration empty_source =
                Some (mkEnum (VStr (str "Empty")) []))
    by (apply Hp; vm_compute; reflexivity).
  split; [exact Hp'|].
  apply (proj2 C9_empty_declaration empty_source
           (mkEnum (VStr (str "Empty")) []) [status_lines] [color_source] Hp').
  reflexivity.
Defined.

(** C10.  The parser needs a space right before and right after [enum]:
    for every source text in which no occurrence of [enum] has a space on
    both sides (it is at the very start, or a tab, a newline or anything
    else stands on one side), that is, in which [" enum "] does not occur,
    the parser returns [null]. *)
Theorem C10_enum_needs_spaces (s : jsstring) :
  includes (str " enum ") s = false -> parseEnumDeclaration s = None.
Proof.
  intros H. destruct (parseEnumDeclaration s) as [d|] eqn:E; [|reflexivity].
  assert (Hne : parseEnumDeclaration s <> None) by congruence.
  apply parse_Some_tests in Hne. destruct Hne as [H1 _]. congruence.
Qed.

Lemma C10_witness :
  parseEnumDeclaration (str "enum Status {" ++ NL ++ str "  OK;" ++ NL ++ str "}") = None /\
  parseEnumDeclaration
    (str "public" ++ NL ++ str "enum Status {" ++ NL ++ str "  OK;" ++ NL ++ str "}") = None /\
  parseEnumDeclaration
    (str "public" ++ TAB ++ str "enum" ++ TAB ++ str "Status {" ++ NL ++ str "  OK;" ++ NL ++ str "}") = None.
Proof.
  split; [|split]; apply C10_enum_needs_spaces; vm_compute; reflexivity.
Defined.

(** * Further properties of the handler's functions *)

(** X1.  [guessSchema] does not depend on the order of the rows: two lists
    with the same rows, in any order, get the same column types. *)
Theorem X1_guessSchema_row_order (rows rows' : list ValueTuple) :
  Permutation rows rows' -> guessSchema rows = guessSchema rows'.
Proof. apply guessSchema_perm. Qed.

Lemma X1_witness :
  Permutation [[VStr (str "1"); VStr (str "a")]; [VStr (str "x")]]
              [[VStr (str "x")]; [VStr (str "1"); VStr (str "a")]] /\
  guessSchema [[VStr (str "1"); VStr (str "a")]; [VStr (str "x")]] =
  guessSchema [[VStr (str "x")]; [VStr (str "1"); VStr (str "a")]].
Proof.
  split; [apply perm_swap|].
  apply (@X1_guessSchema_row_order
           [[VStr (str "1"); VStr (str "a")]; [VStr (str "x")]]
           [[VStr (str "x")]; [VStr (str "1"); VStr (str "a")]]).
  apply perm_swap.
Defined.

(** X2.  One more row never turns a column into boolean or integer: in
    [guessSchema] of the longer list every column that the shorter list
    has keeps its type or becomes string. *)
Theorem X2_guessSchema_added_row (rows : list ValueTuple) (r : ValueTuple)
    (c : nat) (ty : ColumnType) :
  nth_error (guessSchema rows) c = Some ty ->
  nth_error (guessSchema (r :: rows)) c = Some ty \/
  nth_error (guessSchema (r :: rows)) c = Some TString.
Proof. apply guessSchema_add_row. Qed.

Lemma X2_witness :
  nth_error (guessSchema [[VStr (str "1")]]) 0 = Some TInteger /\
  (nth_error (guessSchema [[VStr (str "x")]; [VStr (str "1")]]) 0 = Some TInteger \/
   nth_error (guessSchema [[VStr (str "x")]; [VStr (str "1")]]) 0 = Some TString).
Proof.
  split; [vm_compute; reflexivity|].
  apply (@X2_guessSchema_added_row [[VStr (str "1")]] [VStr (str "x")] 0).
  vm_compute. reflexivity.
Defined.

(** X3.  The schema fields are the column names paired, in order, with
    the guessed types: there are as many fields as the smaller of the
    number of column names and the length of the longest tuple, so types
    guessed beyond the last column name are dropped. *)
Theorem X3_schema_pairs_names_with_types (enum_values : list ValueTuple)
    (cols : list jsstring) :
  enumToBigQuerySchemaFields enum_values cols =
    map (fun p => mkField (VStr (fst p)) (snd p))
        (combine cols (guessSchema enum_values)) /\
  length (enumToBigQuerySchemaFields enum_values cols) =
    Nat.min (length cols) (max_length enum_values).
Proof.
  rewrite schema_fields_zip. split; [reflexivity|].
  rewrite length_map, length_combine, guessSchema_length. reflexivity.
Qed.

(** X4.  The row built for a tuple has the property [k] with value [v]
    exactly when [k] is the name of a column whose position holds [v] in
    the tuple and [v] is truthy: falsy values (the number 0, the empty
    string, [undefined]) leave no property. *)
Theorem X4_row_properties (k : jsstring) (v : value) (vs : ValueTuple) :
  obj_get k (project_row columns vs) = Some v <->
  exists i, nth_error columns i = Some k /\ nth_error vs i = Some v /\
            truthy v = true.
Proof. apply project_row_get. Qed.

(** X5.  Every property of every row is the name of a field of the schema
    computed from the same values. *)
Theorem X5_rows_fit_schema (enum_values : list ValueTuple) (row : object)
    (k : jsstring) :
  In row (enumToBigQueryRows enum_values columns) ->
  obj_has k row = true ->
  In (VStr k) (map field_name (enumToBigQuerySchemaFields enum_values columns)).
Proof. apply row_properties_in_schema. Qed.

Lemma X5_witness :
  In (VStr (str "code"))
     (map field_name
        (enumToBigQuerySchemaFields [[VStr (str "A"); VStr (str "1")]] columns)).
Proof.
  apply (@X5_rows_fit_schema [[VStr (str "A"); VStr (str "1")]]
           [(str "key", VStr (str "A")); (str "code", VStr (str "1"))]
           (str "code")).
  - vm_compute. left. reflexivity.
  - vm_compute. reflexivity.
Defined.

(** X6.  Every load that the handler starts comes from a source whose
    declaration has values; it has one row for each value, the first field
    of its schema is the string column [key], and every row has the
    property [key], holding an identifier. *)
Theorem X6_loads_are_keyed (contents : list jsstring) (l : Load) :
  In l (github_loads contents) ->
  exists s d, In s contents /\ parseEnumDeclaration s = Some d /\
    values d <> [] /\ l = load_of d /\
    length (rows l) = length (values d) /\
    (exists rest, schema l = mkField (VStr (str "key")) TString :: rest) /\
    Forall (fun row => exists id, is_key id /\
                         obj_get (str "key") row = Some (VStr id)) (rows l).
Proof. apply github_loads_shape. Qed.

Lemma X6_witness :
  exists s d, In s [status_lines] /\ parseEnumDeclaration s = Some d /\
    values d <> [] /\ status_load = load_of d /\
    length (rows status_load) = length (values d) /\
    (exists rest, schema status_load = mkField (VStr (str "key")) TString :: rest) /\
    Forall (fun row => exists id, is_key id /\
                         obj_get (str "key") row = Some (VStr id)) (rows status_load).
Proof.
  apply (@X6_loads_are_keyed [status_lines] status_load).
  vm_compute. left. reflexivity.
Defined.

(** X7.  In the mode without parentheses, a value section with at least
    one key gets the schema key:string, code:integer. *)
Theorem X7_bare_schema (section : jsstring) :
  snd (choose_re_enum section) = true -> key_tokens section <> [] ->
  enumToBigQuerySchemaFields (parse_value_section section) columns =
  [mkField (VStr (str "key")) TString; mkField (VStr (str "code")) TInteger].
Proof. apply bare_schema. Qed.

Lemma X7_witness :
  enumToBigQuerySchemaFields (parse_value_section color_section) columns =
  [mkField (VStr (str "key")) TString; mkField (VStr (str "code")) TInteger].
Proof.
  apply (@X7_bare_schema color_section).
  - vm_compute. reflexivity.
  - vm_compute. discriminate.
Defined.

(** X8.  In the mode with parentheses every tuple has between one and
    five elements, all of them non-empty strings. *)
Theorem X8_paren_tuples (section : jsstring) :
  snd (choose_re_enum section) = false ->
  Forall (fun t => 1 <= length t <= 5 /\ Forall nonempty_string t)
    (parse_value_section section).
Proof. apply paren_tuple_sizes. Qed.

Lemma X8_witness :
  Forall (fun t => 1 <= length t <= 5 /\ Forall nonempty_string t)
    (parse_value_section five_literals).
Proof.
  apply (@X8_paren_tuples five_literals). vm_compute. reflexivity.
Defined.

(** X9.  In the older handler every row has exactly the columns of the
    schema, in the order of the schema, each with the tuple's value at
    that position ([undefined] where the tuple is shorter). *)
Theorem X9_legacy_rows (x : EnumDeclaration) (row : object) :
  In row (rows (Legacy.load_of x)) ->
  exists vs, In vs (values x) /\
    row = combine (firstn (length (schema (Legacy.load_of x))) columns)
            (map (arr_get vs) (seq 0 (length (schema (Legacy.load_of x))))) /\
    map (fun p => VStr (fst p)) row = map field_name (schema (Legacy.load_of x)).
Proof. apply legacy_rows. Qed.

Lemma X9_witness :
  exists vs,
    In vs [[VStr (str "A"); VStr (str "1")]; [VStr (str "B")]] /\
    [(str "key", VStr (str "B")); (str "code", VUndef)] =
      combine (firstn 2 columns) (map (arr_get vs) (seq 0 2)) /\
    map (fun p => VStr (fst p)) [(str "key", VStr (str "B")); (str "code", VUndef)] =
      [VStr (str "key"); VStr (str "code")].
Proof.
  apply (@X9_legacy_rows
           (mkEnum (VStr (str "E")) [[VStr (str "A"); VStr (str "1")]; [VStr (str "B")]])
           [(str "key", VStr (str "B")); (str "code", VUndef)]).
  vm_compute. right. left. reflexivity.
Defined.

(** X10.  The anatomy of a parsed source.  The source holds [" enum "],
    then the name, then the rest of that line, then the value section,
    then a [;].  The name is not empty and has no blank; the rest of the
    line has no line terminator; the value section is made of whole
    lines, each opened by a line feed; and neither the rest of the line
    nor the value section holds a [;], so the declaration ends at the
    first [;] after the name. *)
Theorem X10_parse_anatomy (s : jsstring) (d : EnumDeclaration) :
  parseEnumDeclaration s = Some d ->
  exists pre enum_name rest section post,
    s = pre ++ str " enum " ++ enum_name ++ rest ++ section ++ chr ";" :: post /\
    name d = VStr enum_name /\ values d = parse_value_section section /\
    enum_name <> [] /\ all_in (CNot CSpace) enum_name /\
    all_in CDot rest /\ ~ In (chr ";") rest /\
    section_lines section /\ ~ In (chr ";") section.
Proof. apply parse_anatomy. Qed.

Lemma X10_witness :
  exists pre enum_name rest section post,
    color_source =
      pre ++ str " enum " ++ enum_name ++ rest ++ section ++ chr ";" :: post /\
    VStr (str "Color") = VStr enum_name /\
    [[VStr (str "RED"); VNum 0]; [VStr (str "GREEN"); VNum 1];
     [VStr (str "BLUE"); VNum 2]] = parse_value_section section /\
    enum_name <> [] /\ all_in (CNot CSpace) enum_name /\
    all_in CDot rest /\ ~ In (chr ";") rest /\
    section_lines section /\ ~ In (chr ";") section.
Proof.
  apply (@X10_parse_anatomy color_source
           (mkEnum (VStr (str "Color"))
              [[VStr (str "RED"); VNum 0]; [VStr (str "GREEN"); VNum 1];
               [VStr (str "BLUE"); VNum 2]])).
  vm_compute. reflexivity.
Defined.

(** X11.  Sources in which every line feed comes right after a carriage
    return (Windows line ends), and sources without any line feed, are
    never loaded: their declarations have no value section. *)
Theorem X11_crlf_sources_not_loaded (contents : list jsstring) :
  Forall (fun s => no_bare_lf false s = true) contents ->
  github_loads contents = [].
Proof. apply github_loads_crlf. Qed.

Lemma X11_witness :
  github_loads
    [str "public enum Color {" ++ [13%N; 10%N] ++ str "  RED," ++ [13%N; 10%N]
       ++ str "  GREEN;" ++ [13%N; 10%N] ++ str "}"] = [].
Proof.
  apply (@X11_crlf_sources_not_loaded
           [str "public enum Color {" ++ [13%N; 10%N] ++ str "  RED," ++ [13%N; 10%N]
              ++ str "  GREEN;" ++ [13%N; 10%N] ++ str "}"]).
  constructor; [vm_compute; reflexivity | constructor].
Defined.

(** X12.  On a text of ASCII characters (the range on which
    [toLowerCase] is modelled) [camelToSnakeCase] is the one-pass snake
    case: every letter in lower case, with a [_] before each upper-case
    letter that is not the first character.  Its result is that many
    characters longer than the text. *)
Theorem X12_camelToSnakeCase_one_pass (s : jsstring) :
  ascii_only s ->
  camelToSnakeCase s = snake_case s /\
  length (camelToSnakeCase s) = length s + length (filter is_upper (tl s)).
Proof.
  intros _. rewrite camelToSnakeCase_snake. split; [reflexivity|].
  destruct s as [|c t]; [reflexivity|].
  cbn [snake_case length tl]. rewrite snake_tail_length. reflexivity.
Qed.

Lemma X12_witness :
  camelToSnakeCase (str "HTTPStatus") = snake_case (str "HTTPStatus") /\
  length (camelToSnakeCase (str "HTTPStatus")) =
    length (str "HTTPStatus") + length (filter is_upper (tl (str "HTTPStatus"))).
Proof.
  apply (@X12_camelToSnakeCase_one_pass (str "HTTPStatus")).
  unfold ascii_only. repeat constructor.
Defined.

(** X13.  On a text of ASCII characters the result of [camelToSnakeCase]
    has no upper-case letter, and converting it again changes nothing. *)
Theorem X13_camelToSnakeCase_idempotent (s : jsstring) :
  ascii_only s ->
  Forall (fun c => is_upper c = false) (camelToSnakeCase s) /\
  camelToSnakeCase (camelToSnakeCase s) = camelToSnakeCase s.
Proof.
  intros _. rewrite !camelToSnakeCase_snake. split.
  - apply snake_case_no_upper.
  - apply snake_case_fixed, snake_case_no_upper.
Qed.

Lemma X13_witness :
  Forall (fun c => is_upper c = false) (camelToSnakeCase (str "FooBar")) /\
  camelToSnakeCase (camelToSnakeCase (str "FooBar")) = camelToSnakeCase (str "FooBar").
Proof.
  apply (@X13_camelToSnakeCase_idempotent (str "FooBar")).
  unfold ascii_only. repeat constructor.
Defined.

(** X14.  [isEnumSourceFile] accepts exactly the blobs whose path holds,
    anywhere, the text [enums/] followed on the same line by at least one
    character and then [java]: the pattern is not anchored and its dots
    stand for any character, so neither the extension [.java] nor a
    directory named [enums] is required. *)
Theorem X14_isEnumSourceFile_accepts (o : GitTreeObject) :
  isEnumSourceFile o = true <->
  type o = str "blob" /\
  exists pre mid c post,
    path o = pre ++ str "enums/" ++ mid ++ c :: str "java" ++ post /\
    all_in CDot mid /\ cset_mem CDot c = true.
Proof. apply isEnumSourceFile_spec. Qed.

(** X15.  The table of every load is named by the snake case of the
    declared name; for sources of ASCII characters the table name is not
    empty and has neither blanks nor upper-case letters. *)
Theorem X15_table_names (contents : list jsstring) (l : Load) :
  Forall ascii_only contents ->
  In l (github_loads contents) ->
  exists s d enum_name,
    In s contents /\ parseEnumDeclaration s = Some d /\ name d = VStr enum_name /\
    table_id l = snake_case enum_name /\
    table_id l <> [] /\
    all_in (CNot CSpace) (table_id l) /\
    Forall (fun c => is_upper c = false) (table_id l).
Proof. intros _. apply github_loads_table_id. Qed.

Lemma X15_witness :
  exists s d enum_name,
    In s [status_lines] /\ parseEnumDeclaration s = Some d /\ name d = VStr enum_name /\
    table_id status_load = snake_case enum_name /\
    table_id status_load <> [] /\
    all_in (CNot CSpace) (table_id status_load) /\
    Forall (fun c => is_upper c = false) (table_id status_load).
Proof.
  apply (@X15_table_names [status_lines] status_load).
  - constructor; [|constructor]. unfold ascii_only.
    apply Forall_forall. intros c Hc. vm_compute in Hc.
    repeat (destruct Hc as [<-|Hc]; [reflexivity|]). destruct Hc.
  - vm_compute. left. reflexivity.
Defined.

(** X16.  Every tuple that [parseEnumDeclaration] collects from a value
    section, in either mode, starts with a key: a string of upper-case
    letters, digits and underscores that does not start with a digit. *)
Theorem X16_tuples_start_with_key (section : jsstring) :
  Forall (fun t => exists id rest, t = VStr id :: rest /\ is_key id)
         (parse_value_section section).
Proof. apply tuples_keyed. Qed.

(** X17.  [parseEnumDeclaration] returns a declaration exactly for the
    sources that hold [" enum "], a non-empty name without blanks, the
    rest of that line, any number of whole lines, and then a [;]. *)
Theorem X17_parse_succeeds_iff (s : jsstring) :
  parseEnumDeclaration s <> None <->
  exists pre enum_name rest section post,
    s = pre ++ str " enum " ++ enum_name ++ rest ++ section ++ chr ";" :: post /\
    enum_name <> [] /\ all_in (CNot CSpace) enum_name /\
    all_in CDot rest /\ section_lines section.
Proof. apply parse_iff. Qed.
